(** * The SuperHero compiler: lexer, two-pass parser and C code generator

    A shallow embedding of [superhero_compiler.py].  Python values that a
    token or an instruction field may hold ([None], a [str], an [int]) are
    kept as such; the [labels] set is a [gset], the [flashes] dictionary a
    [gmap], and the [doctorstranges] dictionary, whose iteration order the
    generator observes, an insertion-ordered association list.  A
    [sys.exit(1)] or an uncaught exception is an [Err] result.

    A character of the source text is a code point below 256; the
    character classes [isspace], [isdecimal], [isdigit], [isalpha] and
    [isalnum] are those of [str] on that range, where the superscripts
    one, two and three are digits without being decimal and the letters
    with diacritics are letters.  [int] is that of an interpreter with the
    default bound of 4300 on the digits of a decimal text. *)

From Stdlib Require Import Ascii.
From stdpp Require Import gmap strings list pretty sorting.

Open Scope string_scope.
Open Scope list_scope.
Open Scope nat_scope.
Open Scope stdpp_scope.

(** ** Python values and results *)

Inductive pyval :=
| PNone
| PStr (s : string)
| PInt (n : Z).

Global Instance pyval_eq_dec : EqDecision pyval.
Proof. solve_decision. Defined.

(** [str(v)], as an f-string renders a field. *)
Definition py_str (v : pyval) : string :=
  match v with
  | PNone => "None"
  | PStr s => s
  | PInt n => pretty n
  end.

(** Truthiness of a value ([if name:]). *)
Definition py_truthy (v : pyval) : bool :=
  match v with
  | PNone => false
  | PStr s => negb (String.eqb s EmptyString)
  | PInt n => negb (n =? 0)%Z
  end.

Inductive error :=
| UnclosedString (line_num : nat)
| InvalidCellRef (word : string) (line_num : nat)
| InvalidOperator (op : string) (line_num : nat)
| ExpectedArrayName (line_num : nat)
| ExpectedString (line_num : nat)
| PyRaise (exc : string)
| OutOfFuel.

Inductive result (A : Type) :=
| Ok (a : A)
| Err (e : error).
Arguments Ok {A} a.
Arguments Err {A} e.

Global Instance result_ret : MRet result := fun _ a => Ok a.

Global Instance result_bind : MBind result := fun _ _ k r =>
  match r with
  | Ok a => k a
  | Err e => Err e
  end.

(** ** While loops

    A Python [while cond: body] over a state, run with a bound on the number
    of iterations.  Every loop of the compiler advances an index towards the
    length of the sequence it scans, which gives the bound. *)

Section While.
Context {S : Type} (cond : S → bool) (body : S → result S).

Fixpoint while (fuel : nat) (s : S) : result S :=
  if cond s then
    match fuel with
    | O => Err OutOfFuel
    | Datatypes.S fuel' => s' ← body s; while fuel' s'
    end
  else Ok s.

(** [reaches s s']: started at [s], the loop is at [s'] at the head of
    one of its iterations. *)
Inductive reaches : S → S → Prop :=
| reaches_here s : reaches s s
| reaches_step s s' s'' :
    cond s = true → body s = Ok s' → reaches s' s'' → reaches s s''.
End While.

(** ** Strings *)

Definition dq : ascii := "034"%char.
Definition nl : ascii := "010"%char.
Definition backslash : ascii := "092"%char.
Definition dqs : string := String dq EmptyString.
Definition nls : string := String nl EmptyString.
Definition bss : string := String backslash EmptyString.

(** [c.isspace()]: the ASCII white space and separators, the next-line
    control and the no-break space. *)
Definition py_isspace (c : ascii) : bool :=
  let n := nat_of_ascii c in
  (((9 <=? n) && (n <=? 13)) || ((28 <=? n) && (n <=? 32))
   || (n =? 133) || (n =? 160))%nat.

(** [c.isdecimal()]: the digits that [int] reads. *)
Definition py_isdecimal (c : ascii) : bool :=
  let n := nat_of_ascii c in ((48 <=? n) && (n <=? 57))%nat.

(** [c.isdigit()]: the decimal digits and the superscripts two, three and
    one. *)
Definition py_isdigit (c : ascii) : bool :=
  let n := nat_of_ascii c in
  (py_isdecimal c || ((178 <=? n) && (n <=? 179)) || (n =? 185))%nat.

(** [c.isalpha()]. *)
Definition py_isalpha (c : ascii) : bool :=
  let n := nat_of_ascii c in
  (((65 <=? n) && (n <=? 90)) || ((97 <=? n) && (n <=? 122))
   || (n =? 170) || (n =? 181) || (n =? 186)
   || ((192 <=? n) && (n <=? 214)) || ((216 <=? n) && (n <=? 246))
   || ((248 <=? n) && (n <=? 255)))%nat.

(** [c.isalnum()]: a letter, a digit or one of the three vulgar
    fractions, which are numeric. *)
Definition py_isalnum (c : ascii) : bool :=
  py_isalpha c || py_isdigit c
  || ((188 <=? nat_of_ascii c) && (nat_of_ascii c <=? 190))%nat.

(** [s[a:b]] for [0 <= a]. *)
Definition slice (s : string) (a b : nat) : string := String.substring a (b - a) s.

(** [s[a:]]. *)
Definition slice_from (s : string) (a : nat) : string :=
  String.substring a (String.length s - a) s.

Fixpoint lstrip (s : string) : string :=
  match s with
  | String c s' => if py_isspace c then lstrip s' else s
  | EmptyString => EmptyString
  end.

Fixpoint rstrip (s : string) : string :=
  match s with
  | String c s' =>
      match rstrip s' with
      | EmptyString => if py_isspace c then EmptyString else String c EmptyString
      | r => String c r
      end
  | EmptyString => EmptyString
  end.

Definition strip (s : string) : string := rstrip (lstrip s).

Fixpoint startswith (s p : string) {struct p} : bool :=
  match p, s with
  | EmptyString, _ => true
  | String a p', String b s' => Ascii.eqb a b && startswith s' p'
  | String _ _, EmptyString => false
  end.

(** [needle in s]. *)
Fixpoint contains (needle s : string) : bool :=
  startswith s needle ||
  match s with
  | String _ s' => contains needle s'
  | EmptyString => false
  end.

(** [s.endswith(':')]. *)
Fixpoint endswith_colon (s : string) : bool :=
  match s with
  | EmptyString => false
  | String c EmptyString => Ascii.eqb c ":"
  | String _ s' => endswith_colon s'
  end.

(** [s[:-1]]. *)
Fixpoint drop_last (s : string) : string :=
  match s with
  | EmptyString => EmptyString
  | String _ EmptyString => EmptyString
  | String c s' => String c (drop_last s')
  end.

(** [code.split('\n')]. *)
Fixpoint split_lines (code : string) : list string :=
  match code with
  | EmptyString => [EmptyString]
  | String c rest =>
      if Ascii.eqb c nl then EmptyString :: split_lines rest
      else match split_lines rest with
           | l :: ls => String c l :: ls
           | [] => [String c EmptyString]
           end
  end.

(** ["\n".join(chunks)]. *)
Fixpoint join_lines (chunks : list string) : string :=
  match chunks with
  | [] => EmptyString
  | [c] => c
  | c :: cs => c +:+ nls +:+ join_lines cs
  end.

(** [i < len(s) and p(s[i])]. *)
Definition test_at (p : ascii → bool) (s : string) (i : nat) : bool :=
  match String.get i s with
  | Some c => p c
  | None => false
  end.

Definition digit_val (c : ascii) : Z := Z.of_nat (nat_of_ascii c - 48).

(** The default of [sys.int_info.default_max_str_digits]. *)
Definition int_max_str_digits : nat := 4300.

(** The digits of a text, which the bound of [int] counts: underscores do
    not count, zeros before the number do. *)
Fixpoint count_digits (s : string) : nat :=
  match s with
  | EmptyString => 0
  | String c s' => (if py_isdecimal c then 1 else 0) + count_digits s'
  end.

(** The syntax of [int(s)] on a run of identifier characters: decimal
    digits, where single underscores may separate digits. *)
Fixpoint py_int_go (s : string) (acc : Z) (after_digit : bool) : option Z :=
  match s with
  | EmptyString => if after_digit then Some acc else None
  | String c s' =>
      if py_isdecimal c then py_int_go s' (10 * acc + digit_val c)%Z true
      else if Ascii.eqb c "_" && after_digit then
        match s' with
        | EmptyString => None
        | _ => py_int_go s' acc false
        end
      else None
  end.

(** [int(s)] on a run of identifier characters; [None] is a [ValueError],
    raised for a text that is no decimal number and for a text of more
    than [int_max_str_digits] digits. *)
Definition py_int (s : string) : option Z :=
  if int_max_str_digits <? count_digits s then None else py_int_go s 0%Z false.

(** ** Tokens *)

Inductive TokenType :=
| COMMENT | IRONMAN | BATMAN | SUPERMAN | WONDERWOMAN | FLASH | SPIDERMAN
| THOR | THORNUM | HULK | DOCTORSTRANGE | BLACKPANTHER | CAPTAINAMERICA
| VISION | STARLORD | DEADPOOL | LOKI | FALCON | HAWKEYE | THANOS
| ADD | SUB | IDENTIFIER | STRING | NUMBER | OPERATOR | EMPTY | INTO
| CELL_REF.

Global Instance TokenType_eq_dec : EqDecision TokenType.
Proof. solve_decision. Defined.

(** [indentation] is an attribute the lexer sets on the first token of a
    line only; everywhere else it is missing. *)
Record Token := mkToken {
  type : TokenType;
  value : pyval;
  line_number : nat;
  indentation : option nat
}.

Definition new_token (ty : TokenType) (v : pyval) (line_num : nat) : Token :=
  mkToken ty v line_num None.

Definition set_indentation (t : Token) (n : nat) : Token :=
  mkToken (type t) (value t) (line_number t) (Some n).

Definition is_type (ty : TokenType) (t : Token) : bool :=
  bool_decide (type t = ty).

(** ** Lexer *)

Module SuperHeroLexer.

Definition keywords : list (string * TokenType) :=
  [ ("ironman", IRONMAN); ("batman", BATMAN); ("superman", SUPERMAN);
    ("wonderwoman", WONDERWOMAN); ("flash", FLASH); ("spiderman", SPIDERMAN);
    ("thor", THOR); ("thornum", THORNUM); ("hulk", HULK);
    ("doctorstrange", DOCTORSTRANGE); ("blackpanther", BLACKPANTHER);
    ("captainamerica", CAPTAINAMERICA); ("vision", VISION);
    ("starlord", STARLORD); ("deadpool", DEADPOOL); ("loki", LOKI);
    ("falcon", FALCON); ("hawkeye", HAWKEYE); ("thanos", THANOS);
    ("add", ADD); ("sub", SUB); ("into", INTO); ("empty", EMPTY) ].

Definition operators : list (string * string) :=
  [ (">", ">"); ("<", "<"); ("=", "=="); ("==", "=="); ("!=", "!=");
    (">=", ">="); ("<=", "<=") ].

Fixpoint dict_lookup {V} (d : list (string * V)) (k : string) : option V :=
  match d with
  | [] => None
  | (k', v) :: d' => if String.eqb k' k then Some v else dict_lookup d' k
  end.

(** State of the scan of one line: the index [i] and [line_tokens]. *)
Definition line_state : Type := nat * list Token.

Section Line.
Variable line : string.
Variable line_num : nat.

Definition line_len : nat := String.length line.

(** The scan for the closing quote, stepping over a backslash escape. *)
Definition string_cond (i : nat) : bool :=
  test_at (fun c => negb (Ascii.eqb c dq)) line i.

Definition string_body (i : nat) : result nat :=
  if test_at (fun c => Ascii.eqb c backslash) line i && (i + 1 <? line_len)
  then Ok (i + 2)
  else Ok (i + 1).

Definition digit_cond (i : nat) : bool := test_at py_isdigit line i.

Definition ident_char (c : ascii) : bool :=
  py_isalnum c || Ascii.eqb c "_" || Ascii.eqb c "#".

Definition ident_cond (i : nat) : bool := test_at ident_char line i.

Definition next_index (i : nat) : result nat := Ok (i + 1).

Definition is_operator_char (c : ascii) : bool :=
  Ascii.eqb c "<" || Ascii.eqb c ">" || Ascii.eqb c "=" || Ascii.eqb c "!".

(** One iteration of [while i < len(line)]. *)
Definition scan_body (st : line_state) : result line_state :=
  let '(i, line_tokens) := st in
  match String.get i line with
  | None => Err (PyRaise "IndexError")
  | Some char =>
      if py_isspace char then Ok (i + 1, line_tokens)
      else if Ascii.eqb char dq then
        let start := i in
        i ← while string_cond string_body line_len (i + 1);
        if i <? line_len then
          let string_value := slice line (start + 1) i in
          Ok (i + 1, line_tokens ++ [new_token STRING (PStr string_value) line_num])
        else Err (UnclosedString line_num)
      else if py_isdigit char then
        let start := i in
        i ← while digit_cond next_index line_len i;
        match py_int (slice line start i) with
        | Some num_value =>
            Ok (i, line_tokens ++ [new_token NUMBER (PInt num_value) line_num])
        | None => Err (PyRaise "ValueError")
        end
      else if py_isalpha char || Ascii.eqb char "_" || Ascii.eqb char "#" then
        let start := i in
        i ← while ident_cond next_index line_len i;
        let word := slice line start i in
        if startswith word "#" then
          match py_int (slice_from word 1) with
          | Some cell_num =>
              Ok (i, line_tokens ++ [new_token CELL_REF (PInt cell_num) line_num])
          | None => Err (InvalidCellRef word line_num)
          end
        else match dict_lookup keywords word with
             | Some ty => Ok (i, line_tokens ++ [new_token ty (PStr word) line_num])
             | None => Ok (i, line_tokens ++ [new_token IDENTIFIER (PStr word) line_num])
             end
      else if is_operator_char char then
        let start := i in
        let i := i + 1 in
        let i := if test_at (fun c => Ascii.eqb c "=") line i then i + 1 else i in
        let op := slice line start i in
        match dict_lookup operators op with
        | Some norm => Ok (i, line_tokens ++ [new_token OPERATOR (PStr norm) line_num])
        | None => Err (InvalidOperator op line_num)
        end
      else if Ascii.eqb char ":" then
        Ok (i + 1, line_tokens ++ [new_token IDENTIFIER (PStr ":") line_num])
      else Ok (i + 1, line_tokens)
  end.

Definition scan_cond (st : line_state) : bool := fst st <? line_len.

(** The tokens of a line that is neither blank nor a comment. *)
Definition scan_line : result (list Token) :=
  let indentation := line_len - String.length (lstrip line) in
  '(_, line_tokens) ← while scan_cond scan_body line_len (indentation, []);
  match line_tokens with
  | [] => Ok []
  | t :: ts => Ok (set_indentation t (indentation / 4) :: ts)
  end.
End Line.

(** State of the loop over the lines: [multiline_comment] and [tokens]. *)
Definition lex_state : Type := bool * list Token.

(** One iteration of [for line_num, line in enumerate(lines, 1)]. *)
Definition lex_line (line_num : nat) (line : string) (st : lex_state)
  : result lex_state :=
  let '(multiline_comment, tokens) := st in
  if String.eqb (strip line) EmptyString then Ok st
  else if multiline_comment then
    if contains "*heroes" line then Ok (false, tokens) else Ok st
  else if contains "heroes*" line && negb (contains "*heroes" line) then
    Ok (true, tokens)
  else if startswith (strip line) "hero>" then Ok st
  else
    line_tokens ← scan_line line line_num;
    Ok (multiline_comment, tokens ++ line_tokens).

Fixpoint lex_lines (lines : list string) (line_num : nat) (st : lex_state)
  : result lex_state :=
  match lines with
  | [] => Ok st
  | line :: rest =>
      st' ← lex_line line_num line st;
      lex_lines rest (Datatypes.S line_num) st'
  end.

Definition tokenize_lines (lines : list string) : result (list Token) :=
  st ← lex_lines lines 1 (false, []); Ok (snd st).

Definition tokenize (code : string) : result (list Token) :=
  tokenize_lines (split_lines code).

End SuperHeroLexer.

(** ** Parser *)

(** An instruction, as the dictionary [parse_statement] returns: one case
    per value of its [type] key, holding the other keys. *)
Inductive node :=
| Ironman | Batman | Superman | Wonderwoman | Thor | Thornum
| Hulk (args : list pyval)
| Doctorstrange (name size : pyval)
| Blackpanther (target content : pyval)
| Captainamerica (target : pyval)
| Starlord (text : pyval)
| Deadpool | Loki
| Falcon (name : pyval)
| Hawkeye (target : pyval)
| Spiderman (target left op right : pyval)
| Add (left right : pyval) (left_is_cell right_is_cell : bool)
| Sub (left right : pyval) (left_is_cell right_is_cell : bool)
| Thanos
| FlashCall (name : pyval).

(** A Python [dict] in insertion order: assigning to a key that is present
    replaces its value in place, assigning to a new key appends it. *)
Fixpoint dict_set {K V} `{EqDecision K} (d : list (K * V)) (k : K) (v : V)
  : list (K * V) :=
  match d with
  | [] => [(k, v)]
  | (k', v') :: d' =>
      if decide (k' = k) then (k, v) :: d' else (k', v') :: dict_set d' k v
  end.

Fixpoint dict_get {K V} `{EqDecision K} (d : list (K * V)) (k : K) : option V :=
  match d with
  | [] => None
  | (k', v') :: d' => if decide (k' = k) then Some v' else dict_get d' k
  end.

Module SuperHeroParser.

(** The tables of the parser object. *)
Record tables := mkTables {
  labels : gset string;
  flashes : gmap string (list Token);
  doctorstranges : list (pyval * pyval)
}.

Definition init_tables : tables := mkTables ∅ ∅ [].

(** [name.endswith(':')] and [name[:-1]] on a token value; only a [str] has
    the method. *)
Definition strip_colon (v : pyval) : result string :=
  match v with
  | PStr s => Ok (if endswith_colon s then drop_last s else s)
  | _ => Err (PyRaise "AttributeError")
  end.

Section Tokens.
Variable tokens : list Token.

Definition has_type (ty : TokenType) (i : nat) : bool :=
  match tokens !! i with
  | Some t => is_type ty t
  | None => false
  end.

(** *** First pass *)

(** State of the scan: the index [i] and the tables. *)
Definition fp_state : Type := nat * tables.

(** [getattr(token, 'indentation', 0)]. *)
Definition get_indentation (t : Token) : nat := default 0 (indentation t).

Definition flash_cond (st : nat * list Token) : bool :=
  match tokens !! fst st with
  | Some t =>
      negb ((is_type FALCON t || is_type FLASH t) && (get_indentation t =? 0))
  | None => false
  end.

Definition flash_body (st : nat * list Token) : result (nat * list Token) :=
  let '(i, body) := st in
  match tokens !! i with
  | Some t => Ok (i + 1, body ++ [t])
  | None => Err (PyRaise "IndexError")
  end.

(** One iteration of [while i < len(self.tokens)]. *)
Definition first_pass_body (st : fp_state) : result fp_state :=
  let '(i, tb) := st in
  match tokens !! i with
  | None => Err (PyRaise "IndexError")
  | Some token =>
      if is_type FALCON token then
        labels' ←
          (if has_type IDENTIFIER (i + 1) then
             match tokens !! (i + 1) with
             | Some t1 =>
                 label_name ← strip_colon (value t1);
                 Ok ({[label_name]} ∪ labels tb)
             | None => Err (PyRaise "IndexError")
             end
           else Ok (labels tb));
        let i := i + 2 in
        Ok (i + 1, mkTables labels' (flashes tb) (doctorstranges tb))
      else if is_type FLASH token then
        if has_type IDENTIFIER (i + 1) then
          match tokens !! (i + 1) with
          | Some t1 =>
              flash_name ← strip_colon (value t1);
              let i := i + 2 in
              '(i, body) ← while flash_cond flash_body (length tokens) (i, []);
              Ok (i, mkTables (labels tb) (<[flash_name := body]> (flashes tb))
                       (doctorstranges tb))
          | None => Err (PyRaise "IndexError")
          end
        else Ok (i + 1, tb)
      else if is_type DOCTORSTRANGE token then
        if i + 1 <? length tokens then
          let size := PNone in
          let name := PNone in
          let '(size, name) :=
            match tokens !! (i + 1) with
            | Some t1 =>
                if is_type NUMBER t1 then
                  let size := value t1 in
                  match tokens !! (i + 2) with
                  | Some t2 =>
                      if is_type IDENTIFIER t2 then (size, value t2)
                      else (size, name)
                  | None => (size, name)
                  end
                else if is_type IDENTIFIER t1 then (size, value t1)
                else (size, name)
            | None => (size, name)
            end in
          if py_truthy name then
            Ok (i + 1, mkTables (labels tb) (flashes tb)
                         (dict_set (doctorstranges tb) name size))
          else Ok (i + 1, tb)
        else Ok (i + 1, tb)
      else Ok (i + 1, tb)
  end.

Definition first_pass_cond (st : fp_state) : bool := fst st <? length tokens.

Definition first_pass : result tables :=
  st ← while first_pass_cond first_pass_body (length tokens) (0, init_tables);
  Ok (snd st).

(** *** Second pass *)

Definition is_at_end (current : nat) : bool := length tokens <=? current.

(** [self.previous()], with Python's index [-1] when [current] is [0]. *)
Definition previous (current : nat) : result Token :=
  let t := match current with
           | O => last tokens
           | S c => tokens !! c
           end in
  match t with
  | Some t => Ok t
  | None => Err (PyRaise "IndexError")
  end.

(** [self.advance()]: the token returned and the new [current]. *)
Definition advance (current : nat) : result (Token * nat) :=
  let current := if is_at_end current then current else current + 1 in
  t ← previous current;
  Ok (t, current).

(** [not self.is_at_end() and self.peek().type == ty]. *)
Definition peek_is (ty : TokenType) (current : nat) : bool :=
  negb (is_at_end current) && has_type ty current.

(** [x = self.advance().value] when the current token has type [ty]. *)
Definition take (ty : TokenType) (x : pyval) (current : nat)
  : result (pyval * nat) :=
  if peek_is ty current then
    '(t, current) ← advance current; Ok (value t, current)
  else Ok (x, current).

Section Statement.
Variable flashes_tb : gmap string (list Token).

Definition in_flashes (name : pyval) : bool :=
  match name with
  | PStr s => bool_decide (is_Some (flashes_tb !! s))
  | _ => false
  end.

Definition parse_arith (mk : pyval → pyval → bool → bool → node)
    (current : nat) : result (option node * nat) :=
  '(_, current) ← advance current;
  '(left_, left_is_cell, current) ←
    (if is_at_end current then Ok (PNone, false, current)
     else if has_type VISION current then
       '(_, current) ← advance current; Ok (PStr "vision", false, current)
     else if has_type NUMBER current then
       '(t, current) ← advance current; Ok (value t, false, current)
     else if has_type CELL_REF current then
       '(t, current) ← advance current; Ok (value t, true, current)
     else Ok (PNone, false, current));
  '(right_, right_is_cell, current) ←
    (if is_at_end current then Ok (PNone, false, current)
     else if has_type NUMBER current then
       '(t, current) ← advance current; Ok (value t, false, current)
     else if has_type VISION current then
       '(_, current) ← advance current; Ok (PStr "vision", false, current)
     else if has_type CELL_REF current then
       '(t, current) ← advance current; Ok (value t, true, current)
     else Ok (PNone, false, current));
  Ok (Some (mk left_ right_ left_is_cell right_is_cell), current).

Definition parse_statement (current : nat) : result (option node * nat) :=
  match tokens !! current with
  | None => Ok (None, current)
  | Some token =>
      match type token with
      | IRONMAN => '(_, current) ← advance current; Ok (Some Ironman, current)
      | BATMAN => '(_, current) ← advance current; Ok (Some Batman, current)
      | SUPERMAN => '(_, current) ← advance current; Ok (Some Superman, current)
      | WONDERWOMAN =>
          '(_, current) ← advance current; Ok (Some Wonderwoman, current)
      | THOR => '(_, current) ← advance current; Ok (Some Thor, current)
      | THORNUM => '(_, current) ← advance current; Ok (Some Thornum, current)
      | HULK =>
          '(_, current) ← advance current;
          if peek_is STRING current || peek_is NUMBER current then
            '(t, current) ← advance current;
            Ok (Some (Hulk [value t]), current)
          else Ok (Some (Hulk []), current)
      | DOCTORSTRANGE =>
          '(_, current) ← advance current;
          '(size, current) ← take NUMBER PNone current;
          if peek_is IDENTIFIER current then
            '(t, current) ← advance current;
            Ok (Some (Doctorstrange (value t) size), current)
          else Err (ExpectedArrayName (line_number token))
      | BLACKPANTHER =>
          '(_, current) ← advance current;
          '(target, current) ←
            (if peek_is INTO current then
               '(_, current) ← advance current;
               if is_at_end current then Ok (PNone, current)
               else if has_type IDENTIFIER current then
                 '(t, current) ← advance current; Ok (value t, current)
               else if has_type NUMBER current then
                 '(t, current) ← advance current; Ok (value t, current)
               else Ok (PNone, current)
             else Ok (PNone, current));
          '(content, current) ← take STRING PNone current;
          Ok (Some (Blackpanther target content), current)
      | CAPTAINAMERICA =>
          '(_, current) ← advance current;
          '(target, current) ← take IDENTIFIER PNone current;
          Ok (Some (Captainamerica target), current)
      | STARLORD =>
          '(_, current) ← advance current;
          if peek_is STRING current then
            '(t, current) ← advance current;
            Ok (Some (Starlord (value t)), current)
          else Err (ExpectedString (line_number token))
      | DEADPOOL => '(_, current) ← advance current; Ok (Some Deadpool, current)
      | LOKI => '(_, current) ← advance current; Ok (Some Loki, current)
      | FALCON =>
          '(_, current) ← advance current;
          if peek_is IDENTIFIER current then
            '(t, current) ← advance current;
            name ← strip_colon (value t);
            Ok (Some (Falcon (PStr name)), current)
          else Ok (Some (Falcon PNone), current)
      | HAWKEYE =>
          '(_, current) ← advance current;
          '(target, current) ← take IDENTIFIER PNone current;
          Ok (Some (Hawkeye target), current)
      | SPIDERMAN =>
          '(_, current) ← advance current;
          '(target, current) ← take IDENTIFIER PNone current;
          '(left_, current) ←
            (if is_at_end current then Ok (PNone, current)
             else if has_type VISION current then
               '(_, current) ← advance current; Ok (PStr "vision", current)
             else if has_type NUMBER current then
               '(t, current) ← advance current; Ok (value t, current)
             else Ok (PNone, current));
          '(op, current) ← take OPERATOR PNone current;
          '(right_, current) ←
            (if is_at_end current then Ok (PNone, current)
             else if has_type EMPTY current then
               '(_, current) ← advance current; Ok (PStr "empty", current)
             else if has_type NUMBER current then
               '(t, current) ← advance current; Ok (value t, current)
             else if has_type VISION current then
               '(_, current) ← advance current; Ok (PStr "vision", current)
             else Ok (PNone, current));
          Ok (Some (Spiderman target left_ op right_), current)
      | ADD => parse_arith Add current
      | SUB => parse_arith Sub current
      | THANOS => '(_, current) ← advance current; Ok (Some Thanos, current)
      | IDENTIFIER =>
          '(t, current) ← advance current;
          let name := value t in
          if in_flashes name then Ok (Some (FlashCall name), current)
          else Ok (None, current)
      | _ => '(_, current) ← advance current; Ok (None, current)
      end
  end.

(** State of the loop of [parse]: [self.current] and [code_blocks]. *)
Definition parse_state : Type := nat * list node.

Definition parse_cond (st : parse_state) : bool := negb (is_at_end (fst st)).

Definition parse_body (st : parse_state) : result parse_state :=
  let '(current, code_blocks) := st in
  '(statement, current) ← parse_statement current;
  match statement with
  | Some statement => Ok (current, code_blocks ++ [statement])
  | None => Ok (current, code_blocks)
  end.
End Statement.

(** [parse]: the instruction list, with the tables it leaves on the
    parser object. *)
Definition parse : result (list node * tables) :=
  tb ← first_pass;
  st ← while parse_cond (parse_body (flashes tb)) (length tokens) (0, []);
  Ok (snd st, tb).
End Tokens.

End SuperHeroParser.

(** ** Code generator *)

Module CodeGenerator.

(** The fixed text of the generated C program. *)

Definition c_headers : string :=
  join_lines [
    EmptyString;
    "#include <stdio.h>";
    "#include <stdlib.h>";
    "#include <string.h>";
    EmptyString ].

Definition c_windows_headers : string :=
  join_lines [
    EmptyString;
    "#include <windows.h>";
    "#define sleep(x) Sleep((x) * 1000)";
    EmptyString ].

Definition c_unix_headers : string :=
  join_lines [
    EmptyString;
    "#include <unistd.h>";
    EmptyString ].

Definition c_globals : string :=
  join_lines [
    EmptyString;
    "#include <stdint.h>";
    EmptyString;
    "#define TAPE_SIZE 30000";
    "#define MAX_INPUT 1024";
    EmptyString;
    "// Globals";
    "uint8_t tape[TAPE_SIZE] = {0};";
    "int ptr = 0;";
    "char input_buffer[MAX_INPUT];";
    EmptyString;
    "// Forward declarations";
    "void thor();";
    "void hulk(int direct_val, char direct_char);";
    EmptyString ].

Definition c_helpers : string :=
  join_lines [
    EmptyString;
    "// Helper functions";
    "void thor() {";
    "    printf(" +:+ dqs +:+ "%c" +:+ bss +:+ "n" +:+ dqs +:+ ", tape[ptr]);";
    "}";
    EmptyString;
    "void thornum() {";
    "    printf(" +:+ dqs +:+ "%d" +:+ bss +:+ "n" +:+ dqs +:+ ", tape[ptr]);";
    "}";
    EmptyString;
    "void hulk(int direct_val, char direct_char) {";
    "    if (direct_val != -1) {";
    "        tape[ptr] = direct_val;";
    "        return;";
    "    }";
    "    ";
    "    if (direct_char != 0) {";
    "        tape[ptr] = direct_char;";
    "        return;";
    "    }";
    "    ";
    "    printf(" +:+ dqs +:+ "Hulk smash input: " +:+ dqs +:+ ");";
    "    fflush(stdout);";
    "    ";
    "    int ch = getchar();";
    "    if (ch == EOF || ch == '" +:+ bss +:+ "n') {";
    "        tape[ptr] = 0;  // Set to empty on EOF or newline";
    "    } else {";
    "        tape[ptr] = ch;";
    "        // Eat up rest of the line";
    "        while ((ch = getchar()) != '" +:+ bss +:+ "n' && ch != EOF);";
    "    }";
    "}";
    EmptyString;
    "void blackpanther(uint8_t *target, const char *content) {";
    "    if (content != NULL) {";
    "        // Direct content provided";
    "        int i = 0;";
    "        while (content[i] != '" +:+ bss +:+ "0') {";
    "            target[i] = content[i];";
    "            i++;";
    "        }";
    "        target[i] = 0;  // Null-terminate";
    "    } else {";
    "        // User input";
    "        printf(" +:+ dqs +:+ "Wakanda forever: " +:+ dqs +:+ ");";
    "        fflush(stdout);";
    "        ";
    "        fgets(input_buffer, MAX_INPUT, stdin);";
    "        size_t len = strlen(input_buffer);";
    "        ";
    "        // Remove trailing newline if present";
    "        if (len > 0 && input_buffer[len-1] == '" +:+ bss +:+ "n') {";
    "            input_buffer[len-1] = '" +:+ bss +:+ "0';";
    "            len--;";
    "        }";
    "        ";
    "        // Copy to target";
    "        for (size_t i = 0; i < len; i++) {";
    "            target[i] = input_buffer[i];";
    "        }";
    "        target[len] = 0;  // Null-terminate";
    "    }";
    "}";
    EmptyString;
    "void captainamerica(uint8_t *source) {";
    "    int i = 0;";
    "    while (source[i] != 0) {";
    "        putchar(source[i]);";
    "        i++;";
    "    }";
    "    printf(" +:+ dqs +:+ bss +:+ "n" +:+ dqs +:+ ");";
    "}";
    EmptyString;
    "int main() {";
    EmptyString ].

Definition c_epilogue : string :=
  join_lines [
    "    return 0;";
    "}" ].

(** [size if size is not None else 1024]. *)
Definition size_val (size : pyval) : pyval :=
  match size with
  | PNone => PInt 1024
  | _ => size
  end.

(** The declaration of the buffer of one array. *)
Definition array_decl (entry : pyval * pyval) : string :=
  let '(name, size) := entry in
  "uint8_t doctorstrange_" +:+ py_str name +:+ "[" +:+ py_str (size_val size)
    +:+ "] = {0};".

Fixpoint repeat_str (s : string) (n : nat) : string :=
  match n with
  | O => EmptyString
  | S n' => s +:+ repeat_str s n'
  end.

Section Generator.
(** [os.name == 'nt']. *)
Variable nt : bool.
Variable doctorstranges : list (pyval * pyval).

Definition in_doctorstranges (target : pyval) : bool :=
  bool_decide (is_Some (dict_get doctorstranges target)).

Definition indent (indent_level : nat) : string := repeat_str "    " indent_level.

Definition vision_or (f : pyval → string) (v : pyval) : string :=
  if decide (v = PStr "vision") then "tape[ptr]" else f v.

Definition tape_at (v : pyval) : string := "tape[" +:+ py_str v +:+ "]".

(** The left and right operands of [add] and [sub]. *)
Definition arith_left (left_ : pyval) (left_is_cell : bool) : string :=
  if decide (left_ = PStr "vision") then "tape[ptr]"
  else if left_is_cell then tape_at left_
  else tape_at left_.

Definition arith_right (right_ : pyval) (right_is_cell : bool) : string :=
  if decide (right_ = PStr "vision") then "tape[ptr]"
  else if right_is_cell then tape_at right_
  else py_str right_.

(** [generate_node]: the lines it appends to [self.code]. *)
Definition generate_node (indent_level : nat) (n : node) : list string :=
  let ind := indent indent_level in
  match n with
  | Ironman => [ind +:+ "tape[ptr]++;"]
  | Batman => [ind +:+ "tape[ptr]--;"]
  | Superman => [ind +:+ "ptr++;"]
  | Wonderwoman => [ind +:+ "ptr--;"]
  | Hulk args =>
      match args with
      | PInt n :: _ => [ind +:+ "hulk(" +:+ pretty n +:+ ", 0);"]
      | PStr s :: _ => [ind +:+ "hulk(-1, '" +:+ s +:+ "');"]
      | _ => [ind +:+ "hulk(-1, 0);"]
      end
  | Thor => [ind +:+ "thor();"]
  | Thornum => [ind +:+ "thornum();"]
  | Starlord text =>
      [ind +:+ "printf(" +:+ dqs +:+ py_str text +:+ bss +:+ "n" +:+ dqs +:+ ");"]
  | Deadpool => [ind +:+ "ptr = 0;"]
  | Loki =>
      [ind +:+ "tape[ptr] = 0;";
       ind +:+ "printf(" +:+ dqs +:+ "Loki cleared cell %d" +:+ bss +:+ "n" +:+ dqs
         +:+ ", ptr);"]
  | Falcon name =>
      [slice ind 0 (String.length ind - 4) +:+ py_str name +:+ ":"]
  | Hawkeye target => [ind +:+ "goto " +:+ py_str target +:+ ";"]
  | Spiderman target left_ op right_ =>
      let left_expr := vision_or py_str left_ in
      let right_expr :=
        if decide (right_ = PStr "empty") then "0"
        else if decide (right_ = PStr "vision") then "tape[ptr]"
        else py_str right_ in
      [ind +:+ "if (" +:+ left_expr +:+ " " +:+ py_str op +:+ " " +:+ right_expr
         +:+ ") {";
       ind +:+ "    goto " +:+ py_str target +:+ ";";
       ind +:+ "}"]
  | Add left_ right_ left_is_cell right_is_cell =>
      [ind +:+ arith_left left_ left_is_cell +:+ " += "
         +:+ arith_right right_ right_is_cell +:+ ";"]
  | Sub left_ right_ left_is_cell right_is_cell =>
      [ind +:+ arith_left left_ left_is_cell +:+ " -= "
         +:+ arith_right right_ right_is_cell +:+ ";"]
  | Doctorstrange _ _ => []
  | Blackpanther target content =>
      let target_expr :=
        match target with
        | PNone => "tape + ptr"
        | PStr _ =>
            if in_doctorstranges target then "doctorstrange_" +:+ py_str target
            else "tape + " +:+ py_str target
        | PInt _ => "tape + " +:+ py_str target
        end in
      let content_expr :=
        match content with
        | PNone => "NULL"
        | _ => dqs +:+ py_str content +:+ dqs
        end in
      [ind +:+ "blackpanther(" +:+ target_expr +:+ ", " +:+ content_expr +:+ ");"]
  | Captainamerica target =>
      let source_expr :=
        match target with
        | PNone => "tape + ptr"
        | _ =>
            if in_doctorstranges target then "doctorstrange_" +:+ py_str target
            else "tape + ptr"
        end in
      [ind +:+ "captainamerica(" +:+ source_expr +:+ ");"]
  | FlashCall name => [ind +:+ "// Flash loop: " +:+ py_str name]
  | Thanos =>
      [ind +:+ "printf(" +:+ dqs +:+ "Thanos snapped his fingers..." +:+ bss +:+ "n"
         +:+ dqs +:+ ");";
       ind +:+ "return 0;"]
  end.

(** [self.code] after the loop over [self.doctorstranges.items()]. *)
Definition declare_arrays (code : list string) : list string :=
  fold_left (fun code entry => code ++ [array_decl entry]) doctorstranges code.

(** [self.code] after the loop over [self.ast], at [indent_level] 1. *)
Definition generate_nodes (ast : list node) (code : list string) : list string :=
  fold_left (fun code n => code ++ generate_node 1 n) ast code.

(** [self.code] at the end of [generate]. *)
Definition generate_code (ast : list node) : list string :=
  let code := [c_headers] in
  let code := code ++ [if nt then c_windows_headers else c_unix_headers] in
  let code := code ++ [c_globals] in
  let code := declare_arrays code in
  let code := code ++ [c_helpers] in
  let code := generate_nodes ast code in
  code ++ [c_epilogue].

Definition generate (ast : list node) : string := join_lines (generate_code ast).
End Generator.

End CodeGenerator.

(** The translation of [compile_superhero] from the source text to the C
    text handed to the C compiler. *)
Definition compile_to_c (nt : bool) (source_code : string) : result string :=
  tokens ← SuperHeroLexer.tokenize source_code;
  '(ast, tb) ← SuperHeroParser.parse tokens;
  Ok (CodeGenerator.generate nt (SuperHeroParser.doctorstranges tb) ast).

(** * Vocabulary of the properties *)

Module Vocabulary.
Import SuperHeroLexer SuperHeroParser CodeGenerator.

(** ** Generated lines *)

(** A line of generated C that opens a conditional statement. *)
Definition is_conditional (line : string) : bool := startswith (lstrip line) "if (".

Definition emits_conditional (lines : list string) : bool :=
  existsb is_conditional lines.

(** The declaration of a buffer of capacity [capacity] for the array
    [name]. *)
Definition buffer_decl (name : pyval) (capacity : Z) : string :=
  "uint8_t doctorstrange_" +:+ py_str name +:+ "[" +:+ pretty capacity +:+ "] = {0};".

(** The text of an operand of a conditional jump: the cell under the
    cursor for the marker of the current cell, on the right also the
    literal 0 for the marker of zero, and [str] of the operand otherwise. *)
Definition operand_text (v : pyval) : string :=
  if decide (v = PStr "vision") then "tape[ptr]" else py_str v.
Definition right_operand_text (v : pyval) : string :=
  if decide (v = PStr "empty") then "0" else operand_text v.

(** The label statement and the jump statement of the generated C. *)
Definition label_line (name : string) : string := name +:+ ":".
Definition goto_line (target : string) : string := "    goto " +:+ target +:+ ";".

(** ** Tokens *)

Definition op_token (spelling : string) : Token :=
  mkToken OPERATOR (PStr spelling) 1 (Some 0).


(** ** String literals *)







Section Tokens.
Variable tokens : list Token.

(** [array_decl_at i name size]: at index [i] stands an array declaration
    of [name], with the explicit size [size] if any. *)
Inductive array_decl_at (i : nat) : pyval → option Z → Prop :=
| sized_decl t t1 t2 n :
    tokens !! i = Some t → type t = DOCTORSTRANGE →
    tokens !! (i + 1) = Some t1 → type t1 = NUMBER → value t1 = PInt n →
    tokens !! (i + 2) = Some t2 → type t2 = IDENTIFIER →
    array_decl_at i (value t2) (Some n)
| unsized_decl t t1 :
    tokens !! i = Some t → type t = DOCTORSTRANGE →
    tokens !! (i + 1) = Some t1 → type t1 = IDENTIFIER →
    array_decl_at i (value t1) None.

(** [array_named_at j name]: at index [j] stands an array declaration, with
    or without size, of [name]. *)
Inductive array_named_at (j : nat) (name : pyval) : Prop :=
| named_sized t t1 t2 :
    tokens !! j = Some t → type t = DOCTORSTRANGE →
    tokens !! (j + 1) = Some t1 → type t1 = NUMBER →
    tokens !! (j + 2) = Some t2 → type t2 = IDENTIFIER → value t2 = name →
    array_named_at j name
| named_unsized t t1 :
    tokens !! j = Some t → type t = DOCTORSTRANGE →
    tokens !! (j + 1) = Some t1 → type t1 = IDENTIFIER → value t1 = name →
    array_named_at j name.

(** The size an entry of the table holds for a declaration. *)
Definition size_entry (size : option Z) : pyval :=
  match size with
  | Some n => PInt n
  | None => PNone
  end.

(** [label_def_at p name]: at index [p] stands the definition of the label
    [name], the identifier after the keyword without its trailing colon. *)
Inductive label_def_at (p : nat) (name : string) : Prop :=
| label_def t t1 :
    tokens !! p = Some t → type t = FALCON →
    tokens !! (p + 1) = Some t1 → type t1 = IDENTIFIER →
    strip_colon (value t1) = Ok name →
    label_def_at p name.

(** [jump_at q target]: at index [q] stands a jump to [target]. *)
Inductive jump_at (q : nat) (target : string) : Prop :=
| jump t t1 :
    tokens !! q = Some t → type t = HAWKEYE →
    tokens !! (q + 1) = Some t1 → type t1 = IDENTIFIER →
    value t1 = PStr target →
    jump_at q target.

End Tokens.

(** ** Programs *)

(** The tokens of the two lines [falcon a] and [falcon b]. *)
Definition two_labels : list Token :=
  [ mkToken FALCON (PStr "falcon") 1 (Some 0);
    mkToken IDENTIFIER (PStr "a") 1 None;
    mkToken FALCON (PStr "falcon") 2 (Some 0);
    mkToken IDENTIFIER (PStr "b") 2 None ].

(** The tokens of the two lines [doctorstrange 5 a] and [doctorstrange a]. *)
Definition redeclared : list Token :=
  [ mkToken DOCTORSTRANGE (PStr "doctorstrange") 1 (Some 0);
    mkToken NUMBER (PInt 5) 1 None;
    mkToken IDENTIFIER (PStr "a") 1 None;
    mkToken DOCTORSTRANGE (PStr "doctorstrange") 2 (Some 0);
    mkToken IDENTIFIER (PStr "a") 2 None ].

(** The tokens of [doctorstrange 5 a], [doctorstrange b] and a use of [a]. *)
Definition two_arrays : list Token :=
  [ mkToken DOCTORSTRANGE (PStr "doctorstrange") 1 (Some 0);
    mkToken NUMBER (PInt 5) 1 None;
    mkToken IDENTIFIER (PStr "a") 1 None;
    mkToken DOCTORSTRANGE (PStr "doctorstrange") 2 (Some 0);
    mkToken IDENTIFIER (PStr "b") 2 None;
    mkToken CAPTAINAMERICA (PStr "captainamerica") 3 (Some 0);
    mkToken IDENTIFIER (PStr "a") 3 None ].

(** The tokens of [hulk] with the string operand [AB], and with the empty
    string as operand. *)
Definition hulk_two_chars : list Token :=
  [ mkToken HULK (PStr "hulk") 1 (Some 0); mkToken STRING (PStr "AB") 1 None ].
Definition hulk_no_char : list Token :=
  [ mkToken HULK (PStr "hulk") 1 (Some 0);
    mkToken STRING (PStr EmptyString) 1 None ].

(** The tokens of the two lines [falcon loop:] and [hawkeye loop]. *)
Definition loop_tokens : list Token :=
  [ mkToken FALCON (PStr "falcon") 1 (Some 0);
    mkToken IDENTIFIER (PStr "loop") 1 None;
    mkToken IDENTIFIER (PStr ":") 1 None;
    mkToken HAWKEYE (PStr "hawkeye") 2 (Some 0);
    mkToken IDENTIFIER (PStr "loop") 2 None ].

End Vocabulary.

(** * Vocabulary of the invariants *)

Module Invariants.
Import SuperHeroLexer SuperHeroParser CodeGenerator.

(** [string_forall p s]: every character of [s] satisfies [p]. *)
Fixpoint string_forall (p : ascii → bool) (s : string) : bool :=
  match s with
  | EmptyString => true
  | String c s' => p c && string_forall p s'
  end.

(** [is_word w]: [w] is a run of identifier characters that starts with a
    letter or an underscore. *)
Definition is_word (w : string) : bool :=
  match w with
  | String c _ =>
      (py_isalpha c || Ascii.eqb c "_") && string_forall ident_char w
  | EmptyString => false
  end.

(** [is_digits d]: [d] is a non-empty run of digits, decimal or not. *)
Definition is_digits (d : string) : bool :=
  match d with
  | String _ _ => string_forall py_isdigit d
  | EmptyString => false
  end.

(** [is_decimal d]: [d] is a non-empty run of decimal digits. *)
Definition is_decimal (d : string) : bool :=
  match d with
  | String _ _ => string_forall py_isdecimal d
  | EmptyString => false
  end.

(** The normalized spellings of the relational operators. *)
Definition normalized_operators : list string :=
  [">"; "<"; "=="; "!="; ">="; "<="].

(** [token_ok t]: the value of [t] is of the Python type and form that its
    kind promises: a natural number for a number or a cell reference, a
    word or a lone colon for an identifier, a normalized spelling for an
    operator, the keyword itself for a keyword; no token is a [COMMENT]. *)
Definition token_ok (t : Token) : bool :=
  match type t, value t with
  | COMMENT, _ => false
  | (NUMBER | CELL_REF), PInt n => (0 <=? n)%Z
  | (NUMBER | CELL_REF), _ => false
  | STRING, PStr _ => true
  | IDENTIFIER, PStr s => is_word s || String.eqb s ":"
  | OPERATOR, PStr s => bool_decide (s ∈ normalized_operators)
  | kw, PStr s => bool_decide (dict_lookup keywords s = Some kw)
  | _, _ => false
  end.

(** [line_chunks n lines chunks]: [chunks] holds one list of tokens for each
    of [lines], numbered from [n]; the list of a line is empty or is the
    scan of that line alone. *)
Fixpoint line_chunks (n : nat) (lines : list string) (chunks : list (list Token))
  : Prop :=
  match lines, chunks with
  | [], [] => True
  | line :: lines, chunk :: chunks =>
      (chunk = [] ∨ scan_line line n = Ok chunk) ∧ line_chunks (S n) lines chunks
  | _, _ => False
  end.

(** What an iteration of the scan of the line [line_num] appends to
    [line_tokens]. *)
Definition fresh_token (line_num : nat) (t : Token) : Prop :=
  token_ok t = true ∧ line_number t = line_num ∧ indentation t = None.

(** The superscript two, a digit that is not decimal. *)
Definition superscript_two : string := String "178"%char EmptyString.

(** The errors of the lexer, with the line they report. *)
Inductive lexical_error (line_num : nat) : error → Prop :=
| unclosed_string_error : lexical_error line_num (UnclosedString line_num)
| invalid_cell_ref_error word :
    startswith word "#" = true →
    lexical_error line_num (InvalidCellRef word line_num)
| invalid_operator_error : lexical_error line_num (InvalidOperator "!" line_num).

(** What ends the lexer on the line [line]: one of its errors, or the
    [ValueError] of [int] on a run of digits of the line, which the branch
    for numbers does not catch. *)
Inductive lexer_failure (line : string) (line_num : nat) : error → Prop :=
| reported_error e : lexical_error line_num e → lexer_failure line line_num e
| uncaught_value_error i j :
    i < j →
    (∀ k, i ≤ k < j → test_at py_isdigit line k = true) →
    py_int (slice line i j) = None →
    lexer_failure line line_num (PyRaise "ValueError").

(** The errors of the second pass, with the line they report. *)
Inductive syntax_error (line_num : nat) : error → Prop :=
| expected_array_name_error : syntax_error line_num (ExpectedArrayName line_num)
| expected_string_error : syntax_error line_num (ExpectedString line_num).

End Invariants.

(** ** Vocabulary of the parser invariants *)

Module ParserInvariants.
Import SuperHeroParser Invariants Vocabulary.

(** The token that ends the capture of a flash body: a [falcon] or a
    [flash] that opens its line at indentation zero. *)
Definition flash_boundary (t : Token) : bool :=
  (is_type FALCON t || is_type FLASH t) && (get_indentation t =? 0).

Section Tokens.
Variable tokens : list Token.

(** The slice [tokens[i:j]]. *)
Definition tokens_between (i j : nat) : list Token :=
  firstn (j - i) (skipn i tokens).

(** [flash_def_at i name]: at index [i] stands the definition of the flash
    [name]. *)
Inductive flash_def_at (i : nat) (name : string) : Prop :=
| flash_def t t1 :
    tokens !! i = Some t → type t = FLASH →
    tokens !! (i + 1) = Some t1 → type t1 = IDENTIFIER →
    strip_colon (value t1) = Ok name →
    flash_def_at i name.

(** [refused_at q e]: the statement at index [q] is one that the second
    pass refuses with [e]: an array declaration without a name after the
    optional size, or a [starlord] without its string. *)
Inductive refused_at (q : nat) : error → Prop :=
| array_name_missing t :
    tokens !! q = Some t → type t = DOCTORSTRANGE →
    has_type tokens IDENTIFIER
      (if has_type tokens NUMBER (q + 1) then q + 2 else q + 1) = false →
    refused_at q (ExpectedArrayName (line_number t))
| string_missing t :
    tokens !! q = Some t → type t = STARLORD →
    has_type tokens STRING (q + 1) = false →
    refused_at q (ExpectedString (line_number t)).

(** [store_at q name content]: at index [q] stands a store of the string
    [content] into [name]. *)
Inductive store_at (q : nat) (name content : string) : Prop :=
| store t t1 t2 t3 :
    tokens !! q = Some t → type t = BLACKPANTHER →
    tokens !! (q + 1) = Some t1 → type t1 = INTO →
    tokens !! (q + 2) = Some t2 → type t2 = IDENTIFIER → value t2 = PStr name →
    tokens !! (q + 3) = Some t3 → type t3 = STRING → value t3 = PStr content →
    store_at q name content.

(** [print_at q name]: at index [q] stands a print of [name]. *)
Inductive print_at (q : nat) (name : string) : Prop :=
| print t t1 :
    tokens !! q = Some t → type t = CAPTAINAMERICA →
    tokens !! (q + 1) = Some t1 → type t1 = IDENTIFIER → value t1 = PStr name →
    print_at q name.

End Tokens.

(** The C statements that store a string into the buffer of an array and
    print that buffer. *)
Definition store_line (name content : string) : string :=
  "    blackpanther(doctorstrange_" +:+ name +:+ ", " +:+ dqs +:+ content +:+ dqs
    +:+ ");".
Definition print_line (name : string) : string :=
  "    captainamerica(doctorstrange_" +:+ name +:+ ");".

(** ** Programs *)

(** The tokens of the three lines [flash f], an indented [ironman] and
    [falcon x]. *)
Definition flash_program : list Token :=
  [ mkToken FLASH (PStr "flash") 1 (Some 0);
    mkToken IDENTIFIER (PStr "f") 1 None;
    mkToken IRONMAN (PStr "ironman") 2 (Some 1);
    mkToken FALCON (PStr "falcon") 3 (Some 0);
    mkToken IDENTIFIER (PStr "x") 3 None ].

(** The tokens of the two lines [ironman] and [doctorstrange 5]. *)
Definition unnamed_array : list Token :=
  [ mkToken IRONMAN (PStr "ironman") 1 (Some 0);
    mkToken DOCTORSTRANGE (PStr "doctorstrange") 2 (Some 0);
    mkToken NUMBER (PInt 5) 2 None ].

(** The tokens of the line [spiderman l vision == 0]. *)
Definition full_branch : list Token :=
  [ mkToken SPIDERMAN (PStr "spiderman") 1 (Some 0);
    mkToken IDENTIFIER (PStr "l") 1 None;
    mkToken VISION (PStr "vision") 1 None;
    mkToken OPERATOR (PStr "==") 1 None;
    mkToken NUMBER (PInt 0) 1 None ].

(** The tokens of the two lines [captainamerica a] and
    [doctorstrange 5 a]: the array is used before it is declared. *)
Definition use_before_declaration : list Token :=
  [ mkToken CAPTAINAMERICA (PStr "captainamerica") 1 (Some 0);
    mkToken IDENTIFIER (PStr "a") 1 None;
    mkToken DOCTORSTRANGE (PStr "doctorstrange") 2 (Some 0);
    mkToken NUMBER (PInt 5) 2 None;
    mkToken IDENTIFIER (PStr "a") 2 None ].

End ParserInvariants.

(** ** Programs of plain commands *)

Module StraightLine.
Import SuperHeroLexer SuperHeroParser CodeGenerator.

(** The commands that are one keyword and read no operand. *)
Inductive command :=
| KIronman | KBatman | KSuperman | KWonderwoman | KThor | KThornum
| KDeadpool | KLoki | KThanos.

(** The keyword of a command, as the program spells it. *)
Definition spelling (k : command) : string :=
  match k with
  | KIronman => "ironman"
  | KBatman => "batman"
  | KSuperman => "superman"
  | KWonderwoman => "wonderwoman"
  | KThor => "thor"
  | KThornum => "thornum"
  | KDeadpool => "deadpool"
  | KLoki => "loki"
  | KThanos => "thanos"
  end.

Definition command_type (k : command) : TokenType :=
  match k with
  | KIronman => IRONMAN
  | KBatman => BATMAN
  | KSuperman => SUPERMAN
  | KWonderwoman => WONDERWOMAN
  | KThor => THOR
  | KThornum => THORNUM
  | KDeadpool => DEADPOOL
  | KLoki => LOKI
  | KThanos => THANOS
  end.

(** The token of a command that stands alone on the line [n]. *)
Definition command_token (k : command) (n : nat) : Token :=
  mkToken (command_type k) (PStr (spelling k)) n (Some 0).

(** The tokens of commands that stand one on a line, from the line [n]. *)
Fixpoint command_tokens (ks : list command) (n : nat) : list Token :=
  match ks with
  | [] => []
  | k :: ks => command_token k n :: command_tokens ks (S n)
  end.

Definition command_node (k : command) : node :=
  match k with
  | KIronman => Ironman
  | KBatman => Batman
  | KSuperman => Superman
  | KWonderwoman => Wonderwoman
  | KThor => Thor
  | KThornum => Thornum
  | KDeadpool => Deadpool
  | KLoki => Loki
  | KThanos => Thanos
  end.

(** The C statements of a command in the body of [main]. *)
Definition c_statement (k : command) : list string :=
  match k with
  | KIronman => ["    tape[ptr]++;"]
  | KBatman => ["    tape[ptr]--;"]
  | KSuperman => ["    ptr++;"]
  | KWonderwoman => ["    ptr--;"]
  | KThor => ["    thor();"]
  | KThornum => ["    thornum();"]
  | KDeadpool => ["    ptr = 0;"]
  | KLoki =>
      ["    tape[ptr] = 0;";
       "    printf(" +:+ dqs +:+ "Loki cleared cell %d" +:+ bss +:+ "n" +:+ dqs
         +:+ ", ptr);"]
  | KThanos =>
      ["    printf(" +:+ dqs +:+ "Thanos snapped his fingers..." +:+ bss +:+ "n"
         +:+ dqs +:+ ");";
       "    return 0;"]
  end.

(** The C text of a program of plain commands. *)
Definition c_program (nt : bool) (ks : list command) : string :=
  join_lines
    ([c_headers; if nt then c_windows_headers else c_unix_headers; c_globals;
      c_helpers]
     ++ concat (map c_statement ks) ++ [c_epilogue]).

End StraightLine.

(** * Properties of results and loops *)

(** ** Facts about while loops *)

Lemma bind_Ok {A B} (r : result A) (k : A → result B) (b : B) :
  (r ≫= k) = Ok b → ∃ a, r = Ok a ∧ k a = Ok b.
Proof. destruct r as [a|e]; [eauto | discriminate]. Qed.

Lemma bind_Ok_l {A B} (a : A) (k : A → result B) : (Ok a ≫= k) = k a.
Proof. reflexivity. Qed.

Lemma bind_Err {A B} (r : result A) (k : A → result B) (e : error) :
  (r ≫= k) = Err e → r = Err e ∨ ∃ a, r = Ok a ∧ k a = Err e.
Proof.
  destruct r as [a|e']; intros H; [right; eauto | left; cbv in H; congruence].
Qed.

Section WhileFacts.
Context {S : Type} (cond : S → bool) (body : S → result S).

Lemma while_O s : while cond body 0 s = if cond s then Err OutOfFuel else Ok s.
Proof. reflexivity. Qed.

Lemma while_S fuel s :
  while cond body (Datatypes.S fuel) s =
    if cond s then body s ≫= while cond body fuel else Ok s.
Proof. reflexivity. Qed.

(** A run that ends well from a state where the condition holds starts
    with an iteration. *)
Lemma while_Ok_step fuel s r :
  while cond body fuel s = Ok r → cond s = true →
  ∃ fuel' s', body s = Ok s' ∧ while cond body fuel' s' = Ok r.
Proof.
  intros H Hc. destruct fuel as [|fuel].
  - rewrite while_O, Hc in H. discriminate.
  - rewrite while_S, Hc in H. apply bind_Ok in H as (s' & Hb & H). eauto.
Qed.

Lemma while_exit fuel s r : while cond body fuel s = Ok r → cond r = false.
Proof.
  revert s. induction fuel as [|fuel IH]; intros s; simpl;
    destruct (cond s) eqn:Hc; try discriminate; try (intros [= <-]; exact Hc).
  intros H. apply bind_Ok in H as (s' & _ & H). eauto.
Qed.

(** A property the body maintains holds when the loop ends. *)
Lemma while_invariant (P : S → Prop) fuel s r :
  (∀ s s', P s → cond s = true → body s = Ok s' → P s') →
  P s → while cond body fuel s = Ok r → P r.
Proof.
  intros Hstep. revert s. induction fuel as [|fuel IH]; intros s Hs; simpl;
    destruct (cond s) eqn:Hc; try discriminate; try (intros [= <-]; exact Hs).
  intros H. apply bind_Ok in H as (s' & Hb & H). eauto.
Qed.

(** A run that ends well passes through every state it reaches. *)
Lemma while_from_reached s0 s fuel r :
  reaches cond body s0 s → while cond body fuel s0 = Ok r →
  ∃ fuel', while cond body fuel' s = Ok r.
Proof.
  intros Hr. revert fuel. induction Hr as [s|s s' s'' Hc Hb _ IH]; intros fuel H.
  - eauto.
  - destruct fuel as [|fuel]; simpl in H; rewrite Hc in H; [discriminate|].
    rewrite Hb in H. simpl in H. eauto.
Qed.

(** An error of the loop is the lack of fuel or an error of its body. *)
Lemma while_Err_origin fuel s e :
  while cond body fuel s = Err e →
  e = OutOfFuel ∨ ∃ s', cond s' = true ∧ body s' = Err e.
Proof.
  revert s. induction fuel as [|fuel IH]; intros s; simpl;
    destruct (cond s) eqn:Hc; try discriminate.
  - intros [= <-]. by left.
  - intros H. apply bind_Err in H as [H|(s' & _ & H)]; eauto.
Qed.

Section Measure.
Variable m : S → nat.
Hypothesis positive : ∀ s, cond s = true → 0 < m s.
Hypothesis decrease :
  ∀ s s', cond s = true → body s = Ok s' → m s' < m s.

Lemma while_fuel_irrelevant f1 f2 s :
  m s ≤ f1 → m s ≤ f2 → while cond body f1 s = while cond body f2 s.
Proof.
  revert f2 s. induction f1 as [|f1 IH]; intros f2 s H1 H2;
    (destruct (cond s) eqn:Hc; [|by destruct f2; simpl; rewrite Hc]).
  - specialize (positive _ Hc). lia.
  - destruct f2 as [|f2]; [specialize (positive _ Hc); lia|].
    simpl. rewrite Hc.
    destruct (body s) as [s'|e] eqn:Hb; [|reflexivity]. simpl.
    specialize (decrease _ _ Hc Hb). apply IH; lia.
Qed.

(** With fuel for the measure, the loop never stops for lack of fuel. *)
Lemma while_terminates fuel s :
  (∀ s, cond s = true → body s ≠ Err OutOfFuel) →
  m s ≤ fuel → while cond body fuel s ≠ Err OutOfFuel.
Proof.
  intros Hb. revert s. induction fuel as [|fuel IH]; intros s Hm; simpl;
    destruct (cond s) eqn:Hc; try discriminate.
  - specialize (positive _ Hc). lia.
  - destruct (body s) as [s'|e] eqn:Hs; simpl.
    + specialize (decrease _ _ Hc Hs). apply IH. lia.
    + intros [= ->]. by apply (Hb s).
Qed.

(** With fuel for the measure, a run is the run from any state it
    reaches. *)
Lemma while_reaches s s' fuel :
  reaches cond body s s' → m s ≤ fuel →
  while cond body fuel s = while cond body (m s') s'.
Proof.
  intros Hr. revert fuel.
  induction Hr as [s|s s' s'' Hc Hb _ IH]; intros fuel Hm.
  - by apply while_fuel_irrelevant.
  - destruct fuel as [|fuel]; [specialize (positive _ Hc); lia|].
    simpl. rewrite Hc, Hb. simpl.
    specialize (decrease _ _ Hc Hb). apply IH. lia.
Qed.

(** An iteration that fails ends the run with its error. *)
Lemma while_reaches_Err s s' fuel e :
  reaches cond body s s' → cond s' = true → body s' = Err e →
  m s ≤ fuel → while cond body fuel s = Err e.
Proof.
  intros Hr Hc Hb Hm. rewrite (while_reaches s s') by assumption.
  specialize (positive _ Hc).
  destruct (m s') as [|k]; [lia|]. simpl. by rewrite Hc, Hb.
Qed.
End Measure.
End WhileFacts.

Lemma reaches_trans {S} (cond : S → bool) (body : S → result S) a b c :
  reaches cond body a b → reaches cond body b c → reaches cond body a c.
Proof.
  intros Hab Hbc. induction Hab as [s|s s' s'' Hc Hb _ IH]; [done|].
  eapply reaches_step; eauto.
Qed.

(** ** Facts about strings *)

Lemma append_cons c s t : String c s +:+ t = String c (s +:+ t).
Proof. reflexivity. Qed.

Lemma append_assoc s t u : (s +:+ t) +:+ u = s +:+ t +:+ u.
Proof.
  induction s as [|c s IH]; [reflexivity|].
  by rewrite !append_cons, IH.
Qed.

Lemma append_length s t : String.length (s +:+ t) = String.length s + String.length t.
Proof.
  induction s as [|c s IH]; [reflexivity|].
  rewrite append_cons. simpl. by rewrite IH.
Qed.

Lemma get_substring1 s i c :
  String.get i s = Some c → String.substring i 1 s = String c EmptyString.
Proof.
  revert i. induction s as [|a s IH]; intros [|i]; simpl; try discriminate.
  - intros [= ->]. by destruct s.
  - apply IH.
Qed.

Lemma get_substring2 s i c d :
  String.get i s = Some c → String.get (i + 1) s = Some d →
  String.substring i 2 s = String c (String d EmptyString).
Proof.
  revert i. induction s as [|a s IH]; intros [|i]; simpl; try discriminate.
  - intros [= ->] H. f_equal. by apply (get_substring1 s 0).
  - apply IH.
Qed.

Lemma get_Some_lt s i c : String.get i s = Some c → i < String.length s.
Proof.
  revert i. induction s as [|a s IH]; intros [|i]; simpl; try discriminate.
  - lia.
  - intros H. apply IH in H. lia.
Qed.

Lemma get_None_ge s i : String.get i s = None → String.length s ≤ i.
Proof.
  revert i. induction s as [|a s IH]; intros [|i]; simpl; try discriminate.
  - lia.
  - lia.
  - intros H. apply IH in H. lia.
Qed.

Lemma contains_refl_prefix s t : startswith (s +:+ t) s = true.
Proof.
  induction s as [|c s IH]; [by destruct t|].
  rewrite append_cons. simpl. by rewrite Ascii.eqb_refl.
Qed.

Lemma contains_here needle t : contains needle (needle +:+ t) = true.
Proof.
  destruct (needle +:+ t) eqn:H; simpl; rewrite <- H, contains_refl_prefix; done.
Qed.

Lemma contains_append_r needle s t :
  contains needle t = true → contains needle (s +:+ t) = true.
Proof.
  intros H. induction s as [|c s IH]; [done|].
  rewrite append_cons. simpl. rewrite IH. by rewrite orb_true_r.
Qed.

(** A chunk of the list is a part of the joined text. *)
Lemma contains_join chunk chunks :
  In chunk chunks → contains chunk (join_lines chunks) = true.
Proof.
  induction chunks as [|c cs IH]; [intros []|].
  intros [->|Hin].
  - destruct cs as [|c' cs]; simpl join_lines.
    + rewrite <- (contains_here chunk EmptyString). f_equal.
      clear. induction chunk as [|a s IHs]; [done|]. by rewrite append_cons, <- IHs.
    + apply contains_here.
  - destruct cs as [|c' cs]; [destruct Hin|].
    change (join_lines (c :: c' :: cs)) with (c +:+ nls +:+ join_lines (c' :: cs)).
    apply contains_append_r, contains_append_r. by apply IH.
Qed.

(** ** Facts about dictionaries *)

Section Dict.
Context {K V : Type} `{EqDecision K}.

Lemma dict_get_set_eq (d : list (K * V)) k v : dict_get (dict_set d k v) k = Some v.
Proof.
  induction d as [|[k' v'] d IH]; simpl.
  - by rewrite decide_True.
  - destruct (decide (k' = k)) as [->|Hne]; simpl.
    + by rewrite decide_True.
    + by rewrite decide_False.
Qed.

Lemma dict_get_set_ne (d : list (K * V)) k k' v :
  k ≠ k' → dict_get (dict_set d k v) k' = dict_get d k'.
Proof.
  intros Hne. induction d as [|[k0 v0] d IH]; simpl.
  - by rewrite decide_False.
  - destruct (decide (k0 = k)) as [->|Hne0]; simpl.
    + by rewrite !decide_False.
    + destruct (decide (k0 = k')); [done|exact IH].
Qed.

Lemma dict_get_In (d : list (K * V)) k v : dict_get d k = Some v → In (k, v) d.
Proof.
  induction d as [|[k0 v0] d IH]; simpl; [discriminate|].
  destruct (decide (k0 = k)) as [->|Hne]; [intros [= ->]; by left|].
  intros H. right. by apply IH.
Qed.

Lemma dict_set_keys (d : list (K * V)) k v k' :
  In k' (map fst (dict_set d k v)) → k' = k ∨ In k' (map fst d).
Proof.
  induction d as [|[k0 v0] d IH]; simpl.
  - intros [<-|[]]. by left.
  - destruct (decide (k0 = k)) as [->|Hne]; simpl.
    + intros [<-|H]; [by left|by right; right].
    + intros [<-|H]; [by right; left|]. destruct (IH H); [by left|by right; right].
Qed.

(** A key has one entry. *)
Lemma dict_set_NoDup (d : list (K * V)) k v :
  List.NoDup (map fst d) → List.NoDup (map fst (dict_set d k v)).
Proof.
  induction d as [|[k0 v0] d IH]; simpl; intros Hnd.
  - constructor; [intros []|constructor].
  - inversion Hnd as [|? ? Hnin Hnd']; subst.
    destruct (decide (k0 = k)) as [->|Hne]; simpl.
    + by constructor.
    + constructor; [|by apply IH].
      intros [->|Hin]%dict_set_keys; done.
Qed.

Lemma dict_NoDup_In (d : list (K * V)) k v v' :
  List.NoDup (map fst d) → dict_get d k = Some v → In (k, v') d → v' = v.
Proof.
  induction d as [|[k0 v0] d IH]; simpl; [done|].
  intros Hnd. inversion Hnd as [|? ? Hnin Hnd']; subst.
  destruct (decide (k0 = k)) as [->|Hne].
  - intros [= ->] [[= ->]|Hin]; [done|].
    exfalso. apply Hnin. by apply (in_map fst) in Hin.
  - intros Hg [[= -> ->]|Hin]; [done|]. by apply IH.
Qed.
End Dict.

(** * Properties of the lexer *)

(** ** The loop over the lines *)

Lemma lex_lines_cons line rest n st :
  SuperHeroLexer.lex_lines (line :: rest) n st =
  SuperHeroLexer.lex_line n line st ≫= SuperHeroLexer.lex_lines rest (S n).
Proof. reflexivity. Qed.

Lemma lex_lines_app lines rest n st :
  SuperHeroLexer.lex_lines (lines ++ rest) n st =
  SuperHeroLexer.lex_lines lines n st ≫=
    SuperHeroLexer.lex_lines rest (n + length lines).
Proof.
  revert n st. induction lines as [|l ls IH]; intros n st.
  - simpl. by rewrite Nat.add_0_r.
  - rewrite <- app_comm_cons, !lex_lines_cons.
    destruct (SuperHeroLexer.lex_line n l st) as [st'|e]; [|done].
    rewrite !bind_Ok_l, IH. simpl length.
    by replace (S n + length ls) with (n + S (length ls)) by lia.
Qed.

(** ** Scanning a line *)

Module ScanFacts.
Import SuperHeroLexer.

(** A character that starts a word belongs to the run of the word. *)
Lemma ident_start_char c :
  py_isalpha c || Ascii.eqb c "_" || Ascii.eqb c "#" = true → ident_char c = true.
Proof.
  unfold ident_char, py_isalnum.
  intros [[Ha|Hu]%orb_prop|Hs]%orb_prop; rewrite ?Ha, ?Hu, ?Hs, ?orb_true_r; done.
Qed.

(** The inner scans run a body that cannot fail. *)
Lemma scan_while_Err (cond : nat → bool) fuel i e :
  while cond next_index fuel i = Err e → e = OutOfFuel.
Proof.
  intros H. apply while_Err_origin in H as [H|(s' & _ & H)]; [done|discriminate].
Qed.

Lemma string_while_Err line fuel i e :
  while (string_cond line) (string_body line) fuel i = Err e → e = OutOfFuel.
Proof.
  intros H. apply while_Err_origin in H as [H|(s' & _ & H)]; [done|].
  unfold string_body in H. by destruct (_ && _).
Qed.

Section Line.
Variable line : string.
Variable line_num : nat.

Local Abbreviation len := (line_len line).

Lemma test_at_lt p i : test_at p line i = true → i < len.
Proof.
  unfold test_at. destruct (String.get i line) eqn:H; [|discriminate].
  intros _. by apply get_Some_lt in H.
Qed.

(** *** The scans for the end of a number or of a word *)

Lemma next_while_ge (cond : nat → bool) fuel i j :
  while cond next_index fuel i = Ok j → i ≤ j.
Proof.
  apply (while_invariant cond next_index (fun j => i ≤ j)); [|lia].
  intros s s' Hs _ [= <-]. lia.
Qed.

Lemma next_while_gt (cond : nat → bool) fuel i j :
  cond i = true → while cond next_index fuel i = Ok j → i < j.
Proof.
  intros Hc. destruct fuel as [|fuel]; simpl; rewrite Hc; [discriminate|].
  simpl. intros H%next_while_ge. lia.
Qed.

Lemma next_while_terminates p i :
  while (test_at p line) next_index len i ≠ Err OutOfFuel.
Proof.
  apply (while_terminates _ _ (fun j => len - j)).
  - intros s Hs%test_at_lt. lia.
  - intros s s' Hs%test_at_lt [= <-]. lia.
  - discriminate.
  - lia.
Qed.

(** *** The scan for the closing quote *)

Lemma string_body_next i j :
  string_body line i = Ok j → j = i + 1 ∨ (j = i + 2 ∧ i + 1 < len).
Proof.
  unfold string_body.
  destruct (test_at _ line i); simpl; [|intros [= <-]; by left].
  destruct (i + 1 <? len) eqn:Hlt; intros [= <-]; [|by left].
  right. apply Nat.ltb_lt in Hlt. done.
Qed.

Lemma string_while_ge fuel i j :
  while (string_cond line) (string_body line) fuel i = Ok j → i ≤ j.
Proof.
  apply (while_invariant _ _ (fun j => i ≤ j)); [|lia].
  intros s s' Hs _ [->|[-> _]]%string_body_next; lia.
Qed.

Lemma string_while_terminates i :
  while (string_cond line) (string_body line) len i ≠ Err OutOfFuel.
Proof.
  apply (while_terminates _ _ (fun j => len - j)).
  - intros s Hs%test_at_lt. lia.
  - intros s s' Hs%test_at_lt [->|[-> ?]]%string_body_next; lia.
  - intros s _. unfold string_body. by destruct (_ && _).
  - lia.
Qed.

Lemma string_while_Ok i :
  ∃ j, while (string_cond line) (string_body line) len i = Ok j.
Proof.
  destruct (while _ _ len i) as [j|e] eqn:H; [eauto|].
  pose proof (string_while_terminates i) as Hn.
  pose proof H as ->%string_while_Err. by rewrite H in Hn.
Qed.

(** Where the scan stops inside the line, there is a quote. *)
Lemma string_while_stop fuel i j :
  while (string_cond line) (string_body line) fuel i = Ok j →
  j < len → String.get j line = Some dq.
Proof.
  intros H%while_exit Hj. unfold string_cond, test_at in H.
  destruct (String.get j line) as [c|] eqn:Hget.
  - apply negb_false_iff, Ascii.eqb_eq in H as ->. done.
  - apply get_None_ge in Hget. unfold line_len in Hj. lia.
Qed.

(** Without quote nor backslash on the way, the scan stops at the first
    quote. *)
Lemma string_while_first_quote fuel i j :
  i ≤ j → j - i < fuel →
  String.get j line = Some dq →
  (∀ k c, i ≤ k < j → String.get k line = Some c → c ≠ dq ∧ c ≠ backslash) →
  while (string_cond line) (string_body line) fuel i = Ok j.
Proof.
  revert i. induction fuel as [|fuel IH]; intros i Hij Hf Hq Hbetween; [lia|].
  destruct (decide (i = j)) as [->|Hne].
  - simpl. unfold string_cond, test_at. rewrite Hq.
    by rewrite Ascii.eqb_refl.
  - assert (i < len) as Hi by (apply get_Some_lt in Hq; unfold line_len; lia).
    destruct (String.get i line) as [c|] eqn:Hget;
      [|apply get_None_ge in Hget; unfold line_len in Hi; lia].
    destruct (Hbetween i c) as [Hc1 Hc2]; [lia|done|].
    simpl. unfold string_cond at 1, test_at. rewrite Hget.
    apply Ascii.eqb_neq in Hc1 as ->. simpl.
    unfold string_body, test_at. rewrite Hget.
    apply Ascii.eqb_neq in Hc2 as ->. simpl.
    apply IH; [lia|lia|done|]. intros k d Hk. apply Hbetween. lia.
Qed.

(** *** One iteration of the scan of the line *)

Lemma scan_body_no_fuel_error st : scan_body line line_num st ≠ Err OutOfFuel.
Proof.
  destruct st as [i lt]. unfold scan_body.
  destruct (String.get i line) as [char|]; [|discriminate].
  repeat (case_match; try discriminate);
    intros [Hw|(j & _ & Hw)]%bind_Err;
    try (by apply string_while_terminates in Hw);
    try (by apply next_while_terminates in Hw);
    repeat (case_match; try discriminate).
Qed.

Lemma scan_body_progress i lt i' lt' :
  scan_body line line_num (i, lt) = Ok (i', lt') → i < i'.
Proof.
  unfold scan_body.
  destruct (String.get i line) as [char|] eqn:Hget; [|discriminate].
  destruct (py_isspace char); [intros [= <- _]; lia|].
  destruct (Ascii.eqb char dq).
  { intros (j & Hj%string_while_ge & H)%bind_Ok.
    destruct (j <? len); [|discriminate]. injection H as <- _. lia. }
  destruct (py_isdigit char) eqn:Hdigit.
  { intros (j & Hj & H)%bind_Ok. apply next_while_gt in Hj.
    - destruct (py_int _); [|discriminate]. injection H as <- _. done.
    - unfold digit_cond, test_at. by rewrite Hget. }
  destruct (py_isalpha char || Ascii.eqb char "_" || Ascii.eqb char "#") eqn:Hid.
  { intros (j & Hj & H)%bind_Ok. apply next_while_gt in Hj.
    - repeat (case_match; try discriminate); injection H as <- _; done.
    - unfold ident_cond, test_at. rewrite Hget. by apply ident_start_char. }
  destruct (is_operator_char char).
  { destruct (test_at _ line (i + 1)); (destruct (dict_lookup operators _);
      [|discriminate]); intros [= <- _]; lia. }
  destruct (Ascii.eqb char ":"); intros [= <- _]; lia.
Qed.

Lemma scan_measure_positive (st : line_state) :
  scan_cond line st = true → 0 < len - fst st.
Proof. unfold scan_cond. intros H%Nat.ltb_lt. lia. Qed.

Lemma scan_measure_decrease (st st' : line_state) :
  scan_cond line st = true → scan_body line line_num st = Ok st' →
  len - fst st' < len - fst st.
Proof.
  destruct st as [i lt], st' as [i' lt']. unfold scan_cond.
  intros Hc%Nat.ltb_lt Hb%scan_body_progress. simpl in *. lia.
Qed.

Lemma scan_line_no_fuel_error : scan_line line line_num ≠ Err OutOfFuel.
Proof.
  unfold scan_line. intros [H|([i lt] & _ & H)]%bind_Err.
  - revert H. apply (while_terminates _ _ (fun st => len - fst st)).
    + apply scan_measure_positive.
    + apply scan_measure_decrease.
    + intros s _. apply scan_body_no_fuel_error.
    + simpl. lia.
  - by destruct lt.
Qed.


(** *** String literals *)

(** An opening quote that no quote follows is an unclosed string. *)
Lemma scan_body_unclosed i lt :
  String.get i line = Some dq →
  (∀ j, i < j → String.get j line ≠ Some dq) →
  scan_body line line_num (i, lt) = Err (UnclosedString line_num).
Proof.
  intros Hget Hno. unfold scan_body. rewrite Hget.
  change (py_isspace dq) with false. rewrite Ascii.eqb_refl. cbv iota.
  destruct (string_while_Ok (i + 1)) as [j Hj]. rewrite Hj, bind_Ok_l.
  destruct (j <? len) eqn:Hlt; [|done].
  apply Nat.ltb_lt in Hlt. exfalso. apply (Hno j).
  - apply string_while_ge in Hj. lia.
  - by apply (string_while_stop _ _ _ Hj).
Qed.

(** A string literal that is lexed gives the text between its quotes. *)
Lemma scan_body_string i lt i' lt' :
  String.get i line = Some dq →
  scan_body line line_num (i, lt) = Ok (i', lt') →
  ∃ j, i < j ∧ String.get j line = Some dq ∧ i' = j + 1 ∧
       lt' = lt ++ [new_token STRING (PStr (slice line (i + 1) j)) line_num].
Proof.
  intros Hget. unfold scan_body. rewrite Hget.
  change (py_isspace dq) with false. rewrite Ascii.eqb_refl. cbv iota.
  intros (j & Hj & H)%bind_Ok.
  destruct (j <? len) eqn:Hlt; [|discriminate].
  apply Nat.ltb_lt in Hlt. injection H as <- <-. exists j.
  split; [apply string_while_ge in Hj; lia|].
  split; [by apply (string_while_stop _ _ _ Hj)|done].
Qed.

(** Without backslash in it, the literal ends at the first quote. *)
Lemma scan_body_string_plain i j lt :
  String.get i line = Some dq → i < j → String.get j line = Some dq →
  (∀ k c, i < k < j → String.get k line = Some c → c ≠ dq ∧ c ≠ backslash) →
  scan_body line line_num (i, lt) =
    Ok (j + 1, lt ++ [new_token STRING (PStr (slice line (i + 1) j)) line_num]).
Proof.
  intros Hget Hij Hq Hbetween. unfold scan_body. rewrite Hget.
  change (py_isspace dq) with false. rewrite Ascii.eqb_refl. cbv iota.
  assert (j < len) as Hj by (by apply get_Some_lt in Hq).
  rewrite (string_while_first_quote len (i + 1) j);
    [|lia|lia|done|intros k c Hk; apply Hbetween; lia].
  rewrite bind_Ok_l. by apply Nat.ltb_lt in Hj as ->.
Qed.
End Line.

(** The lexer never stops for lack of fuel. *)
Lemma lex_lines_no_fuel_error lines n st : lex_lines lines n st ≠ Err OutOfFuel.
Proof.
  revert n st. induction lines as [|l ls IH]; intros n st; [discriminate|].
  rewrite lex_lines_cons. intros [H|(st' & _ & H)]%bind_Err; [|by eapply IH].
  unfold lex_line in H. destruct st as [mc toks].
  repeat (case_match; try discriminate).
  apply bind_Err in H as [H|(lt & _ & H)]; [|discriminate].
  by apply scan_line_no_fuel_error in H.
Qed.

Lemma tokenize_no_fuel_error code : tokenize code ≠ Err OutOfFuel.
Proof.
  unfold tokenize, tokenize_lines. intros [H|(st & _ & H)]%bind_Err; [|discriminate].
  by apply lex_lines_no_fuel_error in H.
Qed.

End ScanFacts.

(** ** Relational operators *)

Module OperatorFacts.
Import SuperHeroLexer Vocabulary ScanFacts.

(** C3, as the specification states it, fails: lexing [<>] raises no
    invalid-operator error. *)
Lemma lex_lt_gt_no_error :
  ¬ ∃ op line_num, tokenize "<>" = Err (InvalidOperator op line_num).
Proof. intros (op & n & H). vm_compute in H. discriminate. Qed.

(** C3, amended: [<>] lexes as the two operators [<] and [>]; a lone [!] is
    the spelling that fails with the invalid-operator error; [>=], [<=],
    [==], [!=] and [=] each lex as one operator token, and [=] gives the
    token of [==]. *)
Theorem operator_spellings :
  tokenize "<>" = Ok [op_token "<"; mkToken OPERATOR (PStr ">") 1 None] ∧
  tokenize "!" = Err (InvalidOperator "!" 1) ∧
  tokenize ">=" = Ok [op_token ">="] ∧
  tokenize "<=" = Ok [op_token "<="] ∧
  tokenize "==" = Ok [op_token "=="] ∧
  tokenize "!=" = Ok [op_token "!="] ∧
  tokenize "=" = Ok [op_token "=="] ∧
  tokenize "=" = tokenize "==".
Proof. repeat split; vm_compute; reflexivity. Qed.

(** The invalid-operator error is raised at a [!] that no [=] follows, and
    nowhere else. *)
Lemma scan_body_invalid_operator line line_num i line_tokens op n :
  scan_body line line_num (i, line_tokens) = Err (InvalidOperator op n) →
  op = "!" ∧ n = line_num ∧ String.get i line = Some "!"%char ∧
  String.get (i + 1) line ≠ Some "="%char.
Proof.
  unfold scan_body. destruct (String.get i line) as [char|] eqn:Hget; [|discriminate].
  destruct (py_isspace char); [discriminate|].
  destruct (Ascii.eqb char dq).
  { intros H. apply bind_Err in H as [H|(j & _ & H)].
    - by apply string_while_Err in H.
    - by destruct (j <? line_len line). }
  destruct (py_isdigit char).
  { intros H. apply bind_Err in H as [H|(j & _ & H)].
    - by apply scan_while_Err in H.
    - by destruct (py_int _). }
  destruct (py_isalpha char || Ascii.eqb char "_" || Ascii.eqb char "#").
  { intros H. apply bind_Err in H as [H|(j & _ & H)].
    - by apply scan_while_Err in H.
    - destruct (startswith _ _); [by destruct (py_int _)|].
      by destruct (dict_lookup keywords _). }
  destruct (is_operator_char char) eqn:Hop;
    [|by destruct (Ascii.eqb char ":")].
  unfold test_at, slice.
  destruct (String.get (i + 1) line) as [d|] eqn:Hget2.
  - destruct (Ascii.eqb d "=") eqn:Hd.
    + apply Ascii.eqb_eq in Hd as ->.
      replace (i + 1 + 1 - i) with 2 by lia.
      rewrite (get_substring2 _ _ _ _ Hget Hget2).
      unfold is_operator_char in Hop.
      repeat (apply orb_prop in Hop as [Hop|Hop]);
        apply Ascii.eqb_eq in Hop as ->; discriminate.
    + replace (i + 1 - i) with 1 by lia.
      rewrite (get_substring1 _ _ _ Hget).
      unfold is_operator_char in Hop.
      repeat (apply orb_prop in Hop as [Hop|Hop]);
        apply Ascii.eqb_eq in Hop as ->; try discriminate.
      intros [= <- <-]. repeat split; try done.
      intros [= ->]. discriminate.
  - replace (i + 1 - i) with 1 by lia.
    rewrite (get_substring1 _ _ _ Hget).
    unfold is_operator_char in Hop.
    repeat (apply orb_prop in Hop as [Hop|Hop]);
      apply Ascii.eqb_eq in Hop as ->; try discriminate.
    intros [= <- <-]. repeat split; done.
Qed.

Lemma scan_line_Err line line_num e :
  scan_line line line_num = Err e →
  e = OutOfFuel ∨ ∃ st, scan_body line line_num st = Err e.
Proof.
  unfold scan_line. intros H. apply bind_Err in H as [H|(st & _ & H)].
  - apply while_Err_origin in H as [H|(st & _ & H)]; eauto.
  - destruct st as [i [|t ts]]; discriminate.
Qed.

Lemma lex_lines_Err lines line_num st e :
  lex_lines lines line_num st = Err e →
  e = OutOfFuel ∨ ∃ line n st, scan_body line n st = Err e.
Proof.
  revert line_num st. induction lines as [|line rest IH]; intros n st; simpl;
    [discriminate|].
  intros H. apply bind_Err in H as [H|(st' & _ & H)]; [|by eapply IH].
  unfold lex_line in H. destruct st as [mc toks].
  repeat (case_match; try discriminate).
  apply bind_Err in H as [H|(lt & _ & H)]; [|discriminate].
  apply scan_line_Err in H as [H|(st & H)]; eauto.
Qed.

Lemma invalid_operator_only_bang code op n :
  tokenize code = Err (InvalidOperator op n) → op = "!".
Proof.
  unfold tokenize, tokenize_lines. intros H.
  apply bind_Err in H as [H|(st & _ & H)]; [|discriminate].
  apply lex_lines_Err in H as [H|(line & k & [i lt] & H)]; [discriminate|].
  by apply scan_body_invalid_operator in H as [-> _].
Qed.

End OperatorFacts.

(** ** Block comments *)

Module CommentFacts.
Import SuperHeroLexer.

Lemma lstrip_shape s :
  lstrip s = EmptyString ∨ ∃ c r, lstrip s = String c r ∧ py_isspace c = false.
Proof.
  induction s as [|a s IH]; simpl; [by left|].
  destruct (py_isspace a) eqn:Ha; [exact IH|]. right. eauto.
Qed.

Lemma rstrip_nonspace c r : py_isspace c = false → rstrip (String c r) ≠ EmptyString.
Proof. intros Hc. simpl. rewrite Hc. by destruct (rstrip r). Qed.

Lemma strip_empty s : strip s = EmptyString → lstrip s = EmptyString.
Proof.
  unfold strip. destruct (lstrip_shape s) as [->|(c & r & -> & Hc)]; [done|].
  intros H. by apply rstrip_nonspace in H.
Qed.


Lemma blank_startswith s c p :
  lstrip s = EmptyString → py_isspace c = false → startswith s (String c p) = false.
Proof.
  destruct s as [|a s]; simpl; [done|].
  destruct (py_isspace a) eqn:Ha; [|discriminate].
  intros _ Hc. destruct (Ascii.eqb c a) eqn:Heq; [|done].
  apply Ascii.eqb_eq in Heq as ->. congruence.
Qed.

Lemma blank_contains s c p :
  lstrip s = EmptyString → py_isspace c = false → contains (String c p) s = false.
Proof.
  intros Hs Hc. induction s as [|a s IH].
  - reflexivity.
  - change (contains (String c p) (String a s))
      with (startswith (String a s) (String c p) || contains (String c p) s).
    rewrite blank_startswith by done. simpl in Hs.
    destruct (py_isspace a); [by apply IH|discriminate].
Qed.

(** A line that holds a comment marker is not blank. *)
Lemma marker_not_blank c p line :
  py_isspace c = false → contains (String c p) line = true →
  String.eqb (strip line) EmptyString = false.
Proof.
  intros Hc Hin. apply String.eqb_neq. intros Hs%strip_empty.
  by rewrite (blank_contains line c p) in Hin.
Qed.

Lemma lex_line_opening n line tokens :
  contains "heroes*" line = true → contains "*heroes" line = false →
  lex_line n line (false, tokens) = Ok (true, tokens).
Proof.
  intros Ho Hc. unfold lex_line.
  rewrite (marker_not_blank "h" "eroes*") by done. by rewrite Ho, Hc.
Qed.

Lemma lex_line_inside n line tokens :
  contains "*heroes" line = false →
  lex_line n line (true, tokens) = Ok (true, tokens).
Proof.
  intros Hc. unfold lex_line. rewrite Hc. by destruct (String.eqb _ _).
Qed.

Lemma lex_line_closing n line tokens :
  contains "*heroes" line = true →
  lex_line n line (true, tokens) = Ok (false, tokens).
Proof.
  intros Hc. unfold lex_line.
  rewrite (marker_not_blank "*" "heroes") by done. by rewrite Hc.
Qed.

Lemma lex_lines_inside lines rest n tokens :
  Forall (fun l => contains "*heroes" l = false) lines →
  lex_lines (lines ++ rest) n (true, tokens) =
  lex_lines rest (n + length lines) (true, tokens).
Proof.
  intros H. revert n. induction H as [|l ls Hl _ IH]; intros n.
  - simpl. by rewrite Nat.add_0_r.
  - rewrite <- app_comm_cons, lex_lines_cons, lex_line_inside by done.
    rewrite bind_Ok_l, IH. simpl. f_equal. lia.
Qed.

(** C8: outside a block comment, a line that holds the opening marker and
    not the closing one begins a region that ends at the first later line
    holding the closing marker.  The lines of the region, the opening and
    the closing one included, add no token and raise no error: lexing goes
    on after the closing line with the tokens it had before the opening
    one, so the rest of the closing line is lost. *)
Theorem block_comment_region n tokens opening inside closing rest :
  contains "heroes*" opening = true →
  contains "*heroes" opening = false →
  Forall (fun l => contains "*heroes" l = false) inside →
  contains "*heroes" closing = true →
  lex_lines (opening :: inside ++ closing :: rest) n (false, tokens) =
  lex_lines rest (n + length inside + 2) (false, tokens).
Proof.
  intros Ho Hoc Hin Hc.
  rewrite lex_lines_cons, lex_line_opening, bind_Ok_l by done.
  rewrite lex_lines_inside by done.
  rewrite lex_lines_cons, lex_line_closing, bind_Ok_l by done.
  f_equal. lia.
Qed.

Lemma block_comment_region_witness :
  lex_lines
    [ "heroes* a note"; "batman"; EmptyString; "the end *heroes thor"; "superman" ]
    2 (false, [mkToken IRONMAN (PStr "ironman") 1 (Some 0)]) =
  lex_lines ["superman"] 6 (false, [mkToken IRONMAN (PStr "ironman") 1 (Some 0)]).
Proof.
  apply (block_comment_region 2 _ "heroes* a note" ["batman"; EmptyString]
           "the end *heroes thor" ["superman"]).
  - reflexivity.
  - reflexivity.
  - repeat constructor.
  - reflexivity.
Defined.

(** From the source text: only the lines around the region give tokens. *)
Lemma block_comment_source :
  tokenize
    ("ironman" +:+ nls +:+ "heroes* a note" +:+ nls +:+ "batman" +:+ nls
       +:+ "the end *heroes thor" +:+ nls +:+ "superman") =
  Ok [ mkToken IRONMAN (PStr "ironman") 1 (Some 0);
       mkToken SUPERMAN (PStr "superman") 5 (Some 0) ].
Proof. vm_compute. reflexivity. Qed.

End CommentFacts.

(** ** String literals *)

Module StringFacts.
Import SuperHeroLexer Vocabulary.






Section Line.
Variable line : string.





Variable line_num : nat.




End Line.




(** From the source text: an escaped quote does not end the literal, and
    the backslash stays in the value of the token. *)
Lemma escaped_quote_source :
  tokenize ("starlord " +:+ dqs +:+ "a" +:+ bss +:+ dqs +:+ "b" +:+ dqs) =
  Ok [ mkToken STARLORD (PStr "starlord") 1 (Some 0);
       mkToken STRING (PStr ("a" +:+ bss +:+ dqs +:+ "b")) 1 None ] ∧
  tokenize ("ironman" +:+ nls +:+ "starlord " +:+ dqs +:+ "abc" +:+ bss +:+ dqs) =
  Err (UnclosedString 2).
Proof. split; vm_compute; reflexivity. Qed.

End StringFacts.

(** * Properties of the parser *)

(** ** The first pass *)

Module ResolverFacts.
Import SuperHeroParser Vocabulary.

Section Tokens.
Variable tokens : list Token.

Local Abbreviation len := (length tokens).

Lemma has_type_Some ty i :
  has_type tokens ty i = true → ∃ t, tokens !! i = Some t ∧ type t = ty.
Proof.
  unfold has_type, is_type. destruct (tokens !! i) as [t|]; [|discriminate].
  intros H%bool_decide_eq_true. eauto.
Qed.

Lemma has_type_of ty i t :
  tokens !! i = Some t → type t = ty → has_type tokens ty i = true.
Proof.
  intros Ht Hty. unfold has_type, is_type. rewrite Ht.
  by apply bool_decide_eq_true.
Qed.

Lemma has_type_other ty ty' i t :
  tokens !! i = Some t → type t = ty' → ty' ≠ ty → has_type tokens ty i = false.
Proof.
  intros Ht Hty Hne. unfold has_type, is_type. rewrite Ht.
  apply bool_decide_eq_false. congruence.
Qed.

(** *** The capture of a flash body *)

Lemma flash_while_ge fuel st st' :
  while (flash_cond tokens) (flash_body tokens) fuel st = Ok st' → fst st ≤ fst st'.
Proof.
  apply (while_invariant _ _ (fun s => fst st ≤ fst s)); [|lia].
  intros [i b] s' Hs _. unfold flash_body.
  destruct (tokens !! i); [|discriminate]. intros [= <-]. simpl in *. lia.
Qed.

Lemma flash_while_terminates st :
  while (flash_cond tokens) (flash_body tokens) len st ≠ Err OutOfFuel.
Proof.
  assert (∀ s, flash_cond tokens s = true → fst s < len) as Hlt.
  { intros [i b]. unfold flash_cond. simpl.
    destruct (tokens !! i) eqn:H; [|discriminate].
    intros _. by apply lookup_lt_Some in H. }
  apply (while_terminates _ _ (fun s => len - fst s)).
  - intros s Hs%Hlt. lia.
  - intros [i b] s' Hs%Hlt. unfold flash_body.
    destruct (tokens !! i); [|discriminate]. intros [= <-]. simpl in *. lia.
  - intros [i b] _. unfold flash_body. by destruct (tokens !! i).
  - lia.
Qed.

(** *** One iteration *)

Lemma first_pass_body_progress i tb i' tb' :
  first_pass_body tokens (i, tb) = Ok (i', tb') → i < i'.
Proof.
  unfold first_pass_body. destruct (tokens !! i) as [token|]; [|discriminate].
  destruct (is_type FALCON token).
  { intros (l & _ & [= <- _])%bind_Ok. lia. }
  destruct (is_type FLASH token).
  { destruct (has_type tokens IDENTIFIER (i + 1)); [|intros [= <- _]; lia].
    destruct (tokens !! (i + 1)); [|discriminate].
    intros (name & _ & ([j b] & Hj%flash_while_ge & [= <- _])%bind_Ok)%bind_Ok.
    simpl in Hj. lia. }
  repeat (case_match; try discriminate); intros [= <- _]; lia.
Qed.

Lemma first_pass_body_no_fuel_error st :
  first_pass_body tokens st ≠ Err OutOfFuel.
Proof.
  destruct st as [i tb]. unfold first_pass_body.
  destruct (tokens !! i) as [token|]; [|discriminate].
  destruct (is_type FALCON token).
  { intros [Hl|(l & _ & Hl)]%bind_Err; [|discriminate].
    destruct (has_type _ _ _); [|discriminate].
    destruct (tokens !! (i + 1)) as [t1|]; [|discriminate].
    apply bind_Err in Hl as [Hl|(l & _ & Hl)]; [|discriminate].
    by destruct (value t1). }
  destruct (is_type FLASH token).
  { destruct (has_type _ _ _); [|discriminate].
    destruct (tokens !! (i + 1)) as [t1|]; [|discriminate].
    intros [Hl|(l & _ & Hl)]%bind_Err; [by destruct (value t1)|].
    apply bind_Err in Hl as [Hl|([j b] & _ & Hl)]; [|discriminate].
    by apply flash_while_terminates in Hl. }
  repeat (case_match; try discriminate).
Qed.

Lemma first_pass_measure_positive (st : fp_state) :
  first_pass_cond tokens st = true → 0 < len - fst st.
Proof. unfold first_pass_cond. intros H%Nat.ltb_lt. lia. Qed.

Lemma first_pass_measure_decrease (st st' : fp_state) :
  first_pass_cond tokens st = true → first_pass_body tokens st = Ok st' →
  len - fst st' < len - fst st.
Proof.
  destruct st as [i tb], st' as [i' tb']. unfold first_pass_cond.
  intros Hc%Nat.ltb_lt Hb%first_pass_body_progress. simpl in *. lia.
Qed.

(** The first pass never stops for lack of fuel. *)
Lemma first_pass_no_fuel_error : first_pass tokens ≠ Err OutOfFuel.
Proof.
  unfold first_pass. intros [H|(st & _ & H)]%bind_Err; [|discriminate].
  revert H. apply (while_terminates _ _ (fun st => len - fst st)).
  - apply first_pass_measure_positive.
  - apply first_pass_measure_decrease.
  - intros s _. apply first_pass_body_no_fuel_error.
  - simpl. lia.
Qed.

(** *** Array declarations *)

(** The first pass enters a declaration it is at into the table. *)
Lemma first_pass_body_declares i tb name size :
  array_decl_at tokens i name size → py_truthy name = true →
  first_pass_body tokens (i, tb) =
    Ok (i + 1, mkTables (labels tb) (flashes tb)
                 (dict_set (doctorstranges tb) name (size_entry size))).
Proof.
  intros Hd Hname. unfold first_pass_body.
  destruct Hd as [t t1 t2 n Ht Hty Ht1 Hty1 Hv1 Ht2 Hty2|t t1 Ht Hty Ht1 Hty1];
    rewrite Ht; unfold is_type; rewrite Hty; simpl;
    (assert ((i + 1 <? len) = true) as ->
       by (apply Nat.ltb_lt; by apply lookup_lt_Some in Ht1));
    rewrite Ht1, ?Hty1; simpl.
  - rewrite Ht2, Hty2. simpl. by rewrite Hname, Hv1.
  - by rewrite Hname.
Qed.

(** An iteration changes the array table at a declaration only, and
    then under the name the declaration gives. *)
Lemma first_pass_body_arrays j tb j' tb' :
  first_pass_body tokens (j, tb) = Ok (j', tb') →
  doctorstranges tb' = doctorstranges tb ∨
  ∃ name size, array_named_at tokens j name ∧
               doctorstranges tb' = dict_set (doctorstranges tb) name size.
Proof.
  unfold first_pass_body.
  destruct (tokens !! j) as [token|] eqn:Htok; [|discriminate].
  destruct (is_type FALCON token).
  { intros (l & _ & [= _ <-])%bind_Ok. by left. }
  destruct (is_type FLASH token).
  { destruct (has_type tokens IDENTIFIER (j + 1)); [|intros [= _ <-]; by left].
    destruct (tokens !! (j + 1)); [|discriminate].
    intros (name & _ & ([i b] & _ & [= _ <-])%bind_Ok)%bind_Ok. by left. }
  destruct (is_type DOCTORSTRANGE token) eqn:Hds; [|intros [= _ <-]; by left].
  apply bool_decide_eq_true in Hds.
  destruct (j + 1 <? len); [|intros [= _ <-]; by left].
  destruct (tokens !! (j + 1)) as [t1|] eqn:Ht1; [|intros [= _ <-]; by left].
  destruct (is_type NUMBER t1) eqn:Hnum.
  { apply bool_decide_eq_true in Hnum.
    destruct (tokens !! (j + 2)) as [t2|] eqn:Ht2; [|intros [= _ <-]; by left].
    destruct (is_type IDENTIFIER t2) eqn:Hid; [|intros [= _ <-]; by left].
    apply bool_decide_eq_true in Hid.
    destruct (py_truthy (value t2)); intros [= _ <-]; [|by left].
    right. exists (value t2), (value t1). split; [|done].
    by apply (named_sized tokens j _ token t1 t2). }
  destruct (is_type IDENTIFIER t1) eqn:Hid; [|intros [= _ <-]; by left].
  apply bool_decide_eq_true in Hid.
  destruct (py_truthy (value t1)); intros [= _ <-]; [|by left].
  right. exists (value t1), PNone. split; [|done].
  by apply (named_unsized tokens j _ token t1).
Qed.

(** The keys of the array table stay distinct. *)
Lemma first_pass_NoDup fuel st st' :
  List.NoDup (map fst (doctorstranges (snd st))) →
  while (first_pass_cond tokens) (first_pass_body tokens) fuel st = Ok st' →
  List.NoDup (map fst (doctorstranges (snd st'))).
Proof.
  apply (while_invariant _ _
           (fun s => List.NoDup (map fst (doctorstranges (snd s))))).
  intros [j tb] [j' tb'] Hnd _ Hb. simpl in *.
  apply first_pass_body_arrays in Hb as [->|(name & size & _ & ->)];
    [done|by apply dict_set_NoDup].
Qed.

(** The entry of a name that no later declaration gives again stays to the
    end of the pass. *)
Lemma first_pass_keeps_entry i name size fuel tb st' :
  (∀ j, i < j → ¬ array_named_at tokens j name) →
  dict_get (doctorstranges tb) name = Some size →
  while (first_pass_cond tokens) (first_pass_body tokens) fuel (i + 1, tb) = Ok st' →
  dict_get (doctorstranges (snd st')) name = Some size.
Proof.
  intros Hlater Hget Hw.
  apply (while_invariant _ _
           (fun s => i < fst s ∧ dict_get (doctorstranges (snd s)) name = Some size)
           _ _ _) in Hw as [_ H]; [done| |simpl; split; [lia|done]].
  intros [j tb1] [j' tb2] [Hj Hg] _ Hb. simpl in *. split.
  { apply first_pass_body_progress in Hb. lia. }
  apply first_pass_body_arrays in Hb as [->|(name' & sz & Hnamed & ->)]; [done|].
  rewrite dict_get_set_ne; [done|]. intros ->. by apply (Hlater j).
Qed.
End Tokens.

End ResolverFacts.

(** ** Labels in the first pass *)

Module LabelFacts.
Import SuperHeroParser Vocabulary.

(** At a label definition the first pass registers the name, without its
    trailing colon, and moves on by three tokens: by two in the branch, and
    by one more at the end of the iteration. *)
Lemma first_pass_body_falcon tokens i tb t t1 s :
  tokens !! i = Some t → type t = FALCON →
  tokens !! (i + 1) = Some t1 → type t1 = IDENTIFIER → value t1 = PStr s →
  first_pass_body tokens (i, tb) =
    Ok (i + 3,
        mkTables ({[if endswith_colon s then drop_last s else s]} ∪ labels tb)
                 (flashes tb) (doctorstranges tb)).
Proof.
  intros Ht Hty Ht1 Hty1 Hv. unfold first_pass_body, has_type, is_type.
  rewrite Ht, Ht1, Hty, Hty1, Hv. simpl.
  by replace (i + 2 + 1) with (i + 3) by lia.
Qed.

(** Even when no name follows, the scan moves on by three tokens. *)
Lemma first_pass_body_falcon_malformed tokens i tb t :
  tokens !! i = Some t → type t = FALCON → has_type tokens IDENTIFIER (i + 1) = false →
  first_pass_body tokens (i, tb) = Ok (i + 3, tb).
Proof.
  intros Ht Hty Hn. unfold first_pass_body, is_type. rewrite Ht, Hty, Hn. simpl.
  destruct tb. by replace (i + 2 + 1) with (i + 3) by lia.
Qed.

(** C1: on the two label definitions [falcon a] and [falcon b], the first
    pass registers [a] and then resumes three tokens further, not two: it
    steps over the second [falcon] keyword and never registers [b]. *)
Theorem first_pass_falcon_skips_three :
  SuperHeroLexer.tokenize ("falcon a" +:+ nls +:+ "falcon b") = Ok two_labels ∧
  first_pass_body two_labels (0, init_tables) = Ok (3, mkTables {["a"]} ∅ []) ∧
  first_pass two_labels = Ok (mkTables {["a"]} ∅ []) ∧
  "b" ∉ ({["a"]} : gset string).
Proof.
  repeat split; try (vm_compute; reflexivity).
  intros H%elem_of_singleton. discriminate.
Qed.

(** The token stepped over may be the keyword of an array declaration: the
    array of the second line never enters the array table, though the
    second pass builds its instruction. *)
Lemma label_skip_hides_array :
  ∃ tokens,
    SuperHeroLexer.tokenize ("falcon start" +:+ nls +:+ "doctorstrange 5 arr")
      = Ok tokens ∧
    parse tokens =
      Ok ([Falcon (PStr "start"); Doctorstrange (PStr "arr") (PInt 5)],
          mkTables {["start"]} ∅ []).
Proof. eexists. split; vm_compute; reflexivity. Qed.

End LabelFacts.

(** ** The second pass *)

Module ParseFacts.
Import SuperHeroParser ResolverFacts Vocabulary.

Section Tokens.
Variable tokens : list Token.
Variable flashes_tb : gmap string (list Token).

Local Abbreviation len := (length tokens).

Lemma advance_in_range current t :
  tokens !! current = Some t → advance tokens current = Ok (t, current + 1).
Proof.
  intros Ht. unfold advance, is_at_end.
  assert ((len <=? current) = false) as ->
    by (apply Nat.leb_gt; by apply lookup_lt_Some in Ht).
  unfold previous. rewrite Nat.add_1_r, Ht. done.
Qed.

Lemma advance_mono current t current' :
  advance tokens current = Ok (t, current') → current ≤ current'.
Proof.
  unfold advance. intros (t' & _ & [= _ <-])%bind_Ok.
  destruct (is_at_end tokens current); lia.
Qed.

Lemma advance_no_fuel_error current : advance tokens current ≠ Err OutOfFuel.
Proof.
  unfold advance. intros [H|(t & _ & H)]%bind_Err; [|discriminate].
  unfold previous in H. repeat (case_match; try discriminate).
Qed.

Lemma take_mono ty x current v current' :
  take tokens ty x current = Ok (v, current') → current ≤ current'.
Proof.
  unfold take. destruct (peek_is tokens ty current); [|intros [= _ <-]; lia].
  intros ([t c] & Ha%advance_mono & [= _ <-])%bind_Ok. done.
Qed.

Lemma take_no_fuel_error ty x current : take tokens ty x current ≠ Err OutOfFuel.
Proof.
  unfold take. destruct (peek_is tokens ty current); [|discriminate].
  intros [H|([t c] & _ & H)]%bind_Err; [|discriminate].
  by apply advance_no_fuel_error in H.
Qed.

Lemma strip_colon_no_fuel_error v : strip_colon v ≠ Err OutOfFuel.
Proof. by destruct v. Qed.

(** Takes a chain of reads of tokens apart, keeping how far each moved. *)
Ltac reads :=
  repeat match goal with
    | H : (_ ≫= _) = Ok _ |- _ => apply bind_Ok in H as (? & ? & H)
    | H : (let '(_, _) := ?x in _) = _ |- _ => destruct x
    | H : (if ?b then _ else _) = Ok _ |- _ => destruct b
    | H : Ok _ = Ok _ |- _ => injection H as ?; subst
    | H : Err _ = Ok _ |- _ => discriminate H
    | H : advance _ _ = Ok _ |- _ => apply advance_mono in H
    | H : take _ _ _ _ = Ok _ |- _ => apply take_mono in H
    | H : strip_colon _ = Ok _ |- _ => clear H
    end.

(** Takes a chain of reads that failed apart. *)
Ltac failed_reads :=
  repeat match goal with
    | H : (_ ≫= _) = Err _ |- _ => apply bind_Err in H as [H|(? & ? & H)]
    | H : (let '(_, _) := ?x in _) = _ |- _ => destruct x
    | H : (if ?b then _ else _) = Err _ |- _ => destruct b
    | H : Ok _ = Err _ |- _ => discriminate H
    | H : Err _ = Err OutOfFuel |- _ => discriminate H
    | H : advance _ _ = Err OutOfFuel |- _ => by apply advance_no_fuel_error in H
    | H : take _ _ _ _ = Err OutOfFuel |- _ => by apply take_no_fuel_error in H
    | H : strip_colon _ = Err OutOfFuel |- _ => by apply strip_colon_no_fuel_error in H
    end.

Lemma parse_arith_progress mk current t st current' :
  tokens !! current = Some t →
  parse_arith tokens mk current = Ok (st, current') → current < current'.
Proof.
  intros Ht. unfold parse_arith. rewrite (advance_in_range _ _ Ht), bind_Ok_l.
  intros H. reads; lia.
Qed.

Lemma parse_arith_no_fuel_error mk current :
  parse_arith tokens mk current ≠ Err OutOfFuel.
Proof. unfold parse_arith. intros H. failed_reads. Qed.

(** A statement takes at least the token it starts with. *)
Lemma parse_statement_progress current t st current' :
  tokens !! current = Some t →
  parse_statement tokens flashes_tb current = Ok (st, current') →
  current < current'.
Proof.
  intros Ht. unfold parse_statement. rewrite Ht.
  destruct (type t); try (by eapply parse_arith_progress);
    rewrite (advance_in_range _ _ Ht), bind_Ok_l; intros H; reads; lia.
Qed.

Lemma parse_statement_no_fuel_error current :
  parse_statement tokens flashes_tb current ≠ Err OutOfFuel.
Proof.
  unfold parse_statement. destruct (tokens !! current) as [t|]; [|discriminate].
  destruct (type t); try (by apply parse_arith_no_fuel_error);
    intros H; failed_reads.
Qed.

Lemma parse_body_progress current cb current' cb' :
  parse_cond tokens (current, cb) = true →
  parse_body tokens flashes_tb (current, cb) = Ok (current', cb') →
  current < current'.
Proof.
  unfold parse_cond, is_at_end, parse_body. simpl.
  intros Hc%negb_true_iff%Nat.leb_gt.
  destruct (lookup_lt_is_Some_2 tokens current Hc) as [t Ht].
  intros ([st c] & Hs & H)%bind_Ok.
  apply (parse_statement_progress _ _ _ _ Ht) in Hs.
  destruct st; injection H as <- _; done.
Qed.

(** The instructions built so far stay in the list. *)
Lemma parse_body_keeps current cb current' cb' n :
  parse_body tokens flashes_tb (current, cb) = Ok (current', cb') →
  In n cb → In n cb'.
Proof.
  unfold parse_body. intros ([st c] & _ & H)%bind_Ok Hn.
  destruct st; injection H as _ <-; [|done]. apply in_or_app. by left.
Qed.

Lemma parse_while_keeps fuel st st' n :
  while (parse_cond tokens) (parse_body tokens flashes_tb) fuel st = Ok st' →
  In n (snd st) → In n (snd st').
Proof.
  intros Hw Hn. revert Hw.
  apply (while_invariant _ _ (fun s => In n (snd s))); [|done].
  intros [c cb] [c' cb'] Hin _ Hb. simpl in *. by eapply parse_body_keeps.
Qed.

Lemma parse_while_terminates st :
  while (parse_cond tokens) (parse_body tokens flashes_tb) len st ≠ Err OutOfFuel.
Proof.
  apply (while_terminates _ _ (fun s => len - fst s)).
  - intros [c cb]. unfold parse_cond, is_at_end. simpl.
    intros Hc%negb_true_iff%Nat.leb_gt. lia.
  - intros [c cb] [c' cb'] Hc Hb. pose proof (parse_body_progress _ _ _ _ Hc Hb).
    unfold parse_cond, is_at_end in Hc. simpl in *.
    apply negb_true_iff, Nat.leb_gt in Hc. lia.
  - intros [c cb] _. unfold parse_body.
    intros [H|([stm c'] & _ & H)]%bind_Err.
    + by apply parse_statement_no_fuel_error in H.
    + by destruct stm.
  - lia.
Qed.

(** *** Labels and jumps *)

Lemma peek_is_of ty i t :
  tokens !! i = Some t → type t = ty → peek_is tokens ty i = true.
Proof.
  intros Ht Hty. unfold peek_is, is_at_end.
  rewrite (has_type_of tokens ty i t) by done.
  assert ((len <=? i) = false) as ->; [|done].
  apply Nat.leb_gt. by apply lookup_lt_Some in Ht.
Qed.

Lemma parse_statement_falcon p name :
  label_def_at tokens p name →
  parse_statement tokens flashes_tb p = Ok (Some (Falcon (PStr name)), p + 2).
Proof.
  intros [t t1 Ht Hty Ht1 Hty1 Hname]. unfold parse_statement.
  rewrite Ht, Hty, (advance_in_range _ _ Ht), bind_Ok_l.
  rewrite (peek_is_of IDENTIFIER _ t1), (advance_in_range _ _ Ht1), bind_Ok_l by done.
  rewrite Hname, bind_Ok_l. by replace (p + 1 + 1) with (p + 2) by lia.
Qed.

Lemma parse_statement_hawkeye q target :
  jump_at tokens q target →
  parse_statement tokens flashes_tb q = Ok (Some (Hawkeye (PStr target)), q + 2).
Proof.
  intros [t t1 Ht Hty Ht1 Hty1 Hv]. unfold parse_statement.
  rewrite Ht, Hty, (advance_in_range _ _ Ht), bind_Ok_l. unfold take.
  rewrite (peek_is_of IDENTIFIER _ t1), (advance_in_range _ _ Ht1), !bind_Ok_l by done.
  rewrite Hv. by replace (q + 1 + 1) with (q + 2) by lia.
Qed.

(** The instruction of a statement the loop arrives at is in the list that
    the loop returns. *)
Lemma parse_reached_statement fuel st0 current cb n current' st' :
  reaches (parse_cond tokens) (parse_body tokens flashes_tb) st0 (current, cb) →
  current < len →
  parse_statement tokens flashes_tb current = Ok (Some n, current') →
  while (parse_cond tokens) (parse_body tokens flashes_tb) fuel st0 = Ok st' →
  In n (snd st').
Proof.
  intros Hr Hlt Hs Hw.
  destruct (while_from_reached _ _ _ _ _ _ Hr Hw) as [fuel' Hfuel].
  apply while_Ok_step in Hfuel as (fuel'' & st1 & Hb & Hfuel).
  - unfold parse_body in Hb. rewrite Hs, bind_Ok_l in Hb. injection Hb as <-.
    apply (parse_while_keeps _ _ _ n) in Hfuel; [done|].
    simpl. apply in_or_app. right. by left.
  - unfold parse_cond, is_at_end. simpl. by apply negb_true_iff, Nat.leb_gt.
Qed.
End Tokens.

(** The parser never stops for lack of fuel. *)
Lemma parse_no_fuel_error tokens : parse tokens ≠ Err OutOfFuel.
Proof.
  unfold parse. intros [H|(tb & _ & H)]%bind_Err.
  - by apply first_pass_no_fuel_error in H.
  - apply bind_Err in H as [H|(st & _ & H)]; [|discriminate].
    by apply parse_while_terminates in H.
Qed.

End ParseFacts.

(** * Properties of the code generator *)

(** ** The generated chunks *)

Module GeneratorFacts.
Import CodeGenerator.

Lemma declare_arrays_eq ds code : declare_arrays ds code = code ++ map array_decl ds.
Proof.
  unfold declare_arrays. revert code.
  induction ds as [|e ds IH]; intros code; simpl; [by rewrite app_nil_r|].
  by rewrite IH, <- app_assoc.
Qed.

Lemma generate_nodes_eq ds ast code :
  generate_nodes ds ast code = code ++ concat (map (generate_node ds 1) ast).
Proof.
  unfold generate_nodes. revert code.
  induction ast as [|n ast IH]; intros code; simpl; [by rewrite app_nil_r|].
  by rewrite IH, <- app_assoc.
Qed.

Lemma generate_code_eq nt ds ast :
  generate_code nt ds ast =
    [c_headers; if nt then c_windows_headers else c_unix_headers; c_globals]
    ++ map array_decl ds ++ [c_helpers]
    ++ concat (map (generate_node ds 1) ast) ++ [c_epilogue].
Proof.
  unfold generate_code. rewrite generate_nodes_eq, declare_arrays_eq.
  simpl. by rewrite <- !app_assoc.
Qed.

(** The buffer of every entry of the table is declared. *)
Lemma generate_code_array nt ds ast entry :
  In entry ds → In (array_decl entry) (generate_code nt ds ast).
Proof.
  intros H. rewrite generate_code_eq. apply in_or_app. right.
  apply in_or_app. left. by apply in_map.
Qed.

(** The lines of every instruction are generated. *)
Lemma generate_code_node nt ds ast n line :
  In n ast → In line (generate_node ds 1 n) → In line (generate_code nt ds ast).
Proof.
  intros Hn Hl. rewrite generate_code_eq. apply in_or_app. right.
  apply in_or_app. right. apply in_or_app. right. apply in_or_app. left.
  apply in_concat. exists (generate_node ds 1 n). split; [|done]. by apply in_map.
Qed.

End GeneratorFacts.

(** ** Conditional jumps *)

Module SpidermanFacts.
Import CodeGenerator Vocabulary.

(** C7: a conditional jump whose left operand is the current cell and whose
    right operand is the literal 0 is lowered to a conditional that compares
    the cell under the cursor with 0, whatever the operator; with the
    [empty] marker as right operand the generated lines are the same. *)
Theorem spiderman_zero_and_empty ds target op :
  generate_node ds 1 (Spiderman target (PStr "vision") op (PInt 0)) =
    [ "    if (tape[ptr] " +:+ py_str op +:+ " 0) {";
      "        goto " +:+ py_str target +:+ ";";
      "    }" ] ∧
  generate_node ds 1 (Spiderman target (PStr "vision") op (PStr "empty")) =
    generate_node ds 1 (Spiderman target (PStr "vision") op (PInt 0)).
Proof. split; reflexivity. Qed.

(** The same from the source text: both spellings compile to the same C. *)
Lemma spiderman_zero_and_empty_source nt :
  compile_to_c nt "spiderman done vision > 0" =
  compile_to_c nt "spiderman done vision > empty".
Proof. destruct nt; vm_compute; reflexivity. Qed.

(** C2, as the specification states it, fails: a conditional jump with no
    operator and no operands is still lowered to a conditional statement. *)
Lemma spiderman_absent_parts_not_refused :
  ¬ (∀ ds target left_ op right_,
       left_ = PNone ∨ op = PNone ∨ right_ = PNone →
       emits_conditional
         (generate_node ds 1 (Spiderman target left_ op right_)) = false).
Proof.
  intros H.
  specialize (H [] (PStr "loop") PNone PNone PNone (or_introl eq_refl)).
  vm_compute in H. discriminate.
Qed.

(** C2, amended: every conditional jump, also one with an absent left
    operand, operator or right operand, is lowered without validation to the
    three lines of a conditional statement [if (L OP R) { goto T; }]; each
    part is rendered as [str] renders it, so that an absent part is the
    text [None]. *)
Theorem spiderman_lowered_without_validation ds target left_ op right_ :
  generate_node ds 1 (Spiderman target left_ op right_) =
    [ "    if (" +:+ operand_text left_ +:+ " " +:+ py_str op +:+ " "
        +:+ right_operand_text right_ +:+ ") {";
      "        goto " +:+ py_str target +:+ ";";
      "    }" ] ∧
  emits_conditional (generate_node ds 1 (Spiderman target left_ op right_))
    = true ∧
  operand_text PNone = "None" ∧ py_str PNone = "None" ∧
  right_operand_text PNone = "None" ∧
  generate_node ds 1 (Spiderman target PNone PNone PNone) =
    [ "    if (None None None) {";
      "        goto " +:+ py_str target +:+ ";";
      "    }" ].
Proof. split; [reflexivity|]. split; [vm_compute; reflexivity|]. by repeat split. Qed.

(** The builder leaves the missing parts absent, and the whole pipeline
    accepts the statement. *)
Lemma spiderman_bare_source :
  ∃ c, compile_to_c false "spiderman" = Ok c ∧
       contains "if (None None None) {" c = true.
Proof. eexists. split; [vm_compute; reflexivity | vm_compute; reflexivity]. Qed.

End SpidermanFacts.

(** ** Reading input *)

Module HulkFacts.
Import CodeGenerator Vocabulary.

(** How the read instruction is lowered: a string operand is passed whole,
    as written, between single quotes as the character argument of [hulk];
    an integer operand is passed as the value to store; without operand
    both arguments are the markers for an interactive read. *)
Lemma hulk_lowering ds s n :
  generate_node ds 1 (Hulk [PStr s]) = ["    hulk(-1, '" +:+ s +:+ "');"] ∧
  generate_node ds 1 (Hulk [PInt n]) = ["    hulk(" +:+ pretty n +:+ ", 0);"] ∧
  generate_node ds 1 (Hulk []) = ["    hulk(-1, 0);"] ∧
  SuperHeroParser.parse
    [mkToken HULK (PStr "hulk") 1 (Some 0); mkToken STRING (PStr s) 1 None] =
    Ok ([Hulk [PStr s]], SuperHeroParser.init_tables) ∧
  SuperHeroParser.parse
    [mkToken HULK (PStr "hulk") 1 (Some 0); mkToken NUMBER (PInt n) 1 None] =
    Ok ([Hulk [PInt n]], SuperHeroParser.init_tables) ∧
  SuperHeroParser.parse [mkToken HULK (PStr "hulk") 1 (Some 0)] =
    Ok ([Hulk []], SuperHeroParser.init_tables).
Proof. repeat split; reflexivity. Qed.

(** C4: the function [hulk] of the generated C takes one [char], and the
    generator writes a character constant for it, but puts the whole
    string operand between the single quotes: the two characters of the
    operand of the first program, and none for the empty operand of the
    second.  Neither constant is the first character of the string. *)
Theorem hulk_string_in_char_constant :
  contains "void hulk(int direct_val, char direct_char) {" c_helpers = true ∧
  SuperHeroLexer.tokenize ("hulk " +:+ dqs +:+ "AB" +:+ dqs) = Ok hulk_two_chars ∧
  SuperHeroParser.parse hulk_two_chars =
    Ok ([Hulk [PStr "AB"]], SuperHeroParser.init_tables) ∧
  generate_node [] 1 (Hulk [PStr "AB"]) = ["    hulk(-1, 'AB');"] ∧
  SuperHeroLexer.tokenize ("hulk " +:+ dqs +:+ dqs) = Ok hulk_no_char ∧
  SuperHeroParser.parse hulk_no_char =
    Ok ([Hulk [PStr EmptyString]], SuperHeroParser.init_tables) ∧
  generate_node [] 1 (Hulk [PStr EmptyString]) = ["    hulk(-1, '');"] ∧
  (∀ nt, ∃ c,
     compile_to_c nt ("hulk " +:+ dqs +:+ "AB" +:+ dqs) = Ok c ∧
     contains "    hulk(-1, 'AB');" c = true).
Proof.
  repeat split; try (vm_compute; reflexivity).
  intros [|]; eexists; (split; [vm_compute; reflexivity|vm_compute; reflexivity]).
Qed.

End HulkFacts.

(** ** Addition and subtraction *)

Module ArithFacts.
Import CodeGenerator.

(** C10: in [add] and [sub], an integer literal on the left is an address
    on the tape, lowered like a cell reference; an integer literal on the
    right is the value itself, where a cell reference is the cell. *)
Theorem arith_operands_asymmetric ds n k right_ right_is_cell :
  generate_node ds 1 (Add (PInt n) right_ false right_is_cell) =
    generate_node ds 1 (Add (PInt n) right_ true right_is_cell) ∧
  generate_node ds 1 (Sub (PInt n) right_ false right_is_cell) =
    generate_node ds 1 (Sub (PInt n) right_ true right_is_cell) ∧
  generate_node ds 1 (Add (PInt n) (PInt k) false false) =
    ["    tape[" +:+ pretty n +:+ "] += " +:+ pretty k +:+ ";"] ∧
  generate_node ds 1 (Add (PInt n) (PInt k) false true) =
    ["    tape[" +:+ pretty n +:+ "] += tape[" +:+ pretty k +:+ "];"] ∧
  generate_node ds 1 (Sub (PInt n) (PInt k) false false) =
    ["    tape[" +:+ pretty n +:+ "] -= " +:+ pretty k +:+ ";"] ∧
  generate_node ds 1 (Sub (PInt n) (PInt k) false true) =
    ["    tape[" +:+ pretty n +:+ "] -= tape[" +:+ pretty k +:+ "];"] ∧
  SuperHeroParser.parse
    [ mkToken ADD (PStr "add") 1 (Some 0); mkToken NUMBER (PInt n) 1 None;
      mkToken NUMBER (PInt k) 1 None ] =
    Ok ([Add (PInt n) (PInt k) false false], SuperHeroParser.init_tables) ∧
  SuperHeroParser.parse
    [ mkToken SUB (PStr "sub") 1 (Some 0); mkToken CELL_REF (PInt n) 1 None;
      mkToken CELL_REF (PInt k) 1 None ] =
    Ok ([Sub (PInt n) (PInt k) true true], SuperHeroParser.init_tables).
Proof.
  repeat split; try reflexivity;
    cbv [generate_node arith_left arith_right tape_at py_str indent repeat_str];
    simpl; by rewrite !append_assoc.
Qed.

(** From the source text: [add 3 4] adds the value 4 to cell 3. *)
Lemma arith_source :
  ∃ c, compile_to_c false "add 3 4 sub #3 #4" = Ok c ∧
       contains "    tape[3] += 4;" c = true ∧
       contains "    tape[3] -= tape[4];" c = true.
Proof. eexists. repeat split; vm_compute; reflexivity. Qed.

End ArithFacts.

(** ** Array buffers *)

Module ArrayFacts.
Import SuperHeroParser CodeGenerator ResolverFacts Vocabulary.

Lemma array_decl_buffer name size :
  array_decl (name, size_entry size) = buffer_decl name (default 1024%Z size).
Proof. by destruct size. Qed.

(** C5, as the specification states it, fails: the first line declares the
    array [a] with the explicit size 5, and the generated source declares no
    buffer of capacity 5 for it, because the second declaration of [a],
    without size, replaces the entry of the first. *)
Lemma redeclared_array_loses_size :
  SuperHeroLexer.tokenize ("doctorstrange 5 a" +:+ nls +:+ "doctorstrange a")
    = Ok redeclared ∧
  array_decl_at redeclared 0 (PStr "a") (Some 5%Z) ∧
  parse redeclared =
    Ok ([Doctorstrange (PStr "a") (PInt 5); Doctorstrange (PStr "a") PNone],
        mkTables ∅ ∅ [(PStr "a", PNone)]) ∧
  ¬ In (buffer_decl (PStr "a") 5) (generate_code false [(PStr "a", PNone)]
          [Doctorstrange (PStr "a") (PInt 5); Doctorstrange (PStr "a") PNone]) ∧
  contains "doctorstrange_a[5]"
    (generate false [(PStr "a", PNone)]
       [Doctorstrange (PStr "a") (PInt 5); Doctorstrange (PStr "a") PNone]) = false.
Proof.
  split; [vm_compute; reflexivity|]. split.
  { by apply (sized_decl redeclared 0 _ _ (mkToken IDENTIFIER (PStr "a") 1 None) 5%Z
                eq_refl eq_refl eq_refl eq_refl eq_refl eq_refl). }
  split; [vm_compute; reflexivity|]. split; [|vm_compute; reflexivity].
  vm_compute. intros H. repeat (destruct H as [H|H]; [discriminate|]). done.
Qed.

(** C5, amended: let the first pass arrive at an array declaration, and let
    no later declaration give the same name again.  Then the table holds
    one entry for the name, with the declared size or none, and the
    generated source declares the buffer of the array with capacity exactly
    the declared size, or 1024 when the declaration gives no size. *)
Theorem array_buffer_capacity nt tokens ast tb i tb_i name size :
  parse tokens = Ok (ast, tb) →
  reaches (first_pass_cond tokens) (first_pass_body tokens) (0, init_tables) (i, tb_i) →
  array_decl_at tokens i name size →
  py_truthy name = true →
  (∀ j, i < j → ¬ array_named_at tokens j name) →
  (∀ size', In (name, size') (doctorstranges tb) ↔ size' = size_entry size) ∧
  In (buffer_decl name (default 1024%Z size)) (generate_code nt (doctorstranges tb) ast) ∧
  contains (buffer_decl name (default 1024%Z size))
    (generate nt (doctorstranges tb) ast) = true.
Proof.
  intros Hparse Hreach Hdecl Hname Hlater.
  unfold parse in Hparse. apply bind_Ok in Hparse as (tb0 & Hfp & Hparse).
  apply bind_Ok in Hparse as (pst & _ & [= _ <-]).
  unfold first_pass in Hfp. apply bind_Ok in Hfp as (st & Hw & [= <-]).
  assert (List.NoDup (map fst (doctorstranges (snd st)))) as Hnd.
  { apply (first_pass_NoDup tokens (length tokens) (0, init_tables) st);
      [apply List.NoDup_nil|done]. }
  destruct (while_from_reached _ _ _ _ _ _ Hreach Hw) as [fuel Hfuel].
  assert (first_pass_cond tokens (i, tb_i) = true) as Hcond.
  { unfold first_pass_cond. apply Nat.ltb_lt. simpl.
    destruct Hdecl as [t ? ? ? Ht|t ? Ht]; by apply lookup_lt_Some in Ht. }
  apply while_Ok_step in Hfuel as (fuel' & st1 & Hbody & Hfuel); [|done].
  rewrite (first_pass_body_declares _ _ _ _ _ Hdecl Hname) in Hbody.
  injection Hbody as <-.
  apply (first_pass_keeps_entry tokens i name (size_entry size) _ _ _ Hlater)
    in Hfuel; [|apply dict_get_set_eq].
  assert (In (buffer_decl name (default 1024%Z size))
            (generate_code nt (doctorstranges (snd st)) ast)) as Hin.
  { rewrite <- array_decl_buffer.
    by apply GeneratorFacts.generate_code_array, dict_get_In. }
  split; [|split; [done|by apply contains_join]].
  intros size'. split.
  - by apply dict_NoDup_In.
  - intros ->. by apply dict_get_In.
Qed.

(** Decides the hypothesis on later declarations for a program of at most
    [n] tokens. *)
Ltac lookups :=
  repeat match goal with
    | H : _ !! _ = Some _ |- _ => vm_compute in H; simplify_eq/=
    end.

Tactic Notation "no_later_declaration" integer(n) :=
  let j := fresh "j" in
  let Hj := fresh "Hj" in
  let H := fresh "H" in
  intros j Hj H;
  do n (destruct j as [|j]; [try lia; destruct H; lookups|]);
  destruct H; lookups.

Lemma array_buffer_capacity_witness :
  In "uint8_t doctorstrange_a[5] = {0};"
     (generate_code false [(PStr "a", PInt 5); (PStr "b", PNone)]
        [ Doctorstrange (PStr "a") (PInt 5); Doctorstrange (PStr "b") PNone;
          Captainamerica (PStr "a") ]) ∧
  In "uint8_t doctorstrange_b[1024] = {0};"
     (generate_code false [(PStr "a", PInt 5); (PStr "b", PNone)]
        [ Doctorstrange (PStr "a") (PInt 5); Doctorstrange (PStr "b") PNone;
          Captainamerica (PStr "a") ]).
Proof.
  assert (parse two_arrays =
            Ok ([ Doctorstrange (PStr "a") (PInt 5); Doctorstrange (PStr "b") PNone;
                  Captainamerica (PStr "a") ],
                mkTables ∅ ∅ [(PStr "a", PInt 5); (PStr "b", PNone)])) as Hparse
    by (vm_compute; reflexivity).
  split.
  - apply (array_buffer_capacity false two_arrays _ _ 0 init_tables (PStr "a")
             (Some 5%Z) Hparse).
    + apply reaches_here.
    + by apply (sized_decl two_arrays 0 _ _ (mkToken IDENTIFIER (PStr "a") 1 None) 5%Z
                  eq_refl eq_refl eq_refl eq_refl eq_refl eq_refl).
    + reflexivity.
    + no_later_declaration 7.
  - apply (array_buffer_capacity false two_arrays _ _ 3
             (mkTables ∅ ∅ [(PStr "a", PInt 5)]) (PStr "b") None Hparse).
    + do 3 (eapply reaches_step; [reflexivity|vm_compute; reflexivity|]).
      apply reaches_here.
    + by apply (unsized_decl two_arrays 3 _ (mkToken IDENTIFIER (PStr "b") 2 None)
                  eq_refl eq_refl eq_refl).
    + reflexivity.
    + no_later_declaration 7.
Defined.

End ArrayFacts.

(** ** Labels and jumps *)

Module JumpFacts.
Import SuperHeroParser CodeGenerator ParseFacts Vocabulary.

(** C6: let the second pass arrive at the definition of a label, whose
    name is the identifier after the keyword without its trailing colon, and
    later at a jump whose target identifier is that name.  Then the
    instruction list holds the label and the jump, and the generated source
    holds the label statement and the jump statement, both written with the
    same identifier: the name as the label was defined, the target as the
    jump gives it. *)
Theorem label_and_jump_match nt tokens ast tb p cb_p q cb_q name :
  parse tokens = Ok (ast, tb) →
  reaches (parse_cond tokens) (parse_body tokens (flashes tb)) (0, []) (p, cb_p) →
  reaches (parse_cond tokens) (parse_body tokens (flashes tb)) (p, cb_p) (q, cb_q) →
  label_def_at tokens p name →
  jump_at tokens q name →
  (In (Falcon (PStr name)) ast ∧ In (Hawkeye (PStr name)) ast) ∧
  (generate_node (doctorstranges tb) 1 (Falcon (PStr name)) = [label_line name] ∧
   generate_node (doctorstranges tb) 1 (Hawkeye (PStr name)) = [goto_line name]) ∧
  (In (label_line name) (generate_code nt (doctorstranges tb) ast) ∧
   In (goto_line name) (generate_code nt (doctorstranges tb) ast)) ∧
  (contains (label_line name) (generate nt (doctorstranges tb) ast) = true ∧
   contains (goto_line name) (generate nt (doctorstranges tb) ast) = true).
Proof.
  intros Hparse Hp Hq Hlabel Hjump.
  unfold parse in Hparse. apply bind_Ok in Hparse as (tb0 & _ & Hparse).
  apply bind_Ok in Hparse as (st & Hw & [= <- <-]).
  assert (In (Falcon (PStr name)) (snd st)) as Hf.
  { apply (parse_reached_statement tokens (flashes tb0) (length tokens) (0, [])
             p cb_p _ (p + 2) st Hp); [|by apply parse_statement_falcon|done].
    destruct Hlabel as [t ? Ht]. by apply lookup_lt_Some in Ht. }
  assert (In (Hawkeye (PStr name)) (snd st)) as Hh.
  { apply (parse_reached_statement tokens (flashes tb0) (length tokens) (0, [])
             q cb_q _ (q + 2) st (reaches_trans _ _ _ _ _ Hp Hq));
      [|by apply parse_statement_hawkeye|done].
    destruct Hjump as [t ? Ht]. by apply lookup_lt_Some in Ht. }
  assert (In (label_line name) (generate_code nt (doctorstranges tb0) (snd st))
          ∧ In (goto_line name) (generate_code nt (doctorstranges tb0) (snd st)))
    as [Hl Hg].
  { split.
    - apply (GeneratorFacts.generate_code_node _ _ _ (Falcon (PStr name))); [done|].
      by left.
    - apply (GeneratorFacts.generate_code_node _ _ _ (Hawkeye (PStr name))); [done|].
      by left. }
  repeat split; try done; by apply contains_join.
Qed.

Lemma label_and_jump_match_witness :
  In "loop:" (generate_code false [] [Falcon (PStr "loop"); Hawkeye (PStr "loop")]) ∧
  In "    goto loop;"
     (generate_code false [] [Falcon (PStr "loop"); Hawkeye (PStr "loop")]).
Proof.
  assert (parse loop_tokens =
            Ok ([Falcon (PStr "loop"); Hawkeye (PStr "loop")],
                mkTables {["loop"]} ∅ []))
    as Hparse by (vm_compute; reflexivity).
  apply (label_and_jump_match false loop_tokens _ _ 0 [] 3 [Falcon (PStr "loop")]
           "loop" Hparse).
  - apply reaches_here.
  - do 2 (eapply reaches_step; [reflexivity|vm_compute; reflexivity|]).
    apply reaches_here.
  - by apply (label_def loop_tokens 0 "loop" _ (mkToken IDENTIFIER (PStr "loop") 1 None)
                eq_refl eq_refl eq_refl).
  - by apply (jump loop_tokens 3 "loop" _ (mkToken IDENTIFIER (PStr "loop") 2 None)
                eq_refl eq_refl eq_refl).
Defined.

(** From the source text: the two lines give these tokens, and the body of
    [main] is one label statement and one jump statement. *)
Lemma label_and_jump_source :
  SuperHeroLexer.tokenize ("falcon loop:" +:+ nls +:+ "hawkeye loop") = Ok loop_tokens ∧
  parse loop_tokens =
    Ok ([Falcon (PStr "loop"); Hawkeye (PStr "loop")], mkTables {["loop"]} ∅ []) ∧
  concat (map (generate_node [] 1) [Falcon (PStr "loop"); Hawkeye (PStr "loop")]) =
    ["loop:"; "    goto loop;"].
Proof. repeat split; vm_compute; reflexivity. Qed.

End JumpFacts.

(** * Further properties of the lexer *)

(** ** Characters of a string *)

Module CharFacts.
Import Invariants.

Lemma string_forall_get p s i c :
  string_forall p s = true → String.get i s = Some c → p c = true.
Proof.
  revert i. induction s as [|a s IH]; intros i; simpl; [discriminate|].
  intros [Ha Hs]%andb_prop. destruct i as [|i]; [by intros [= <-]|]. by apply IH.
Qed.

Lemma string_forall_of_get p s :
  (∀ i c, String.get i s = Some c → p c = true) → string_forall p s = true.
Proof.
  induction s as [|a s IH]; intros H; simpl; [done|].
  rewrite (H 0 a eq_refl). apply IH. intros i c Hi. by apply (H (S i)).
Qed.

Lemma string_forall_append p s t :
  string_forall p (s +:+ t) = string_forall p s && string_forall p t.
Proof.
  induction s as [|a s IH]; [done|].
  rewrite append_cons. simpl. by rewrite IH, andb_assoc.
Qed.

(** A string that starts another holds the characters of its start. *)
Lemma startswith_forall p s prefix :
  startswith s prefix = true → string_forall p s = true →
  string_forall p prefix = true.
Proof.
  revert s. induction prefix as [|a prefix IH]; intros s; [done|].
  destruct s as [|b s]; simpl; [discriminate|].
  intros [Hab Hs]%andb_prop [Hb Hall]%andb_prop.
  apply Ascii.eqb_eq in Hab as ->. rewrite Hb. by apply (IH s).
Qed.

Lemma contains_forall p needle s :
  contains needle s = true → string_forall p s = true →
  string_forall p needle = true.
Proof.
  induction s as [|a s IH].
  - simpl. rewrite orb_false_r. intros H _.
    by apply (startswith_forall p EmptyString).
  - change (contains needle (String a s))
      with (startswith (String a s) needle || contains needle s).
    intros [H|H]%orb_prop Hall; [by eapply startswith_forall|].
    simpl in Hall. apply andb_prop in Hall as [_ Hall]. by apply IH.
Qed.

Lemma lstrip_nonspace s :
  string_forall (fun c => negb (py_isspace c)) s = true → lstrip s = s.
Proof.
  destruct s as [|a s]; simpl; [done|].
  intros [Ha _]%andb_prop. by apply negb_true_iff in Ha as ->.
Qed.

Lemma rstrip_nonspace_all s :
  string_forall (fun c => negb (py_isspace c)) s = true → rstrip s = s.
Proof.
  induction s as [|a s IH]; simpl; [done|].
  intros [Ha Hs]%andb_prop. rewrite (IH Hs).
  apply negb_true_iff in Ha as ->. by destruct s.
Qed.

Lemma strip_nonspace s :
  string_forall (fun c => negb (py_isspace c)) s = true → strip s = s.
Proof.
  intros H. unfold strip. rewrite lstrip_nonspace by done.
  by apply rstrip_nonspace_all.
Qed.

Lemma split_lines_one s :
  string_forall (fun c => negb (Ascii.eqb c nl)) s = true → split_lines s = [s].
Proof.
  induction s as [|a s IH]; simpl; [done|].
  intros [Ha Hs]%andb_prop. apply negb_true_iff in Ha as ->. by rewrite (IH Hs).
Qed.

Lemma string_forall_impl (p q : ascii → bool) s :
  (∀ c, p c = true → q c = true) →
  string_forall p s = true → string_forall q s = true.
Proof.
  intros Hpq. induction s as [|a s IH]; simpl; [done|].
  intros [Ha Hs]%andb_prop. by rewrite (Hpq a Ha), IH.
Qed.

(** *** Slices *)

Lemma substring_length s i m :
  i + m ≤ String.length s → String.length (String.substring i m s) = m.
Proof.
  revert i m. induction s as [|a s IH]; intros [|i] [|m]; simpl; try lia.
  - intros H. rewrite (IH 0 m); lia.
  - intros H. apply IH. lia.
  - intros H. apply IH. lia.
Qed.

Lemma substring_full s : String.substring 0 (String.length s) s = s.
Proof. induction s as [|a s IH]; simpl; [done|]. by rewrite IH. Qed.

Lemma substring_forall p s i m :
  (∀ k, i ≤ k < i + m → test_at p s k = true) →
  string_forall p (String.substring i m s) = true.
Proof.
  revert i m. induction s as [|a s IH]; intros i m H.
  - by destruct i, m.
  - destruct i as [|i].
    + destruct m as [|m]; simpl; [done|].
      pose proof (H 0 ltac:(lia)) as H0. unfold test_at in H0. simpl in H0.
      rewrite H0. apply (IH 0 m). intros k Hk.
      specialize (H (S k) ltac:(lia)). by unfold test_at in *.
    + simpl. apply IH. intros k Hk.
      specialize (H (S k) ltac:(lia)). by unfold test_at in *.
Qed.

Lemma substring_get_first s i m c :
  String.get i s = Some c → 0 < m →
  ∃ r, String.substring i m s = String c r.
Proof.
  revert i. induction s as [|a s IH]; intros [|i]; simpl; try discriminate.
  - intros [= ->] Hm. destruct m; [lia|]. eauto.
  - intros H Hm. by apply IH.
Qed.

(** *** The integer of a run of digits *)

Lemma py_isdecimal_isdigit c : py_isdecimal c = true → py_isdigit c = true.
Proof. unfold py_isdigit. by intros ->. Qed.

Lemma py_int_go_digits s acc after_digit :
  string_forall py_isdecimal s = true →
  (0 ≤ acc)%Z → s ≠ EmptyString ∨ after_digit = true →
  ∃ n, py_int_go s acc after_digit = Some n ∧ (0 ≤ n)%Z.
Proof.
  revert acc after_digit. induction s as [|a s IH]; intros acc b; simpl.
  - intros _ Hacc [?| ->]; [done|]. eauto.
  - intros [Ha Hs]%andb_prop Hacc _. rewrite Ha.
    apply IH; [done| |by right]. unfold digit_val. lia.
Qed.

Lemma py_int_go_nonneg s acc after_digit n :
  py_int_go s acc after_digit = Some n → (0 ≤ acc)%Z → (0 ≤ n)%Z.
Proof.
  revert acc after_digit. induction s as [|a s IH]; intros acc b; simpl.
  - destruct b; [|discriminate]. by intros [= <-].
  - destruct (py_isdecimal a).
    + intros H Hacc. apply IH in H; [done|]. unfold digit_val. lia.
    + destruct (Ascii.eqb a "_" && b); [|discriminate].
      destruct s; [discriminate|]. intros H Hacc. by apply IH in H.
Qed.

(** [int] returns a number for a text of the syntax that holds no more
    digits than the bound, and for no other. *)
Lemma py_int_Some s n :
  py_int s = Some n ↔
  count_digits s ≤ int_max_str_digits ∧ py_int_go s 0 false = Some n.
Proof.
  unfold py_int. destruct (int_max_str_digits <? count_digits s) eqn:Hb.
  - apply Nat.ltb_lt in Hb. split; [discriminate|]. intros [? _]. lia.
  - apply Nat.ltb_ge in Hb. tauto.
Qed.

Lemma py_int_too_long s : int_max_str_digits < count_digits s → py_int s = None.
Proof. intros H%Nat.ltb_lt. unfold py_int. by rewrite H. Qed.

Lemma py_int_nonneg s n : py_int s = Some n → (0 ≤ n)%Z.
Proof. intros [_ H]%py_int_Some. by apply py_int_go_nonneg in H. Qed.

Lemma count_digits_append s t :
  count_digits (s +:+ t) = count_digits s + count_digits t.
Proof.
  induction s as [|c s IH]; [done|]. rewrite append_cons. simpl. rewrite IH. lia.
Qed.

Lemma count_digits_decimal s :
  string_forall py_isdecimal s = true → count_digits s = String.length s.
Proof.
  induction s as [|c s IH]; simpl; [done|].
  intros [-> Hs]%andb_prop. by rewrite IH.
Qed.

End CharFacts.

(** ** What the lexer returns *)

Module LexerInvariants.
Import SuperHeroLexer Invariants CharFacts ScanFacts.

Section Line.
Variable line : string.
Variable line_num : nat.

Local Abbreviation len := (line_len line).

(** *** Runs of characters of one class *)

Lemma run_while_all p fuel i j :
  while (test_at p line) next_index fuel i = Ok j →
  ∀ k, i ≤ k < j → test_at p line k = true.
Proof.
  apply (while_invariant _ _ (fun j => ∀ k, i ≤ k < j → test_at p line k = true)).
  - intros s s' Hs Hc [= <-] k Hk.
    destruct (decide (k = s)) as [->|]; [done|]. apply Hs. lia.
  - intros k Hk. lia.
Qed.

Lemma run_while_le p fuel i j :
  i ≤ len → while (test_at p line) next_index fuel i = Ok j → j ≤ len.
Proof.
  intros Hi. apply (while_invariant _ _ (fun j => j ≤ len)); [|done].
  intros s s' _ Hc%test_at_lt [= <-]. lia.
Qed.

(** A run that finds its class to the end of the line ends there. *)
Lemma run_while_end p fuel i :
  (∀ k, i ≤ k < len → test_at p line k = true) → i ≤ len → len - i ≤ fuel →
  while (test_at p line) next_index fuel i = Ok len.
Proof.
  revert i. induction fuel as [|fuel IH]; intros i Hall Hi Hf.
  - assert (i = len) as -> by lia. rewrite while_O.
    destruct (test_at p line len) eqn:H; [|done]. apply test_at_lt in H. lia.
  - rewrite while_S. destruct (test_at p line i) eqn:Hc.
    + pose proof (test_at_lt _ _ _ Hc). unfold next_index. rewrite bind_Ok_l.
      apply IH; [|lia|lia]. intros k Hk. apply Hall. lia.
    + destruct (decide (i = len)) as [->|]; [done|].
      rewrite Hall in Hc by lia. discriminate.
Qed.

(** *** One iteration *)

Lemma dict_lookup_In {V} (d : list (string * V)) k v :
  dict_lookup d k = Some v → In v (map snd d).
Proof.
  induction d as [|[k' v'] d IH]; simpl; [discriminate|].
  destruct (String.eqb k' k); [intros [= ->]; by left|]. intros H. right. by apply IH.
Qed.

Lemma keyword_token_ok word ty :
  dict_lookup keywords word = Some ty →
  token_ok (new_token ty (PStr word) line_num) = true.
Proof.
  intros H. pose proof (dict_lookup_In _ _ _ H) as Hin.
  destruct ty; cbv [token_ok new_token type value];
    try (by apply bool_decide_eq_true);
    exfalso; cbv [keywords map snd In] in Hin;
    repeat (destruct Hin as [Hin|Hin]; [discriminate|]); done.
Qed.

Lemma operator_token_ok op norm :
  dict_lookup operators op = Some norm →
  token_ok (new_token OPERATOR (PStr norm) line_num) = true.
Proof.
  intros Hin%dict_lookup_In. cbv [token_ok new_token type value].
  apply bool_decide_eq_true. cbv [operators map snd In] in Hin.
  unfold normalized_operators.
  repeat (destruct Hin as [<-|Hin]; [set_solver|]). done.
Qed.

Lemma scan_body_appends i lt i' lt' :
  scan_body line line_num (i, lt) = Ok (i', lt') →
  lt' = lt ∨ ∃ t, lt' = lt ++ [t] ∧ fresh_token line_num t.
Proof.
  unfold scan_body.
  destruct (String.get i line) as [char|] eqn:Hget; [|discriminate].
  pose proof (get_Some_lt _ _ _ Hget) as Hi.
  destruct (py_isspace char); [intros [= _ <-]; by left|].
  destruct (Ascii.eqb char dq).
  { intros (j & _ & H)%bind_Ok. destruct (j <? len); [|discriminate].
    injection H as _ <-. right. eexists. split; [done|]. by repeat split. }
  destruct (py_isdigit char) eqn:Hdigit.
  { intros (j & _ & H)%bind_Ok. destruct (py_int _) as [n|] eqn:Hn; [|discriminate].
    injection H as _ <-. right. eexists. split; [done|]. repeat split.
    unfold token_ok. simpl. apply Z.leb_le. by apply py_int_nonneg in Hn. }
  destruct (py_isalpha char || Ascii.eqb char "_" || Ascii.eqb char "#") eqn:Hid.
  { intros (j & Hj & H)%bind_Ok.
    assert (i < j ≤ len) as Hij.
    { assert (ident_cond line i = true) as Hc.
      { unfold ident_cond, test_at. rewrite Hget. by apply ident_start_char. }
      split; [by apply (next_while_gt _ _ _ _ Hc Hj)|].
      apply (run_while_le ident_char len i j); [unfold line_len; lia|exact Hj]. }
    destruct (startswith _ "#") eqn:Hsharp.
    { destruct (py_int _) as [n|] eqn:Hn; [|discriminate].
      injection H as _ <-. right. eexists. split; [done|]. repeat split.
      unfold token_ok. simpl. apply Z.leb_le. by apply py_int_nonneg in Hn. }
    destruct (dict_lookup keywords _) as [ty|] eqn:Hkw; injection H as _ <-;
      right; eexists; (split; [done|]); repeat split.
    - by apply keyword_token_ok.
    - unfold token_ok. simpl. apply orb_true_iff. left.
      assert (string_forall ident_char (slice line i j) = true) as Hall.
      { apply substring_forall. intros k Hk.
        apply (run_while_all _ _ _ _ Hj). lia. }
      destruct (substring_get_first line i (j - i) char Hget ltac:(lia))
        as [r Hr]. unfold slice in *. rewrite Hr in Hsharp, Hall |- *.
      unfold is_word. rewrite Hall, andb_true_r.
      cbn [startswith] in Hsharp. rewrite andb_true_r in Hsharp.
      rewrite Ascii.eqb_sym in Hsharp.
      rewrite Hsharp, orb_false_r in Hid. exact Hid. }
  destruct (is_operator_char char).
  { destruct (dict_lookup operators _) as [norm|] eqn:Hop; [|discriminate].
    intros [= _ <-]. right. eexists. split; [done|]. repeat split.
    by eapply operator_token_ok. }
  destruct (Ascii.eqb char ":"); intros [= _ <-]; [|by left].
  right. eexists. split; [done|]. by repeat split.
Qed.

(** An iteration fails with an error of the lexer for this line, or with
    the [ValueError] of a number. *)
Lemma scan_body_lexical_error i lt e :
  scan_body line line_num (i, lt) = Err e → i < len →
  lexer_failure line line_num e.
Proof.
  intros Hbody Hi. pose proof Hbody as H. unfold scan_body in H.
  destruct (String.get i line) as [char|] eqn:Hget;
    [|apply get_None_ge in Hget; unfold line_len in Hi; lia].
  destruct (py_isspace char); [discriminate|].
  destruct (Ascii.eqb char dq).
  { apply bind_Err in H as [H|(j & _ & H)].
    - pose proof H as ->%string_while_Err. by apply string_while_terminates in H.
    - destruct (j <? len); [discriminate|]. injection H as <-.
      do 2 constructor. }
  destruct (py_isdigit char) eqn:Hdigit.
  { apply bind_Err in H as [H|(j & Hj & H)].
    - pose proof H as ->%scan_while_Err. by apply next_while_terminates in H.
    - destruct (py_int _) eqn:Hn; [discriminate|]. injection H as <-.
      apply (uncaught_value_error line line_num i j); [| |done].
      + apply (next_while_gt (digit_cond line) (line_len line) i j); [|exact Hj].
        unfold digit_cond, test_at. by rewrite Hget.
      + apply (run_while_all _ _ _ _ Hj). }
  destruct (py_isalpha char || Ascii.eqb char "_" || Ascii.eqb char "#") eqn:Hid.
  { apply bind_Err in H as [H|(j & Hj & H)].
    - pose proof H as ->%scan_while_Err. by apply next_while_terminates in H.
    - destruct (startswith _ "#") eqn:Hsharp.
      + destruct (py_int _); [discriminate|]. injection H as <-.
        by do 2 constructor.
      + by destruct (dict_lookup keywords _). }
  destruct (is_operator_char char).
  { destruct (dict_lookup operators _); [discriminate|]. injection H as <-.
    apply OperatorFacts.scan_body_invalid_operator in Hbody as (-> & _).
    do 2 constructor. }
  by destruct (Ascii.eqb char ":").
Qed.

(** *** The line *)

Lemma scan_while_appends fuel st st' :
  while (scan_cond line) (scan_body line line_num) fuel st = Ok st' →
  ∃ new, snd st' = snd st ++ new ∧ Forall (fresh_token line_num) new.
Proof.
  apply (while_invariant _ _
           (fun s => ∃ new, snd s = snd st ++ new ∧ Forall (fresh_token line_num) new)).
  - intros [i lt] [i' lt'] (new & Hnew & Hall) _ Hb. simpl in *. subst lt.
    apply scan_body_appends in Hb as [->|(t & -> & Ht)]; [eauto|].
    exists (new ++ [t]). split; [by rewrite app_assoc|].
    apply Forall_app. split; [done|]. by constructor.
  - exists []. by rewrite app_nil_r.
Qed.

(** The tokens of a line are well formed and carry the number of the line;
    the first one carries the indentation of the line, in units of four
    columns, and no other token carries an indentation. *)
Lemma scan_line_tokens tokens :
  scan_line line line_num = Ok tokens →
  Forall (fun t => token_ok t = true ∧ line_number t = line_num) tokens ∧
  (tokens = [] ∨
   ∃ t rest, tokens = t :: rest ∧
     indentation t = Some ((len - String.length (lstrip line)) / 4) ∧
     Forall (fun t => indentation t = None) rest).
Proof.
  unfold scan_line. intros ([i lt] & Hw & H)%bind_Ok.
  apply scan_while_appends in Hw as (new & Hnew & Hall). simpl in Hnew. subst lt.
  destruct new as [|t rest]; injection H as <-; [by split; [|left]|].
  inversion Hall as [|? ? (Hok & Hn & _) Hrest]; subst. split.
  - constructor; [done|]. eapply Forall_impl; [exact Hrest|]. by intros ? (? & ? & _).
  - right. exists (set_indentation t ((len - String.length (lstrip line)) / 4)), rest.
    split; [done|]. split; [done|].
    eapply Forall_impl; [exact Hrest|]. by intros ? (_ & _ & ?).
Qed.

Lemma scan_line_lexical_error e :
  scan_line line line_num = Err e → lexer_failure line line_num e.
Proof.
  unfold scan_line. intros [H|([i lt] & _ & H)]%bind_Err; [|by destruct lt].
  pose proof H as [->|([i lt] & Hc & Hb)]%while_Err_origin.
  - exfalso. revert H.
    apply (while_terminates _ _ (fun st => len - fst st)).
    + apply scan_measure_positive.
    + apply scan_measure_decrease.
    + intros s _. apply scan_body_no_fuel_error.
    + simpl. lia.
  - apply (scan_body_lexical_error _ _ _ Hb). unfold scan_cond in Hc. by apply Nat.ltb_lt in Hc.
Qed.
End Line.

(** *** The lines *)

(** What a line adds to the tokens: nothing, or the tokens of its scan. *)
Lemma lex_line_adds n line mc tokens mc' tokens' :
  lex_line n line (mc, tokens) = Ok (mc', tokens') →
  ∃ new, tokens' = tokens ++ new ∧ (new = [] ∨ scan_line line n = Ok new).
Proof.
  unfold lex_line.
  repeat (case_match; try (intros [= _ <-]; exists []; rewrite app_nil_r; by auto)).
  intros (new & Hscan & [= _ <-])%bind_Ok. eauto.
Qed.

Lemma lex_line_lexical_error n line st e :
  lex_line n line st = Err e → lexer_failure line n e.
Proof.
  unfold lex_line. destruct st as [mc tokens].
  repeat (case_match; try discriminate).
  intros [He|(new & _ & He)]%bind_Err; [|discriminate]. by apply scan_line_lexical_error in He.
Qed.

Lemma lex_lines_chunks lines n st st' :
  lex_lines lines n st = Ok st' →
  ∃ chunks, snd st' = snd st ++ concat chunks ∧ line_chunks n lines chunks.
Proof.
  revert n st. induction lines as [|line rest IH]; intros n st.
  - intros [= <-]. exists []. by rewrite app_nil_r.
  - rewrite lex_lines_cons. intros ([mc1 toks1] & Hline & Hrest)%bind_Ok.
    destruct st as [mc toks].
    apply lex_line_adds in Hline as (new & -> & Hnew).
    apply IH in Hrest as (chunks & -> & Hchunks). simpl.
    exists (new :: chunks). split; [by rewrite <- app_assoc|done].
Qed.

Lemma lex_lines_Err_line lines n st e :
  lex_lines lines n st = Err e →
  ∃ k line, lines !! k = Some line ∧ lexer_failure line (n + k) e.
Proof.
  revert n st. induction lines as [|line rest IH]; intros n st; [discriminate|].
  rewrite lex_lines_cons. intros [H|(st' & _ & H)]%bind_Err.
  - exists 0, line. split; [done|]. rewrite Nat.add_0_r. by eapply lex_line_lexical_error.
  - apply IH in H as (k & l & Hl & He). exists (S k), l. split; [done|].
    by replace (n + S k) with (S n + k) by lia.
Qed.

Lemma line_chunks_tokens n lines chunks :
  line_chunks n lines chunks →
  Forall (fun t => token_ok t = true ∧ n ≤ line_number t < n + length lines)
    (concat chunks) ∧
  StronglySorted le (line_number <$> concat chunks).
Proof.
  revert n chunks. induction lines as [|line rest IH]; intros n [|chunk chunks];
    simpl; try done.
  { intros _. split; constructor. }
  intros [Hchunk Hrest]. apply IH in Hrest as [Hall Hsorted].
  assert (Forall (fun t => token_ok t = true ∧ line_number t = n) chunk) as Hc.
  { destruct Hchunk as [->|Hs]; [constructor|]. by apply scan_line_tokens in Hs as [? _]. }
  split.
  - apply Forall_app. split.
    + eapply Forall_impl; [exact Hc|]. intros t [? ->]. split; [done|lia].
    + eapply Forall_impl; [exact Hall|]. intros t [? ?]. split; [done|lia].
  - rewrite fmap_app. apply StronglySorted_app_2; [| |done].
    + intros x1 x2 (t1 & -> & Ht1)%list_elem_of_fmap (t2 & -> & Ht2)%list_elem_of_fmap.
      rewrite Forall_forall in Hc, Hall.
      destruct (Hc t1 Ht1) as [_ ->]. destruct (Hall t2 Ht2) as [_ ?]. lia.
    + clear -Hc. induction Hc as [|t ts [_ Ht] Hts IHc]; simpl; constructor; [done|].
      apply Forall_fmap. eapply Forall_impl; [exact Hts|].
      intros t' [_ Ht']. simpl. lia.
Qed.

(** X1: the lexer fails for a line of the source, and in one of four
    ways only: with one of its three errors, which carry the number of
    that line, or with the [ValueError] that [int] raises on a run of
    digits of the line, one that holds a digit that is not decimal or more
    digits than [int] converts; the branch for numbers does not catch it,
    so it escapes the lexer without a line number. *)
Theorem tokenize_errors code e :
  tokenize code = Err e →
  ∃ k line, split_lines code !! k = Some line ∧ lexer_failure line (S k) e.
Proof.
  unfold tokenize, tokenize_lines. intros [H|(st & _ & H)]%bind_Err; [|discriminate].
  by apply lex_lines_Err_line in H.
Qed.

Lemma tokenize_errors_witness :
  ∃ k line,
    split_lines ("ironman" +:+ nls +:+ "hulk 1" +:+ superscript_two) !! k
      = Some line ∧
    lexer_failure line (S k) (PyRaise "ValueError").
Proof.
  apply (tokenize_errors ("ironman" +:+ nls +:+ "hulk 1" +:+ superscript_two)).
  vm_compute. reflexivity.
Defined.

(** X2: the token sequence is the concatenation, in the order of the
    lines, of one list of tokens for each line of the source; the list of a
    line is empty or is the scan of that line alone. *)
Theorem tokenize_by_lines code tokens :
  tokenize code = Ok tokens →
  ∃ chunks, tokens = concat chunks ∧ line_chunks 1 (split_lines code) chunks.
Proof.
  unfold tokenize, tokenize_lines. intros (st & H & [= <-])%bind_Ok.
  by apply lex_lines_chunks in H.
Qed.

Lemma tokenize_by_lines_witness :
  ∃ chunks,
    [ mkToken IRONMAN (PStr "ironman") 1 (Some 0);
      mkToken THOR (PStr "thor") 3 (Some 1) ] = concat chunks ∧
    line_chunks 1 ["ironman"; "hero> note"; "    thor"] chunks.
Proof.
  apply (tokenize_by_lines ("ironman" +:+ nls +:+ "hero> note" +:+ nls +:+ "    thor")).
  vm_compute. reflexivity.
Defined.

(** X3: every token the lexer returns is well formed: a number or a cell
    reference holds a natural number, an identifier a word that starts
    with a letter or an underscore or else a lone colon, an operator a
    normalized spelling, a keyword token the keyword of its kind; the
    lexer returns no [COMMENT] token. *)
Theorem tokenize_tokens_ok code tokens :
  tokenize code = Ok tokens → Forall (fun t => token_ok t = true) tokens.
Proof.
  intros (chunks & -> & H)%tokenize_by_lines.
  apply line_chunks_tokens in H as [H _].
  eapply Forall_impl; [exact H|]. by intros t [? _].
Qed.

Lemma tokenize_tokens_ok_witness :
  Forall (fun t => token_ok t = true)
    [ mkToken ADD (PStr "add") 1 (Some 0); mkToken CELL_REF (PInt 3) 1 None;
      mkToken NUMBER (PInt 7) 1 None ].
Proof. apply (tokenize_tokens_ok "add #3 007"). vm_compute. reflexivity. Defined.

(** X4: every token carries the number of a line of the source, counted
    from 1, and the tokens come in the order of the lines. *)
Theorem tokenize_line_numbers code tokens :
  tokenize code = Ok tokens →
  Forall (fun t => 1 ≤ line_number t ≤ length (split_lines code)) tokens ∧
  StronglySorted le (line_number <$> tokens).
Proof.
  intros (chunks & -> & H)%tokenize_by_lines.
  apply line_chunks_tokens in H as [H Hs]. split; [|done].
  eapply Forall_impl; [exact H|]. intros t [_ ?]. lia.
Qed.

Lemma tokenize_line_numbers_witness :
  Forall (fun t => 1 ≤ line_number t ≤ 3)
    [ mkToken IRONMAN (PStr "ironman") 1 (Some 0);
      mkToken THOR (PStr "thor") 3 (Some 1) ] ∧
  StronglySorted le [1; 3].
Proof.
  apply (tokenize_line_numbers
           ("ironman" +:+ nls +:+ "hero> note" +:+ nls +:+ "    thor")).
  vm_compute. reflexivity.
Defined.

(** X5: of the tokens of one line, the first carries the indentation of the
    line, its leading white space in units of four columns, and no other
    token carries an indentation. *)
Theorem scan_line_indentation line line_num t rest :
  scan_line line line_num = Ok (t :: rest) →
  indentation t = Some ((String.length line - String.length (lstrip line)) / 4) ∧
  Forall (fun t => indentation t = None) rest.
Proof.
  intros [_ [?|(t' & rest' & [= -> ->] & ? & ?)]]%scan_line_tokens; done.
Qed.

Lemma scan_line_indentation_witness :
  indentation (mkToken ADD (PStr "add") 4 (Some 1)) = Some ((18 - 13) / 4) ∧
  Forall (fun t => indentation t = None)
    [mkToken VISION (PStr "vision") 4 None; mkToken NUMBER (PInt 1) 4 None].
Proof.
  apply (scan_line_indentation "     add vision  1" 4). vm_compute. reflexivity.
Defined.

End LexerInvariants.

(** ** Comments without end *)

Module CommentEndFacts.
Import SuperHeroLexer CommentFacts.

(** X6: a block comment that no later line closes takes the rest of the
    source with it, without any error: the tokens are those of the lines
    before its opening line, whatever the lines after it hold. *)
Theorem unclosed_block_comment pre opening rest tokens :
  lex_lines pre 1 (false, []) = Ok (false, tokens) →
  contains "heroes*" opening = true →
  contains "*heroes" opening = false →
  Forall (fun l => contains "*heroes" l = false) rest →
  tokenize_lines (pre ++ opening :: rest) = Ok tokens.
Proof.
  intros Hpre Ho Hoc Hrest. unfold tokenize_lines.
  rewrite lex_lines_app, Hpre, bind_Ok_l, lex_lines_cons.
  rewrite lex_line_opening, bind_Ok_l by done.
  rewrite <- (app_nil_r rest), lex_lines_inside by done. done.
Qed.

Lemma unclosed_block_comment_witness :
  tokenize_lines
    ["ironman"; "heroes* from here on"; "starlord " +:+ dqs +:+ "no end"; "thor !"]
  = Ok [mkToken IRONMAN (PStr "ironman") 1 (Some 0)].
Proof.
  apply (unclosed_block_comment ["ironman"] "heroes* from here on"
           ["starlord " +:+ dqs +:+ "no end"; "thor !"]).
  - reflexivity.
  - reflexivity.
  - reflexivity.
  - repeat constructor.
Defined.

End CommentEndFacts.

(** ** Lines of one word *)

Module WordFacts.
Import SuperHeroLexer Invariants CharFacts ScanFacts LexerInvariants.

(** A line without line break that is neither blank nor a comment is lexed
    by its scan. *)
Lemma tokenize_one_line line :
  string_forall (fun c => negb (Ascii.eqb c nl)) line = true →
  String.eqb (strip line) EmptyString = false →
  contains "heroes*" line = false →
  startswith (strip line) "hero>" = false →
  tokenize line = scan_line line 1.
Proof.
  intros Hnl Hblank Hopen Hhero. unfold tokenize, tokenize_lines.
  rewrite split_lines_one, lex_lines_cons by done. unfold lex_line.
  rewrite Hblank, Hopen. cbn [andb]. rewrite Hhero.
  by destruct (scan_line line 1).
Qed.

(** A line of characters of one class, none of them white space or a
    character of the comment markers, is lexed by its scan. *)
Lemma tokenize_run (p : ascii → bool) line c rest :
  line = String c rest →
  string_forall p line = true →
  (∀ c, p c = true →
        py_isspace c = false ∧ Ascii.eqb c nl = false ∧
        Ascii.eqb c "*" = false ∧ Ascii.eqb c ">" = false) →
  tokenize line = scan_line line 1.
Proof.
  intros Hline Hall Hp.
  assert (string_forall (fun c => negb (py_isspace c)) line = true) as Hns.
  { eapply string_forall_impl; [|exact Hall]. intros a Ha.
    destruct (Hp a Ha) as (-> & _). done. }
  apply tokenize_one_line.
  - eapply string_forall_impl; [|exact Hall]. intros a Ha.
    destruct (Hp a Ha) as (_ & -> & _). done.
  - rewrite strip_nonspace by done. by subst line.
  - destruct (contains "heroes*" line) eqn:Hc; [|done].
    apply (contains_forall (fun c => negb (Ascii.eqb c "*"))) in Hc; [done|].
    eapply string_forall_impl; [|exact Hall]. intros a Ha.
    destruct (Hp a Ha) as (_ & _ & -> & _). done.
  - rewrite strip_nonspace by done.
    destruct (startswith line "hero>") eqn:Hc; [|done].
    apply (startswith_forall (fun c => negb (Ascii.eqb c ">"))) in Hc; [done|].
    eapply string_forall_impl; [|exact Hall]. intros a Ha.
    destruct (Hp a Ha) as (_ & _ & _ & ->). done.
Qed.

Lemma while_one_step {S} (cond : S → bool) (body : S → result S) fuel s s' :
  0 < fuel → cond s = true → body s = Ok s' → cond s' = false →
  while cond body fuel s = Ok s'.
Proof.
  intros Hf Hc Hb Hc'. destruct fuel as [|fuel]; [lia|].
  rewrite while_S, Hc, Hb, bind_Ok_l. destruct fuel; simpl; by rewrite Hc'.
Qed.

Lemma while_first_Err {S} (cond : S → bool) (body : S → result S) fuel s e :
  0 < fuel → cond s = true → body s = Err e → while cond body fuel s = Err e.
Proof.
  intros Hf Hc Hb. destruct fuel as [|fuel]; [lia|]. by rewrite while_S, Hc, Hb.
Qed.

Lemma scan_line_start line line_num c rest :
  line = String c rest → py_isspace c = false →
  scan_line line line_num =
    while (scan_cond line) (scan_body line line_num) (line_len line) (0, []) ≫=
      fun st => match snd st with
                | [] => Ok []
                | t :: ts => Ok (set_indentation t 0 :: ts)
                end.
Proof.
  intros Hline Hc.
  assert (lstrip line = line) as Hl by (subst line; simpl; by rewrite Hc).
  unfold scan_line. rewrite Hl.
  replace (line_len line - String.length line) with 0 by (unfold line_len; lia).
  destruct (while _ _ _ _) as [[i lt]|e]; [|done]. by destruct lt.
Qed.

(** The scan of a line that one iteration takes whole. *)
Lemma scan_line_whole line line_num c rest t :
  line = String c rest → py_isspace c = false →
  scan_body line line_num (0, []) = Ok (line_len line, [t]) →
  scan_line line line_num = Ok [set_indentation t 0].
Proof.
  intros Hline Hc Hb. rewrite (scan_line_start _ _ c rest) by done.
  rewrite (while_one_step _ _ _ _ (line_len line, [t])); [done| | |done|].
  - subst line. unfold line_len. simpl. lia.
  - subst line. reflexivity.
  - unfold scan_cond. simpl. apply Nat.ltb_irrefl.
Qed.

Lemma scan_line_whole_Err line line_num c rest e :
  line = String c rest → py_isspace c = false →
  scan_body line line_num (0, []) = Err e →
  scan_line line line_num = Err e.
Proof.
  intros Hline Hc Hb. rewrite (scan_line_start _ _ c rest) by done.
  rewrite (while_first_Err _ _ _ _ e); [done| | |done].
  - subst line. unfold line_len. simpl. lia.
  - subst line. reflexivity.
Qed.

Lemma ident_char_plain c :
  ident_char c = true →
  py_isspace c = false ∧ Ascii.eqb c nl = false ∧
  Ascii.eqb c "*" = false ∧ Ascii.eqb c ">" = false.
Proof.
  destruct c as [[] [] [] [] [] [] [] []]; vm_compute; intros; try discriminate;
    done.
Qed.

Lemma py_isdigit_plain c :
  py_isdigit c = true →
  py_isspace c = false ∧ Ascii.eqb c nl = false ∧
  Ascii.eqb c "*" = false ∧ Ascii.eqb c ">" = false.
Proof.
  destruct c as [[] [] [] [] [] [] [] []]; vm_compute; intros; try discriminate;
    done.
Qed.

Lemma word_start_class c :
  (py_isalpha c || Ascii.eqb c "_") = true →
  py_isspace c = false ∧ Ascii.eqb c dq = false ∧ py_isdigit c = false ∧
  Ascii.eqb c "#" = false.
Proof.
  destruct c as [[] [] [] [] [] [] [] []]; vm_compute; intros; try discriminate;
    done.
Qed.

(** X7: a line that is one word, a run of letters, digits, underscores and
    [#] that starts with a letter or an underscore, lexes as one token that
    holds the whole word: the keyword token when the word is spelled
    exactly as a keyword, an identifier otherwise.  The word is never cut
    at a keyword it starts with. *)
Theorem word_lexing w :
  is_word w = true →
  tokenize w =
    Ok [mkToken (default IDENTIFIER (dict_lookup keywords w)) (PStr w) 1 (Some 0)].
Proof.
  unfold is_word. destruct w as [|c rest] eqn:Hw; [discriminate|]. rewrite <- Hw.
  intros [Hstart Hall]%andb_prop.
  destruct (word_start_class c Hstart) as (Hsp & Hdq & Hdig & Hsharp).
  rewrite (tokenize_run ident_char w c rest Hw Hall ident_char_plain).
  apply (scan_line_whole w 1 c rest
           (new_token (default IDENTIFIER (dict_lookup keywords w)) (PStr w) 1) Hw Hsp).
  unfold scan_body.
  assert (String.get 0 w = Some c) as -> by (by subst w).
  rewrite Hsp, Hdq, Hdig, Hstart. cbn [orb].
  assert (while (ident_cond w) next_index (line_len w) 0 = Ok (line_len w)) as ->.
  { apply run_while_end; [|lia|lia]. intros k Hk.
    unfold test_at. destruct (String.get k w) as [a|] eqn:Ha.
    - by apply (string_forall_get _ _ _ _ Hall Ha).
    - apply get_None_ge in Ha. unfold line_len in Hk. lia. }
  rewrite bind_Ok_l. unfold slice, line_len. rewrite Nat.sub_0_r, substring_full.
  assert (startswith w "#" = false) as ->.
  { rewrite Hw. cbn [startswith]. rewrite Ascii.eqb_sym. by rewrite Hsharp. }
  by destruct (dict_lookup keywords w).
Qed.

Lemma word_lexing_witness :
  tokenize "thornum" = Ok [mkToken THORNUM (PStr "thornum") 1 (Some 0)] ∧
  tokenize "thorn" = Ok [mkToken IDENTIFIER (PStr "thorn") 1 (Some 0)] ∧
  tokenize "Thor" = Ok [mkToken IDENTIFIER (PStr "Thor") 1 (Some 0)].
Proof.
  split; [|split].
  - apply (word_lexing "thornum"). reflexivity.
  - apply (word_lexing "thorn"). reflexivity.
  - apply (word_lexing "Thor"). reflexivity.
Defined.

End WordFacts.

(** ** Numbers and cell references *)

Module NumberFacts.
Import SuperHeroLexer Invariants CharFacts ScanFacts LexerInvariants WordFacts.
Import CodeGenerator.

(** *** Reading back what [str] prints *)

Lemma pretty_N_char_digit d :
  (d < 10)%N →
  py_isdecimal (pretty_N_char d) = true ∧ digit_val (pretty_N_char d) = Z.of_N d.
Proof.
  intros Hd.
  assert (d = 0 ∨ d = 1 ∨ d = 2 ∨ d = 3 ∨ d = 4 ∨ d = 5 ∨ d = 6 ∨ d = 7
          ∨ d = 8 ∨ d = 9)%N as H by lia.
  repeat (destruct H as [->|H]; [by vm_compute|]). subst d. by vm_compute.
Qed.

Lemma pretty_N_go_digits x s :
  string_forall py_isdecimal s = true →
  string_forall py_isdecimal (pretty_N_go x s) = true.
Proof.
  revert s. induction (N.lt_wf_0 x) as [x _ IH]; intros s Hs.
  destruct (decide (x = 0)%N) as [->|Hx]; [by rewrite pretty_N_go_0|].
  rewrite pretty_N_go_step by lia. apply IH.
  - apply N.div_lt; lia.
  - simpl. rewrite Hs, andb_true_r.
    apply pretty_N_char_digit, N.mod_lt. lia.
Qed.

Lemma pretty_N_go_cons x s :
  (0 < x)%N ∨ s ≠ EmptyString → ∃ c r, pretty_N_go x s = String c r.
Proof.
  revert s. induction (N.lt_wf_0 x) as [x _ IH]; intros s Hs.
  destruct (decide (x = 0)%N) as [->|Hx].
  - rewrite pretty_N_go_0. destruct Hs as [?|Hs]; [lia|]. destruct s; [done|eauto].
  - rewrite pretty_N_go_step by lia. apply IH; [apply N.div_lt; lia|by right].
Qed.

(** Reading the digits of [x] multiplies what was read by a power of ten
    and adds [x]. *)
Lemma py_int_go_pretty x :
  ∃ k : nat, ∀ s acc after_digit,
    py_int_go (pretty_N_go x s) acc after_digit =
    py_int_go s (acc * 10 ^ Z.of_nat k + Z.of_N x)%Z
      (after_digit || negb (x =? 0)%N).
Proof.
  induction (N.lt_wf_0 x) as [x _ IH].
  destruct (decide (x = 0)%N) as [->|Hx].
  - exists 0. intros s acc b. rewrite pretty_N_go_0. simpl.
    rewrite orb_false_r. f_equal. lia.
  - destruct (IH (x `div` 10)%N) as [k Hk]; [apply N.div_lt; lia|].
    exists (S k). intros s acc b. rewrite pretty_N_go_step, Hk by lia.
    destruct (pretty_N_char_digit (x `mod` 10)%N) as [Hd Hv];
      [apply N.mod_lt; lia|].
    simpl py_int_go. rewrite Hd, Hv.
    assert ((x =? 0)%N = false) as -> by (by apply N.eqb_neq).
    rewrite orb_true_r. f_equal.
    rewrite Nat2Z.inj_succ, Z.pow_succ_r by lia.
    pose proof (N.div_mod x 10 ltac:(lia)) as Hdm.
    rewrite Hdm at 3. rewrite N2Z.inj_add, N2Z.inj_mul. simpl Z.of_N. lia.
Qed.

Lemma pretty_digits n : (0 ≤ n)%Z → is_decimal (pretty n) = true.
Proof.
  intros Hn. destruct n as [|p|p]; [done| |lia].
  change (pretty (Z.pos p)) with (pretty_N_go (N.pos p) EmptyString).
  destruct (pretty_N_go_cons (N.pos p) EmptyString) as (c & r & Hcr); [left; lia|].
  unfold is_decimal. rewrite Hcr, <- Hcr. by apply pretty_N_go_digits.
Qed.

Lemma is_decimal_forall d : is_decimal d = true → string_forall py_isdecimal d = true.
Proof. by destruct d. Qed.

Lemma is_decimal_digits d : is_decimal d = true → is_digits d = true.
Proof.
  destruct d as [|c r]; [done|]. unfold is_decimal, is_digits.
  apply string_forall_impl, py_isdecimal_isdigit.
Qed.

Lemma py_int_go_pretty_Z n after_digit :
  (0 ≤ n)%Z → py_int_go (pretty n) 0 after_digit = Some n.
Proof.
  intros Hn. destruct n as [|p|p]; [done| |lia].
  change (pretty (Z.pos p)) with (pretty_N_go (N.pos p) EmptyString).
  destruct (py_int_go_pretty (N.pos p)) as [k Hk]. rewrite Hk. simpl.
  by rewrite orb_true_r.
Qed.

(** Leading zeros do not count. *)
Lemma py_int_go_zeros k s after_digit :
  py_int_go (repeat_str "0" k +:+ s) 0 after_digit =
  py_int_go s 0 (after_digit || negb (k =? 0)).
Proof.
  revert after_digit. induction k as [|k IH]; intros b.
  - simpl. by rewrite orb_false_r.
  - change (repeat_str "0" (S k) +:+ s)
      with (String "0" (repeat_str "0" k +:+ s)).
    simpl py_int_go. change (py_isdecimal "0") with true. cbv iota.
    change (10 * 0 + digit_val "0")%Z with 0%Z. rewrite IH. simpl.
    by rewrite orb_true_r.
Qed.

Lemma zeros_digits k s :
  is_decimal s = true → is_decimal (repeat_str "0" k +:+ s) = true.
Proof.
  intros Hs. induction k as [|k IH]; [done|].
  change (repeat_str "0" (S k) +:+ s) with (String "0" (repeat_str "0" k +:+ s)).
  unfold is_decimal in *. simpl. destruct (repeat_str "0" k +:+ s); [done|exact IH].
Qed.

Lemma zeros_length k : String.length (repeat_str "0" k) = k.
Proof.
  induction k as [|k IH]; [done|].
  change (repeat_str "0" (S k)) with (String "0" (repeat_str "0" k)).
  simpl. by rewrite IH.
Qed.

(** [int] of the decimal text of a number with zeros before it: the
    number, unless the digits are more than [int] converts. *)
Lemma py_int_zeros_pretty zeros n :
  (0 ≤ n)%Z →
  py_int (repeat_str "0" zeros +:+ pretty n) =
    if zeros + String.length (pretty n) <=? int_max_str_digits then Some n
    else None.
Proof.
  intros Hn. unfold py_int.
  rewrite count_digits_decimal, append_length, zeros_length
    by (by apply is_decimal_forall, zeros_digits, pretty_digits).
  rewrite Nat.ltb_antisym.
  destruct (zeros + String.length (pretty n) <=? int_max_str_digits); [|done].
  simpl negb. cbv iota. rewrite py_int_go_zeros. by apply py_int_go_pretty_Z.
Qed.

(** *** Lines of one number *)

Lemma digits_lexing d :
  is_digits d = true →
  tokenize d =
    match py_int d with
    | Some n => Ok [mkToken NUMBER (PInt n) 1 (Some 0)]
    | None => Err (PyRaise "ValueError")
    end.
Proof.
  unfold is_digits. destruct d as [|c rest] eqn:Hd; [discriminate|]. rewrite <- Hd.
  intros Hall.
  assert (py_isdigit c = true) as Hc.
  { rewrite Hd in Hall. simpl in Hall. by apply andb_prop in Hall as [? _]. }
  destruct (py_isdigit_plain c Hc) as (Hsp & _).
  assert (Ascii.eqb c dq = false) as Hdq.
  { destruct (Ascii.eqb c dq) eqn:He; [|done].
    apply Ascii.eqb_eq in He as ->. discriminate. }
  rewrite (tokenize_run py_isdigit d c rest Hd Hall py_isdigit_plain).
  assert (scan_body d 1 (0, []) =
            match py_int d with
            | Some n => Ok (line_len d, [new_token NUMBER (PInt n) 1])
            | None => Err (PyRaise "ValueError")
            end) as Hbody.
  { unfold scan_body.
    assert (String.get 0 d = Some c) as -> by (by subst d).
    rewrite Hsp, Hdq, Hc.
    assert (while (digit_cond d) next_index (line_len d) 0 = Ok (line_len d)) as ->.
    { apply run_while_end; [|lia|lia]. intros k Hk.
      unfold test_at. destruct (String.get k d) as [a|] eqn:Ha.
      - by apply (string_forall_get _ _ _ _ Hall Ha).
      - apply get_None_ge in Ha. unfold line_len in Hk. lia. }
    rewrite bind_Ok_l. unfold slice, line_len. rewrite Nat.sub_0_r, substring_full.
    by destruct (py_int d). }
  destruct (py_int d) as [n|].
  - by apply (scan_line_whole d 1 c rest (new_token NUMBER (PInt n) 1)).
  - by apply (scan_line_whole_Err d 1 c rest).
Qed.

(** X8: the decimal text of a natural number, as [str] prints it in the
    generated C, lexes back as the number token of that number, also with
    zeros written before it, as long as the digits, zeros included, are no
    more than the 4300 that [int] converts; a longer run of digits ends
    the lexer with the [ValueError] of [int], which nothing catches. *)
Theorem number_lexing zeros n :
  (0 ≤ n)%Z →
  tokenize (repeat_str "0" zeros +:+ pretty n) =
    if zeros + String.length (pretty n) <=? int_max_str_digits
    then Ok [mkToken NUMBER (PInt n) 1 (Some 0)]
    else Err (PyRaise "ValueError").
Proof.
  intros Hn. rewrite digits_lexing
    by (by apply is_decimal_digits, zeros_digits, pretty_digits).
  rewrite py_int_zeros_pretty by done.
  by destruct (_ <=? _).
Qed.

Lemma number_lexing_witness :
  tokenize "0042" = Ok [mkToken NUMBER (PInt 42) 1 (Some 0)] ∧
  tokenize (repeat_str "0" 4300 +:+ "7") = Err (PyRaise "ValueError").
Proof.
  split.
  - apply (number_lexing 2 42). lia.
  - apply (number_lexing 4300 7). lia.
Defined.

(** A run of digits that holds one that is not decimal ends the lexer
    with the [ValueError] of [int]. *)
Lemma superscript_source :
  tokenize ("1" +:+ superscript_two) = Err (PyRaise "ValueError").
Proof. vm_compute. reflexivity. Qed.

(** *** Lines of one cell reference *)

Lemma sharp_lexing rest :
  string_forall ident_char rest = true →
  tokenize (String "#" rest) =
    match py_int rest with
    | Some n => Ok [mkToken CELL_REF (PInt n) 1 (Some 0)]
    | None => Err (InvalidCellRef (String "#" rest) 1)
    end.
Proof.
  intros Hrest. set (w := String "#" rest).
  assert (string_forall ident_char w = true) as Hall by (subst w; simpl; by rewrite Hrest).
  rewrite (tokenize_run ident_char w "#" rest eq_refl Hall ident_char_plain).
  assert (scan_body w 1 (0, []) =
            match py_int rest with
            | Some n => Ok (line_len w, [new_token CELL_REF (PInt n) 1])
            | None => Err (InvalidCellRef w 1)
            end) as Hbody.
  { unfold scan_body. change (String.get 0 w) with (Some "#"%char).
    change (py_isspace "#") with false. change (Ascii.eqb "#" dq) with false.
    change (py_isdigit "#") with false.
    change (py_isalpha "#" || Ascii.eqb "#" "_" || Ascii.eqb "#" "#") with true.
    cbv iota.
    assert (while (ident_cond w) next_index (line_len w) 0 = Ok (line_len w)) as ->.
    { apply run_while_end; [|lia|lia]. intros k Hk.
      unfold test_at. destruct (String.get k w) as [a|] eqn:Ha.
      - by apply (string_forall_get _ _ _ _ Hall Ha).
      - apply get_None_ge in Ha. unfold line_len in Hk. lia. }
    rewrite bind_Ok_l. unfold slice, line_len. rewrite Nat.sub_0_r, substring_full.
    change (startswith w "#") with true. cbv iota.
    assert (slice_from w 1 = rest) as ->.
    { unfold slice_from. subst w. simpl String.length.
      replace (S (String.length rest) - 1) with (String.length rest) by lia.
      change (String.substring 1 (String.length rest) (String "#" rest))
        with (String.substring 0 (String.length rest) rest).
      apply substring_full. }
    by destruct (py_int rest). }
  destruct (py_int rest) as [n|].
  - by apply (scan_line_whole w 1 "#" rest (new_token CELL_REF (PInt n) 1)).
  - by apply (scan_line_whole_Err w 1 "#" rest).
Qed.

(** X9: the sigil [#] before the decimal text of a natural number, with or
    without zeros before it, lexes as the cell reference of that number,
    as long as the digits, zeros included, are no more than the 4300 that
    [int] converts; with more digits the lexer reports the whole word as an
    invalid cell reference. *)
Theorem cell_ref_lexing zeros n :
  (0 ≤ n)%Z →
  tokenize ("#" +:+ repeat_str "0" zeros +:+ pretty n) =
    if zeros + String.length (pretty n) <=? int_max_str_digits
    then Ok [mkToken CELL_REF (PInt n) 1 (Some 0)]
    else Err (InvalidCellRef ("#" +:+ repeat_str "0" zeros +:+ pretty n) 1).
Proof.
  intros Hn. change ("#" +:+ repeat_str "0" zeros +:+ pretty n)
    with (String "#" (repeat_str "0" zeros +:+ pretty n)).
  assert (is_decimal (repeat_str "0" zeros +:+ pretty n) = true) as Hd
    by (by apply zeros_digits, pretty_digits).
  rewrite sharp_lexing.
  - rewrite py_int_zeros_pretty by done. by destruct (_ <=? _).
  - apply is_decimal_forall in Hd.
    eapply string_forall_impl; [|exact Hd]. intros c Hc%py_isdecimal_isdigit.
    unfold ident_char, py_isalnum. by rewrite Hc, !orb_true_r.
Qed.

Lemma cell_ref_lexing_witness :
  tokenize "#007" = Ok [mkToken CELL_REF (PInt 7) 1 (Some 0)].
Proof. apply (cell_ref_lexing 2 7). lia. Defined.



End NumberFacts.

(** * Further properties of the parser *)

Import SuperHeroParser Invariants Vocabulary ParserInvariants.

Module SecondPassFacts.
Import ResolverFacts ParseFacts.

Lemma while_Err_reached {S} (cond : S → bool) (body : S → result S) fuel s e :
  while cond body fuel s = Err e →
  e = OutOfFuel ∨ ∃ s', reaches cond body s s' ∧ cond s' = true ∧ body s' = Err e.
Proof.
  revert s. induction fuel as [|fuel IH]; intros s.
  - rewrite while_O. destruct (cond s); [|discriminate]. intros [= <-]. by left.
  - rewrite while_S. destruct (cond s) eqn:Hc; [|discriminate].
    intros [H|(s' & Hb & H)]%bind_Err.
    + right. exists s. repeat split; [constructor|done..].
    + destruct (IH _ H) as [->|(s'' & Hr & Hc' & Hb')]; [by left|].
      right. exists s''. repeat split; [|done..]. by eapply reaches_step.
Qed.

Lemma while_Ok {S} (cond : S → bool) (body : S → result S) fuel s :
  (∀ s, cond s = true → ∃ s', body s = Ok s') →
  while cond body fuel s ≠ Err OutOfFuel →
  ∃ r, while cond body fuel s = Ok r.
Proof.
  intros Hb Hfuel. destruct (while cond body fuel s) as [r|e] eqn:H; [eauto|].
  apply while_Err_origin in H as [->|(s' & Hc & He)]; [done|].
  destruct (Hb _ Hc) as [s'' Hs'']. congruence.
Qed.

Section Tokens.
Variable tokens : list Token.
Hypothesis tokens_ok : Forall (fun t => token_ok t = true) tokens.

Local Abbreviation len := (length tokens).

Lemma identifier_value i t :
  tokens !! i = Some t → type t = IDENTIFIER → ∃ s, value t = PStr s.
Proof.
  intros Ht Hty. pose proof (proj1 (Forall_lookup _ _) tokens_ok _ _ Ht) as Hok.
  unfold token_ok in Hok. rewrite Hty in Hok.
  destruct (value t); try discriminate. eauto.
Qed.

Lemma identifier_strip_colon i t :
  tokens !! i = Some t → type t = IDENTIFIER → ∃ s, strip_colon (value t) = Ok s.
Proof.
  intros Ht Hty. destruct (identifier_value _ _ Ht Hty) as [s ->]. simpl. eauto.
Qed.

Lemma peek_is_has_type ty c : peek_is tokens ty c = has_type tokens ty c.
Proof.
  unfold peek_is, is_at_end, has_type.
  destruct (tokens !! c) as [t|] eqn:Ht.
  - apply lookup_lt_Some in Ht.
    assert ((len <=? c) = false) as -> by (apply Nat.leb_gt; lia). done.
  - by rewrite andb_false_r.
Qed.

Lemma flash_while_Ok st :
  ∃ st', while (flash_cond tokens) (flash_body tokens) len st = Ok st'.
Proof.
  apply while_Ok; [|apply flash_while_terminates].
  intros [i b]. unfold flash_cond, flash_body. simpl.
  destruct (tokens !! i); [eauto|discriminate].
Qed.

Lemma first_pass_body_Ok st :
  first_pass_cond tokens st = true → ∃ st', first_pass_body tokens st = Ok st'.
Proof.
  destruct st as [i tb]. unfold first_pass_cond. simpl. intros Hi%Nat.ltb_lt.
  destruct (lookup_lt_is_Some_2 tokens i Hi) as [token Ht].
  unfold first_pass_body. rewrite Ht.
  destruct (is_type FALCON token).
  { destruct (has_type tokens IDENTIFIER (i + 1)) eqn:Hid; [|rewrite bind_Ok_l; eauto].
    apply has_type_Some in Hid as (t1 & Ht1 & Hty1). rewrite Ht1.
    destruct (identifier_strip_colon _ _ Ht1 Hty1) as [s ->].
    rewrite !bind_Ok_l. eauto. }
  destruct (is_type FLASH token).
  { destruct (has_type tokens IDENTIFIER (i + 1)) eqn:Hid; [|eauto].
    apply has_type_Some in Hid as (t1 & Ht1 & Hty1). rewrite Ht1.
    destruct (identifier_strip_colon _ _ Ht1 Hty1) as [s ->].
    rewrite bind_Ok_l. destruct (flash_while_Ok (i + 2, [])) as [[j b] ->].
    rewrite bind_Ok_l. eauto. }
  destruct (is_type DOCTORSTRANGE token); [|eauto].
  destruct (i + 1 <? len); [|eauto].
  repeat case_match; eauto.
Qed.

(** On well-formed tokens the first pass fails nowhere. *)
Lemma first_pass_Ok : ∃ tb, first_pass tokens = Ok tb.
Proof.
  unfold first_pass.
  destruct (while_Ok (first_pass_cond tokens) (first_pass_body tokens) len
              (0, init_tables)) as [st ->].
  - apply first_pass_body_Ok.
  - intros H. apply (first_pass_no_fuel_error tokens). unfold first_pass.
    by rewrite H.
  - rewrite bind_Ok_l. eauto.
Qed.

Variable flashes_tb : gmap string (list Token).

(** Follows the reads of a statement: a read that a test of the current
    token guards returns that token and moves by one. *)
Ltac follow H :=
  repeat first
    [ rewrite bind_Ok_l in H
    | progress cbv beta iota in H
    | progress cbn [orb] in H
    | match type of H with
      | context [advance tokens ?c] =>
          match goal with
          | Hl : tokens !! c = Some _ |- _ =>
              rewrite (advance_in_range tokens c _ Hl) in H
          end
      | context [peek_is tokens ?ty ?c] =>
          rewrite (peek_is_has_type ty c) in H
      | context [has_type tokens ?ty ?c] =>
          let E := fresh "E" in
          destruct (has_type tokens ty c) eqn:E;
            [apply has_type_Some in E as (? & ? & ?)|]
      | context [if is_at_end tokens ?c then _ else _] =>
          destruct (is_at_end tokens c)
      end ].

Lemma parse_statement_refuses q e :
  parse_statement tokens flashes_tb q = Err e → refused_at tokens q e.
Proof.
  unfold parse_statement. destruct (tokens !! q) as [token|] eqn:Ht; [|discriminate].
  destruct (type token) eqn:Hty; unfold parse_arith, take;
    intros H; follow H; try discriminate.
  - injection H as <-. eapply array_name_missing; [done..|].
    rewrite (has_type_of tokens NUMBER (q + 1) x) by done.
    by replace (q + 2) with (q + 1 + 1) by lia.
  - injection H as <-. eapply array_name_missing; [done..|]. by rewrite E.
  - injection H as <-. by eapply string_missing.
  - match goal with
    | Hl : tokens !! (q + 1) = Some ?t, Hi : type ?t = IDENTIFIER |- _ =>
        destruct (identifier_strip_colon _ _ Hl Hi) as [s Hs]; rewrite Hs in H
    end. follow H. discriminate.
  - by destruct (in_flashes _ _).
Qed.

(** A statement that the second pass refuses fails with its error. *)
Lemma refused_statement q e :
  refused_at tokens q e → parse_statement tokens flashes_tb q = Err e.
Proof.
  intros [t Ht Hty Hname|t Ht Hty Hstr]; unfold parse_statement;
    rewrite Ht, Hty, (advance_in_range _ _ _ Ht), bind_Ok_l.
  - unfold take. rewrite peek_is_has_type.
    destruct (has_type tokens NUMBER (q + 1)) eqn:Hnum.
    + apply has_type_Some in Hnum as (t1 & Ht1 & _).
      rewrite (advance_in_range _ _ _ Ht1), !bind_Ok_l, peek_is_has_type.
      replace (q + 1 + 1) with (q + 2) by lia. by rewrite Hname.
    + by rewrite bind_Ok_l, peek_is_has_type, Hname.
  - by rewrite peek_is_has_type, Hstr.
Qed.

(** A statement reads at least one token and at most five, none of them
    past the end. *)
Lemma parse_statement_bounds q st q' :
  q < len → parse_statement tokens flashes_tb q = Ok (st, q') →
  q < q' ≤ q + 5 ∧ q' ≤ len.
Proof.
  intros Hq. unfold parse_statement.
  destruct (tokens !! q) as [token|] eqn:Ht;
    [|apply lookup_ge_None in Ht; lia].
  destruct (type token) eqn:Hty; unfold parse_arith, take;
    intros H; follow H; try discriminate;
    try (apply bind_Ok in H as (? & _ & H));
    try (destruct (in_flashes _ _));
    injection H as _ <-;
    repeat match goal with
      | Hl : tokens !! _ = Some _ |- _ => apply lookup_lt_Some in Hl
      end; lia.
Qed.

Lemma parse_body_bounds q cb q' cb' :
  parse_cond tokens (q, cb) = true →
  parse_body tokens flashes_tb (q, cb) = Ok (q', cb') →
  (q < q' ≤ q + 5 ∧ q' ≤ len) ∧ length cb ≤ length cb' ≤ length cb + 1.
Proof.
  unfold parse_cond, is_at_end, parse_body. simpl.
  intros Hc%negb_true_iff%Nat.leb_gt ([st c] & Hst & H)%bind_Ok.
  apply parse_statement_bounds in Hst; [|done].
  destruct st; injection H as <- <-; (split; [done|]);
    rewrite ?length_app; simpl; lia.
Qed.

Lemma parse_measure_positive (st : parse_state) :
  parse_cond tokens st = true → 0 < len - fst st.
Proof.
  unfold parse_cond, is_at_end. intros Hc%negb_true_iff%Nat.leb_gt. lia.
Qed.

Lemma parse_measure_decrease (st st' : parse_state) :
  parse_cond tokens st = true → parse_body tokens flashes_tb st = Ok st' →
  len - fst st' < len - fst st.
Proof.
  destruct st as [q cb], st' as [q' cb']. intros Hc Hb.
  pose proof (parse_body_bounds _ _ _ _ Hc Hb). simpl. lia.
Qed.

Lemma parse_while_length fuel st st' :
  while (parse_cond tokens) (parse_body tokens flashes_tb) fuel st = Ok st' →
  length (snd st) ≤ fst st → fst st ≤ len →
  length (snd st') ≤ len.
Proof.
  intros Hw H0 H1.
  enough (length (snd st') ≤ fst st' ∧ fst st' ≤ len) by lia.
  revert Hw.
  apply (while_invariant _ _ (fun s => length (snd s) ≤ fst s ∧ fst s ≤ len));
    [|done].
  intros [q cb] [q' cb'] [Hl Hq] Hc Hb.
  pose proof (parse_body_bounds _ _ _ _ Hc Hb). simpl in *. lia.
Qed.

End Tokens.

Lemma parse_Err_refused tokens e :
  Forall (fun t => token_ok t = true) tokens →
  parse tokens = Err e →
  ∃ tb q cb,
    first_pass tokens = Ok tb ∧
    reaches (parse_cond tokens) (parse_body tokens (flashes tb)) (0, []) (q, cb) ∧
    refused_at tokens q e.
Proof.
  intros Hok H. destruct (first_pass_Ok tokens Hok) as [tb Htb].
  unfold parse in H. rewrite Htb, bind_Ok_l in H.
  apply bind_Err in H as [H|(st & _ & H)]; [|discriminate].
  pose proof (parse_while_terminates tokens (flashes tb) (0, [])) as Hfuel.
  destruct (while_Err_reached _ _ _ _ _ H) as [->|([q cb] & Hr & Hc & Hb)];
    [done|].
  exists tb, q, cb. split; [done|]. split; [done|].
  unfold parse_body in Hb. apply bind_Err in Hb as [Hb|([st c] & _ & Hb)].
  - by eapply parse_statement_refuses.
  - by destruct st.
Qed.

(** X11: on tokens whose values have the form their kinds promise, as the
    tokens of the lexer have, the parser fails only in its second pass, at
    a statement that this pass reaches, and only for an array declaration
    without a name or a starlord without its string, with the line of the
    keyword. *)
Theorem parse_errors tokens e :
  Forall (fun t => token_ok t = true) tokens →
  parse tokens = Err e →
  ∃ tb q cb,
    first_pass tokens = Ok tb ∧
    reaches (parse_cond tokens) (parse_body tokens (flashes tb)) (0, []) (q, cb) ∧
    refused_at tokens q e.
Proof. apply parse_Err_refused. Qed.

Lemma parse_errors_witness :
  ∃ tb q cb,
    first_pass unnamed_array = Ok tb ∧
    reaches (parse_cond unnamed_array) (parse_body unnamed_array (flashes tb))
      (0, []) (q, cb) ∧
    refused_at unnamed_array q (ExpectedArrayName 2).
Proof.
  apply (parse_errors unnamed_array (ExpectedArrayName 2)).
  - repeat constructor.
  - vm_compute; reflexivity.
Defined.

(** X12: an array declaration without a name after its optional size, or a
    starlord without its string, aborts the whole parse as soon as the
    second pass arrives at it, whatever the first pass recorded. *)
Theorem refused_statement_aborts tokens tb q cb e :
  first_pass tokens = Ok tb →
  reaches (parse_cond tokens) (parse_body tokens (flashes tb)) (0, []) (q, cb) →
  refused_at tokens q e →
  parse tokens = Err e.
Proof.
  intros Htb Hr Hrefused. unfold parse. rewrite Htb, bind_Ok_l.
  rewrite (while_reaches_Err _ _ (fun st => length tokens - fst st)
             (parse_measure_positive tokens)
             (parse_measure_decrease tokens (flashes tb))
             (0, []) (q, cb) _ e); [done|done| | |simpl; lia].
  - unfold parse_cond, is_at_end. simpl. apply negb_true_iff, Nat.leb_gt.
    destruct Hrefused as [t Ht|t Ht]; by apply lookup_lt_Some in Ht.
  - unfold parse_body. by rewrite (refused_statement _ _ _ _ Hrefused).
Qed.

Lemma refused_statement_aborts_witness :
  parse unnamed_array = Err (ExpectedArrayName 2).
Proof.
  apply (refused_statement_aborts unnamed_array init_tables 1 [Ironman]).
  - vm_compute; reflexivity.
  - eapply reaches_step; [reflexivity|vm_compute; reflexivity|]. apply reaches_here.
  - by apply (array_name_missing unnamed_array 1
                (mkToken DOCTORSTRANGE (PStr "doctorstrange") 2 (Some 0))).
Defined.

(** X13: a statement reads at least one token and at most five, and none
    past the end of the tokens. *)
Theorem statement_reads_one_to_five tokens flashes_tb q st q' :
  q < length tokens →
  parse_statement tokens flashes_tb q = Ok (st, q') →
  q < q' ≤ q + 5 ∧ q' ≤ length tokens.
Proof. apply parse_statement_bounds. Qed.

Lemma statement_reads_one_to_five_witness :
  0 < 5 ≤ 0 + 5 ∧ 5 ≤ length full_branch.
Proof.
  apply (statement_reads_one_to_five full_branch ∅ 0
           (Some (Spiderman (PStr "l") (PStr "vision") (PStr "==") (PInt 0)))).
  - simpl. lia.
  - vm_compute; reflexivity.
Defined.

(** X14: the parser returns no more instructions than there are tokens. *)
Theorem parse_length tokens ast tb :
  parse tokens = Ok (ast, tb) → length ast ≤ length tokens.
Proof.
  unfold parse. intros (tb' & _ & (st & Hw & [= <- _])%bind_Ok)%bind_Ok.
  eapply parse_while_length; [exact Hw|simpl; lia..].
Qed.

Lemma parse_length_witness :
  length [FlashCall (PStr "f"); Ironman; Falcon (PStr "x")] ≤ length flash_program.
Proof.
  apply (parse_length flash_program
           [FlashCall (PStr "f"); Ironman; Falcon (PStr "x")]
           (mkTables {["x"]} (<["f" := [mkToken IRONMAN (PStr "ironman") 2 (Some 1)]]> ∅) [])).
  vm_compute; reflexivity.
Defined.

End SecondPassFacts.

Module FirstPassFacts.
Import ResolverFacts ParseFacts SecondPassFacts.

Section Tokens.
Variable tokens : list Token.

Local Abbreviation len := (length tokens).

Lemma tokens_between_snoc i k t :
  i ≤ k → tokens !! k = Some t →
  tokens_between tokens i (k + 1) = tokens_between tokens i k ++ [t].
Proof.
  intros Hik Ht. unfold tokens_between.
  replace (k + 1 - i) with (Datatypes.S (k - i)) by lia.
  apply take_S_r. rewrite lookup_drop. by replace (i + (k - i)) with k by lia.
Qed.

Lemma flash_boundary_cond k b :
  flash_cond tokens (k, b) =
    match tokens !! k with
    | Some t => negb (flash_boundary t)
    | None => false
    end.
Proof. reflexivity. Qed.

(** The capture collects the tokens it passes, none of them a boundary,
    and stops at the first boundary or at the end. *)
Lemma flash_while_captures i fuel j body :
  i ≤ len →
  while (flash_cond tokens) (flash_body tokens) fuel (i, []) = Ok (j, body) →
  body = tokens_between tokens i j ∧ i ≤ j ≤ len ∧
  Forall (fun t => flash_boundary t = false) body ∧
  (∀ t, tokens !! j = Some t → flash_boundary t = true).
Proof.
  intros Hi Hw. pose proof (while_exit _ _ _ _ _ Hw) as Hexit.
  rewrite flash_boundary_cond in Hexit.
  assert (body = tokens_between tokens i j ∧ i ≤ j ≤ len ∧
          Forall (fun t => flash_boundary t = false) body) as (-> & Hj & Hall).
  { revert Hw.
    apply (while_invariant _ _
             (fun s => snd s = tokens_between tokens i (fst s) ∧
                       i ≤ fst s ≤ len ∧
                       Forall (fun t => flash_boundary t = false) (snd s))).
    - intros [k b] s' (Hb & Hk & Hall) Hc. simpl in *.
      rewrite flash_boundary_cond in Hc. unfold flash_body.
      destruct (tokens !! k) as [t|] eqn:Ht; [|discriminate].
      intros [= <-]. simpl. apply negb_true_iff in Hc.
      pose proof (lookup_lt_Some _ _ _ Ht).
      rewrite (tokens_between_snoc i k t), Hb by (done || lia).
      repeat split; [lia..|]. apply Forall_app. split; [by rewrite <- Hb|].
      by constructor.
    - simpl. unfold tokens_between. rewrite Nat.sub_diag.
      repeat split; [lia|done|constructor]. }
  repeat split; [lia..|done|].
  intros t Ht. rewrite Ht in Hexit. by apply negb_false_iff in Hexit.
Qed.

(** X15: at a flash definition the first pass stores under the name of the
    flash exactly the tokens from after the name up to the next falcon or
    flash that opens a line at indentation zero, or up to the end; the
    scan resumes at that boundary, which is not part of the body. *)
Theorem flash_capture i tb name :
  flash_def_at tokens i name →
  ∃ j,
    first_pass_body tokens (i, tb) =
      Ok (j, mkTables (labels tb)
                      (<[name := tokens_between tokens (i + 2) j]> (flashes tb))
                      (doctorstranges tb)) ∧
    i + 2 ≤ j ≤ len ∧
    Forall (fun t => flash_boundary t = false) (tokens_between tokens (i + 2) j) ∧
    (∀ t, tokens !! j = Some t → flash_boundary t = true).
Proof.
  intros [t t1 Ht Hty Ht1 Hty1 Hname].
  destruct (flash_while_Ok tokens (i + 2, [])) as [[j body] Hw].
  pose proof (lookup_lt_Some _ _ _ Ht1) as Hlt.
  destruct (flash_while_captures (i + 2) _ j body ltac:(lia) Hw)
    as (-> & Hj & Hall & Hend).
  exists j. split; [|done].
  unfold first_pass_body. rewrite Ht.
  assert (is_type FALCON t = false) as ->
    by (apply bool_decide_eq_false; congruence).
  assert (is_type FLASH t = true) as -> by (by apply bool_decide_eq_true).
  rewrite (has_type_of tokens IDENTIFIER (i + 1) t1), Ht1, Hname by done.
  by rewrite bind_Ok_l, Hw, bind_Ok_l.
Qed.

(** What one iteration of the first pass adds to the labels and the
    flashes. *)
Lemma first_pass_body_tables i tb i' tb' :
  first_pass_body tokens (i, tb) = Ok (i', tb') →
  (∀ l, l ∈ labels tb' → l ∈ labels tb ∨ label_def_at tokens i l) ∧
  (∀ name body, flashes tb' !! name = Some body →
     flashes tb !! name = Some body ∨
     flash_def_at tokens i name ∧ ∃ j, body = tokens_between tokens (i + 2) j).
Proof.
  unfold first_pass_body.
  destruct (tokens !! i) as [token|] eqn:Ht; [|discriminate].
  destruct (is_type FALCON token) eqn:Hfalcon.
  { apply bool_decide_eq_true in Hfalcon.
    intros (l & Hl & [= _ <-])%bind_Ok. simpl. split; [|by left].
    destruct (has_type tokens IDENTIFIER (i + 1)) eqn:Hid;
      [|injection Hl as <-; by left].
    apply has_type_Some in Hid as (t1 & Ht1 & Hty1). rewrite Ht1 in Hl.
    apply bind_Ok in Hl as (name & Hname & [= <-]).
    intros l' [->%elem_of_singleton|Hl']%elem_of_union; [right|by left].
    by eapply label_def. }
  destruct (is_type FLASH token) eqn:Hflash; cycle 1.
  { destruct (is_type DOCTORSTRANGE token);
      [|intros [= _ <-]; split; intros; by left].
    intros H.
    assert (labels tb' = labels tb ∧ flashes tb' = flashes tb) as [-> ->];
      [|split; intros; by left].
    repeat case_match; by simplify_eq. }
  apply bool_decide_eq_true in Hflash.
  destruct (has_type tokens IDENTIFIER (i + 1)) eqn:Hid;
    [|intros [= _ <-]; split; intros; by left].
  apply has_type_Some in Hid as (t1 & Ht1 & Hty1). rewrite Ht1.
  intros (name & Hname & ([j body] & Hw & [= _ <-])%bind_Ok)%bind_Ok. simpl.
  split; [intros; by left|].
  pose proof (lookup_lt_Some _ _ _ Ht1) as Hlt.
  destruct (flash_while_captures (i + 2) _ j body ltac:(lia) Hw) as (-> & _).
  intros name' body'. destruct (decide (name' = name)) as [->|Hne].
  - rewrite lookup_insert_eq. intros [= <-]. right. split; [by eapply flash_def|eauto].
  - rewrite lookup_insert_ne by done. by left.
Qed.

(** Every key of the array table names a declaration. *)
Lemma first_pass_keys_declared fuel st st' :
  (∀ name, In name (map fst (doctorstranges (snd st))) →
           ∃ i, array_named_at tokens i name) →
  while (first_pass_cond tokens) (first_pass_body tokens) fuel st = Ok st' →
  ∀ name, In name (map fst (doctorstranges (snd st'))) →
          ∃ i, array_named_at tokens i name.
Proof.
  apply (while_invariant _ _
           (fun s => ∀ name, In name (map fst (doctorstranges (snd s))) →
                             ∃ i, array_named_at tokens i name)).
  intros [i tb0] [i' tb'] Ha _ Hb name Hin. simpl in *.
  destruct (first_pass_body_arrays _ _ _ _ _ Hb)
    as [Heq|(name' & size & Hdef & Heq)]; rewrite Heq in Hin; [eauto|].
  apply dict_set_keys in Hin as [->|Hin]; eauto.
Qed.

End Tokens.

Lemma flash_capture_witness :
  ∃ j,
    first_pass_body flash_program (0, init_tables) =
      Ok (j, mkTables ∅ (<["f" := tokens_between flash_program 2 j]> ∅) []) ∧
    2 ≤ j ≤ 5 ∧
    Forall (fun t => flash_boundary t = false) (tokens_between flash_program 2 j) ∧
    (∀ t, flash_program !! j = Some t → flash_boundary t = true).
Proof.
  apply (flash_capture flash_program 0 init_tables "f").
  by apply (flash_def flash_program 0 "f" _ (mkToken IDENTIFIER (PStr "f") 1 None)
              eq_refl eq_refl eq_refl).
Defined.

(** X16: the tables that the first pass leaves hold nothing but what the
    tokens define: every label is the name of a label definition, every
    flash is the name of a flash definition and its body is a slice of
    the tokens that starts after that name, and every array is the name
    of an array declaration. *)
Theorem first_pass_tables_sound tokens tb :
  first_pass tokens = Ok tb →
  (∀ l, l ∈ labels tb → ∃ i, label_def_at tokens i l) ∧
  (∀ name body, flashes tb !! name = Some body →
     ∃ i j, flash_def_at tokens i name ∧ body = tokens_between tokens (i + 2) j) ∧
  (∀ name, In name (map fst (doctorstranges tb)) → ∃ i, array_named_at tokens i name).
Proof.
  unfold first_pass. intros (st & Hw & [= <-])%bind_Ok.
  apply and_assoc. split;
    [|by apply (first_pass_keys_declared tokens (length tokens) (0, init_tables))].
  revert Hw.
  apply (while_invariant _ _
           (fun s =>
              (∀ l, l ∈ labels (snd s) → ∃ i, label_def_at tokens i l) ∧
              (∀ name body, flashes (snd s) !! name = Some body →
                 ∃ i j, flash_def_at tokens i name ∧
                        body = tokens_between tokens (i + 2) j))).
  - intros [i tb0] [i' tb'] (Hl & Hf) _ Hb. simpl in *.
    destruct (first_pass_body_tables _ _ _ _ _ Hb) as [Hl' Hf'].
    split.
    + intros l [Hin|Hdef]%Hl'; eauto.
    + intros name body [Hin|(Hdef & j & ->)]%Hf'; eauto.
  - simpl. split.
    + intros l Hl. by apply elem_of_empty in Hl.
    + intros name body Hl. by rewrite lookup_empty in Hl.
Qed.

Lemma first_pass_tables_sound_witness : ∃ i, label_def_at flash_program i "x".
Proof.
  assert (first_pass flash_program =
            Ok (mkTables {["x"]}
                  (<["f" := [mkToken IRONMAN (PStr "ironman") 2 (Some 1)]]> ∅) []))
    as Hfirst by (vm_compute; reflexivity).
  apply (proj1 (first_pass_tables_sound _ _ Hfirst)). simpl.
  by apply elem_of_singleton.
Defined.

End FirstPassFacts.

Module FlashFacts.
Import ResolverFacts ParseFacts.

(** X17: the second pass does not skip a flash definition: the keyword
    yields nothing, the name of a recorded flash yields a call of that
    flash, and the pass goes on with the first token of the body, which
    it parses as statements of the program. *)
Theorem flash_definition_parsed_in_place tokens flashes_tb i t t1 name cb :
  tokens !! i = Some t → type t = FLASH →
  tokens !! (i + 1) = Some t1 → type t1 = IDENTIFIER → value t1 = PStr name →
  is_Some (flashes_tb !! name) →
  reaches (parse_cond tokens) (parse_body tokens flashes_tb)
    (i, cb) (i + 2, cb ++ [FlashCall (PStr name)]).
Proof.
  intros Ht Hty Ht1 Hty1 Hv Hflash.
  assert (∀ q x c, tokens !! q = Some x → parse_cond tokens (q, c) = true) as Hcond.
  { intros q x c Hq%lookup_lt_Some. unfold parse_cond, is_at_end. simpl.
    apply negb_true_iff, Nat.leb_gt. lia. }
  apply (reaches_step _ _ _ (i + 1, cb)); [by eapply Hcond| |].
  { unfold parse_body, parse_statement.
    by rewrite Ht, Hty, (advance_in_range _ _ _ Ht), !bind_Ok_l. }
  apply (reaches_step _ _ _ (i + 2, cb ++ [FlashCall (PStr name)]));
    [by eapply Hcond| |apply reaches_here].
  unfold parse_body, parse_statement.
  rewrite Ht1, Hty1, (advance_in_range _ _ _ Ht1), !bind_Ok_l, Hv.
  unfold in_flashes. rewrite bool_decide_eq_true_2 by done.
  rewrite bind_Ok_l. by replace (i + 1 + 1) with (i + 2) by lia.
Qed.

Lemma flash_definition_parsed_in_place_witness :
  reaches (parse_cond flash_program)
    (parse_body flash_program
       (<["f" := [mkToken IRONMAN (PStr "ironman") 2 (Some 1)]]> ∅))
    (0, []) (2, [FlashCall (PStr "f")]).
Proof.
  apply (flash_definition_parsed_in_place flash_program _ 0
           (mkToken FLASH (PStr "flash") 1 (Some 0))
           (mkToken IDENTIFIER (PStr "f") 1 None) "f" []);
    try reflexivity.
  rewrite lookup_insert_eq. by eexists.
Defined.

End FlashFacts.

(** * The whole translation *)

(** The translation never stops for lack of fuel: it returns the C text or
    an error of the lexer or of the parser. *)
Lemma compile_to_c_no_fuel_error nt source_code :
  compile_to_c nt source_code ≠ Err OutOfFuel.
Proof.
  unfold compile_to_c. intros [H|(tokens & _ & H)]%bind_Err.
  - by apply ScanFacts.tokenize_no_fuel_error in H.
  - apply bind_Err in H as [H|([ast tb] & _ & H)]; [|discriminate].
    by apply ParseFacts.parse_no_fuel_error in H.
Qed.

Module StraightLineFacts.
Import SuperHeroLexer CodeGenerator StraightLine.
Import ResolverFacts ParseFacts GeneratorFacts.

(** A line that is one plain command adds the token of the command. *)
Lemma lex_line_command k n tokens :
  lex_line n (spelling k) (false, tokens) = Ok (false, tokens ++ [command_token k n]).
Proof. destruct k; vm_compute; reflexivity. Qed.

Lemma lex_lines_commands ks n tokens :
  lex_lines (map spelling ks) n (false, tokens) =
    Ok (false, tokens ++ command_tokens ks n).
Proof.
  revert n tokens. induction ks as [|k ks IH]; intros n tokens; simpl map.
  - simpl. by rewrite app_nil_r.
  - rewrite lex_lines_cons, lex_line_command, bind_Ok_l, IH.
    by rewrite <- app_assoc.
Qed.

Lemma command_tokens_length ks n : length (command_tokens ks n) = length ks.
Proof. revert n. induction ks as [|k ks IH]; intros n; simpl; [done|]. by rewrite IH. Qed.

Lemma command_tokens_lookup ks n q k :
  ks !! q = Some k → command_tokens ks n !! q = Some (command_token k (n + q)).
Proof.
  revert n q. induction ks as [|k' ks IH]; intros n [|q]; simpl; try done.
  - intros [= ->]. by rewrite Nat.add_0_r.
  - intros H. rewrite (IH (Datatypes.S n) q H). do 2 f_equal. lia.
Qed.

Section Commands.
Variable ks : list command.
Variable n : nat.

Local Abbreviation tokens := (command_tokens ks n).

(** The first pass finds nothing to record in plain commands. *)
Lemma first_pass_body_command q k tb :
  ks !! q = Some k → first_pass_body tokens (q, tb) = Ok (q + 1, tb).
Proof.
  intros Hk. unfold first_pass_body.
  rewrite (command_tokens_lookup _ n _ _ Hk). by destruct k.
Qed.

Lemma first_pass_while_commands fuel q tb :
  q ≤ length ks → length ks - q ≤ fuel →
  while (first_pass_cond tokens) (first_pass_body tokens) fuel (q, tb) =
    Ok (length ks, tb).
Proof.
  revert q. induction fuel as [|fuel IH]; intros q Hq Hfuel.
  - rewrite while_O. unfold first_pass_cond. cbn [fst].
    rewrite command_tokens_length.
    assert ((q <? length ks) = false) as -> by (apply Nat.ltb_ge; lia).
    f_equal. f_equal. lia.
  - rewrite while_S. unfold first_pass_cond at 1. cbn [fst].
    rewrite command_tokens_length.
    destruct (q <? length ks) eqn:Hlt.
    + apply Nat.ltb_lt in Hlt.
      destruct (lookup_lt_is_Some_2 ks q Hlt) as [k Hk].
      rewrite (first_pass_body_command _ _ _ Hk), bind_Ok_l. apply IH; lia.
    + apply Nat.ltb_ge in Hlt. f_equal. f_equal. lia.
Qed.

Lemma first_pass_commands : first_pass tokens = Ok init_tables.
Proof.
  unfold first_pass. rewrite command_tokens_length.
  rewrite first_pass_while_commands by lia. by rewrite bind_Ok_l.
Qed.

(** Each plain command is one statement of one token. *)
Lemma parse_statement_command flashes_tb q k :
  ks !! q = Some k →
  parse_statement tokens flashes_tb q = Ok (Some (command_node k), q + 1).
Proof.
  intros Hk. pose proof (command_tokens_lookup _ n _ _ Hk) as Ht.
  unfold parse_statement. rewrite Ht.
  destruct k; simpl; by rewrite (advance_in_range _ _ _ Ht), bind_Ok_l.
Qed.

Lemma parse_body_command flashes_tb q cb k :
  ks !! q = Some k →
  parse_body tokens flashes_tb (q, cb) = Ok (q + 1, cb ++ [command_node k]).
Proof.
  intros Hk. unfold parse_body.
  by rewrite (parse_statement_command _ _ _ Hk), !bind_Ok_l.
Qed.

Lemma parse_while_commands flashes_tb fuel q cb :
  q ≤ length ks → length ks - q ≤ fuel →
  while (parse_cond tokens) (parse_body tokens flashes_tb) fuel (q, cb) =
    Ok (length ks, cb ++ map command_node (skipn q ks)).
Proof.
  revert q cb. induction fuel as [|fuel IH]; intros q cb Hq Hfuel.
  - rewrite while_O. unfold parse_cond, is_at_end. cbn [fst].
    rewrite command_tokens_length.
    assert ((length ks <=? q) = true) as -> by (apply Nat.leb_le; lia). cbn [negb].
    replace q with (length ks) by lia. by rewrite drop_all, app_nil_r.
  - rewrite while_S. unfold parse_cond at 1. unfold is_at_end at 1. cbn [fst].
    rewrite command_tokens_length.
    destruct (length ks <=? q) eqn:Hle; cbn [negb].
    + apply Nat.leb_le in Hle. replace q with (length ks) by lia.
      by rewrite drop_all, app_nil_r.
    + apply Nat.leb_gt in Hle.
      destruct (lookup_lt_is_Some_2 ks q Hle) as [k Hk].
      rewrite (parse_body_command _ _ _ _ Hk), bind_Ok_l.
      rewrite IH by lia. rewrite (drop_S _ _ _ Hk). simpl.
      replace (q + 1) with (Datatypes.S q) by lia. by rewrite <- app_assoc.
Qed.

Lemma parse_commands : parse tokens = Ok (map command_node ks, init_tables).
Proof.
  unfold parse. rewrite first_pass_commands, bind_Ok_l, command_tokens_length.
  rewrite parse_while_commands by lia. by rewrite bind_Ok_l.
Qed.

End Commands.

Lemma generate_commands nt ks :
  generate nt [] (map command_node ks) = c_program nt ks.
Proof.
  assert (concat (map (generate_node [] 1) (map command_node ks)) =
          concat (map c_statement ks)) as Hbody.
  { induction ks as [|k ks IH]; [done|]. simpl. rewrite IH. f_equal.
    by destruct k. }
  unfold generate, c_program. rewrite generate_code_eq, Hbody. reflexivity.
Qed.

(** X18: a program whose lines are plain commands, one keyword on a line,
    compiles, and the C text it compiles to is the fixed prologue with
    no buffer, the statements of the commands in the order of the lines,
    and the closing return of main. *)
Theorem plain_commands_compile nt code ks :
  split_lines code = map spelling ks →
  compile_to_c nt code = Ok (c_program nt ks).
Proof.
  intros Hlines. unfold compile_to_c, tokenize, tokenize_lines.
  rewrite Hlines, lex_lines_commands, !bind_Ok_l. simpl.
  rewrite parse_commands, bind_Ok_l. simpl. by rewrite generate_commands.
Qed.

Lemma plain_commands_compile_witness :
  compile_to_c false ("ironman" +:+ nls +:+ "superman" +:+ nls +:+ "thanos") =
    Ok (c_program false [KIronman; KSuperman; KThanos]).
Proof. apply plain_commands_compile. vm_compute; reflexivity. Defined.

End StraightLineFacts.

Module ArrayTargetFacts.
Import CodeGenerator ResolverFacts ParseFacts GeneratorFacts.

Section Tokens.
Variable tokens : list Token.

(** A key of the array table stays in the table. *)
Lemma first_pass_keeps_key name fuel st st' :
  is_Some (dict_get (doctorstranges (snd st)) name) →
  while (first_pass_cond tokens) (first_pass_body tokens) fuel st = Ok st' →
  is_Some (dict_get (doctorstranges (snd st')) name).
Proof.
  apply (while_invariant _ _
           (fun s => is_Some (dict_get (doctorstranges (snd s)) name))).
  intros [j tb1] [j' tb2] Hg _ Hb. simpl in *.
  apply first_pass_body_arrays in Hb as [->|(name' & sz & _ & ->)]; [done|].
  destruct (decide (name' = name)) as [->|Hne].
  - rewrite dict_get_set_eq. by eexists.
  - by rewrite dict_get_set_ne.
Qed.

(** An array whose declaration the first pass reaches is in the table
    that the pass leaves. *)
Lemma first_pass_declared i tb_i name size tb :
  reaches (first_pass_cond tokens) (first_pass_body tokens) (0, init_tables) (i, tb_i) →
  array_decl_at tokens i name size → py_truthy name = true →
  first_pass tokens = Ok tb →
  in_doctorstranges (doctorstranges tb) name = true.
Proof.
  intros Hreach Hdecl Hname Hfp.
  unfold first_pass in Hfp. apply bind_Ok in Hfp as (st & Hw & [= <-]).
  destruct (while_from_reached _ _ _ _ _ _ Hreach Hw) as [fuel Hfuel].
  assert (first_pass_cond tokens (i, tb_i) = true) as Hcond.
  { unfold first_pass_cond. apply Nat.ltb_lt. simpl.
    destruct Hdecl as [t ? ? ? Ht|t ? Ht]; by apply lookup_lt_Some in Ht. }
  apply while_Ok_step in Hfuel as (fuel' & st1 & Hbody & Hfuel); [|done].
  rewrite (first_pass_body_declares _ _ _ _ _ Hdecl Hname) in Hbody.
  injection Hbody as <-.
  apply bool_decide_eq_true.
  apply (first_pass_keeps_key name _ _ _) in Hfuel; [done|].
  simpl. rewrite dict_get_set_eq. by eexists.
Qed.

Variable flashes_tb : gmap string (list Token).

Lemma parse_statement_store q name content :
  store_at tokens q name content →
  parse_statement tokens flashes_tb q =
    Ok (Some (Blackpanther (PStr name) (PStr content)), q + 4).
Proof.
  intros [t t1 t2 t3 Ht Hty Ht1 Hty1 Ht2 Hty2 Hv2 Ht3 Hty3 Hv3].
  unfold parse_statement.
  rewrite Ht, Hty, (advance_in_range _ _ _ Ht), bind_Ok_l.
  rewrite (peek_is_of tokens INTO _ t1), (advance_in_range _ _ _ Ht1), bind_Ok_l
    by done.
  replace (q + 1 + 1) with (q + 2) by lia.
  assert (is_at_end tokens (q + 2) = false) as ->.
  { apply Nat.leb_gt. by apply lookup_lt_Some in Ht2. }
  rewrite (has_type_of tokens IDENTIFIER _ t2), (advance_in_range _ _ _ Ht2),
    !bind_Ok_l by done.
  replace (q + 2 + 1) with (q + 3) by lia. unfold take.
  rewrite (peek_is_of tokens STRING _ t3), (advance_in_range _ _ _ Ht3),
    !bind_Ok_l by done.
  rewrite Hv2, Hv3. by replace (q + 3 + 1) with (q + 4) by lia.
Qed.

Lemma parse_statement_print q name :
  print_at tokens q name →
  parse_statement tokens flashes_tb q = Ok (Some (Captainamerica (PStr name)), q + 2).
Proof.
  intros [t t1 Ht Hty Ht1 Hty1 Hv]. unfold parse_statement.
  rewrite Ht, Hty, (advance_in_range _ _ _ Ht), bind_Ok_l. unfold take.
  rewrite (peek_is_of tokens IDENTIFIER _ t1), (advance_in_range _ _ _ Ht1),
    !bind_Ok_l by done.
  rewrite Hv. by replace (q + 1 + 1) with (q + 2) by lia.
Qed.

End Tokens.

(** X19: an array whose declaration the first pass reaches is addressed
    by its own buffer wherever the program stores a string into it or
    prints it, before the declaration as well as after it. *)
Theorem declared_array_is_addressed nt tokens ast tb i tb_i name size :
  parse tokens = Ok (ast, tb) →
  reaches (first_pass_cond tokens) (first_pass_body tokens) (0, init_tables) (i, tb_i) →
  array_decl_at tokens i (PStr name) size →
  name ≠ EmptyString →
  (∀ q cb content,
     reaches (parse_cond tokens) (parse_body tokens (flashes tb)) (0, []) (q, cb) →
     store_at tokens q name content →
     In (store_line name content) (generate_code nt (doctorstranges tb) ast)) ∧
  (∀ q cb,
     reaches (parse_cond tokens) (parse_body tokens (flashes tb)) (0, []) (q, cb) →
     print_at tokens q name →
     In (print_line name) (generate_code nt (doctorstranges tb) ast)).
Proof.
  intros Hparse Hreach Hdecl Hname.
  unfold parse in Hparse. apply bind_Ok in Hparse as (tb0 & Hfp & Hparse).
  apply bind_Ok in Hparse as (pst & Hw & [= <- <-]).
  assert (in_doctorstranges (doctorstranges tb0) (PStr name) = true) as Hin.
  { eapply first_pass_declared; [done..| |done]. by destruct name. }
  split.
  - intros q cb content Hq Hstore.
    apply (generate_code_node nt _ _ (Blackpanther (PStr name) (PStr content))).
    + eapply (parse_reached_statement tokens (flashes tb0) _ _ q cb _ (q + 4) _ Hq);
        [|by apply parse_statement_store|exact Hw].
      destruct Hstore as [t ? ? ? Ht]. by apply lookup_lt_Some in Ht.
    + unfold generate_node. rewrite Hin. left. unfold store_line.
      cbn [py_str]. rewrite !append_assoc. reflexivity.
  - intros q cb Hq Hprint.
    apply (generate_code_node nt _ _ (Captainamerica (PStr name))).
    + eapply (parse_reached_statement tokens (flashes tb0) _ _ q cb _ (q + 2) _ Hq);
        [|by apply parse_statement_print|exact Hw].
      destruct Hprint as [t ? Ht]. by apply lookup_lt_Some in Ht.
    + unfold generate_node. rewrite Hin. left. unfold print_line.
      cbn [py_str]. rewrite !append_assoc. reflexivity.
Qed.

Lemma declared_array_is_addressed_witness :
  In "    captainamerica(doctorstrange_a);"
     (generate_code false [(PStr "a", PInt 5)]
        [Captainamerica (PStr "a"); Doctorstrange (PStr "a") (PInt 5)]).
Proof.
  assert (parse use_before_declaration =
            Ok ([Captainamerica (PStr "a"); Doctorstrange (PStr "a") (PInt 5)],
                mkTables ∅ ∅ [(PStr "a", PInt 5)])) as Hparse
    by (vm_compute; reflexivity).
  apply (proj2 (declared_array_is_addressed false use_before_declaration _ _ 2
                  init_tables "a" (Some 5%Z) Hparse
                  ltac:(do 2 (eapply reaches_step;
                                [reflexivity|vm_compute; reflexivity|]);
                        apply reaches_here)
                  (sized_decl use_before_declaration 2 _ _
                     (mkToken IDENTIFIER (PStr "a") 2 None) 5%Z
                     eq_refl eq_refl eq_refl eq_refl eq_refl eq_refl eq_refl)
                  ltac:(discriminate)) 0 []).
  - apply reaches_here.
  - by apply (print use_before_declaration 0 "a" _
                (mkToken IDENTIFIER (PStr "a") 1 None) eq_refl eq_refl eq_refl).
Defined.

End ArrayTargetFacts.

Module PipelineFacts.
Import SuperHeroLexer CodeGenerator.
Import CharFacts LexerInvariants ResolverFacts ParseFacts SecondPassFacts
  FirstPassFacts GeneratorFacts.

(** The tokens of the lexer are well formed and carry the numbers of
    lines of the program. *)
Lemma tokenize_tokens code tokens :
  tokenize code = Ok tokens →
  Forall (fun t => token_ok t = true ∧
                   1 ≤ line_number t ≤ length (split_lines code)) tokens.
Proof.
  unfold tokenize, tokenize_lines. intros ([mc toks] & Hl & [= <-])%bind_Ok.
  apply lex_lines_chunks in Hl as (chunks & Hc & Hch). simpl in Hc. subst toks.
  apply line_chunks_tokens in Hch as [Hall _].
  eapply Forall_impl; [exact Hall|]. intros t [? ?]. split; [done|lia].
Qed.

(** X20: the translation fails for a line of the program, and only in
    the lexer or in the second pass of the parser: with an error of the
    lexer or of that pass, which carries the number of the line, or with
    the [ValueError] that [int] raises on a run of digits of the line and
    that escapes uncaught. *)
Theorem compile_errors nt code e :
  compile_to_c nt code = Err e →
  ∃ k line, split_lines code !! k = Some line ∧
            (lexer_failure line (S k) e ∨ syntax_error (S k) e).
Proof.
  unfold compile_to_c. intros [H|(tokens & Htok & H)]%bind_Err.
  - unfold tokenize, tokenize_lines in H.
    apply bind_Err in H as [H|(st & _ & H)]; [|discriminate].
    apply lex_lines_Err_line in H as (k & line & Hk & He).
    exists k, line. split; [done|by left].
  - apply bind_Err in H as [H|([ast tb] & _ & H)]; [|discriminate].
    pose proof (tokenize_tokens _ _ Htok) as Hall.
    apply parse_Err_refused in H as (tb & q & cb & _ & _ & Hrefused);
      [|eapply Forall_impl; [exact Hall|]; by intros t [? _]].
    assert (∀ t, t ∈ tokens →
              ∃ k line, split_lines code !! k = Some line ∧ line_number t = S k)
      as Hline.
    { intros t Ht. rewrite Forall_forall in Hall. destruct (Hall t Ht) as [_ Hn].
      destruct (lookup_lt_is_Some_2 (split_lines code) (line_number t - 1))
        as [line Hl]; [lia|].
      exists (line_number t - 1), line. split; [done|lia]. }
    destruct Hrefused as [t Ht Hty _|t Ht Hty _];
      destruct (Hline t (list_elem_of_lookup_2 _ _ _ Ht)) as (k & line & Hl & ->);
      exists k, line; (split; [done|right; constructor]).
Qed.

Lemma compile_errors_witness :
  ∃ k line,
    split_lines ("ironman" +:+ nls +:+ "starlord") !! k = Some line ∧
    (lexer_failure line (S k) (ExpectedString 2) ∨
     syntax_error (S k) (ExpectedString 2)).
Proof. apply (compile_errors false). vm_compute; reflexivity. Defined.

(** *** The buffer declarations *)

Lemma append_inj_prefix p a b : p +:+ a = p +:+ b → a = b.
Proof.
  induction p as [|c p IH]; [done|]. rewrite !append_cons. intros [= H]. auto.
Qed.

(** Two texts that agree up to and behind their first opening bracket
    agree before it. *)
Lemma bracket_split s1 s2 r1 r2 :
  string_forall (fun c => negb (Ascii.eqb c "[")) s1 = true →
  string_forall (fun c => negb (Ascii.eqb c "[")) s2 = true →
  s1 +:+ String "[" r1 = s2 +:+ String "[" r2 → s1 = s2.
Proof.
  revert s2. induction s1 as [|c1 s1 IH]; intros [|c2 s2]; simpl;
    rewrite ?append_cons; try done.
  - intros _ [Hc _]%andb_prop [= <- _]. done.
  - intros [Hc _]%andb_prop _ [= -> _]. done.
  - intros [_ H1]%andb_prop [_ H2]%andb_prop [= -> H]. f_equal. by apply IH.
Qed.

Lemma identifier_no_bracket t s :
  token_ok t = true → type t = IDENTIFIER → value t = PStr s →
  string_forall (fun c => negb (Ascii.eqb c "[")) s = true.
Proof.
  unfold token_ok. intros Hok Hty Hv. rewrite Hty, Hv in Hok.
  apply orb_prop in Hok as [Hw|Hcolon];
    [|apply String.eqb_eq in Hcolon as ->; done].
  destruct s as [|c s]; [done|]. apply andb_prop in Hw as [_ Hall].
  apply (string_forall_impl ident_char); [|done].
  intros a Ha. destruct (Ascii.eqb_spec a "[") as [->|]; [discriminate|done].
Qed.

Lemma array_name_no_bracket tokens i name :
  Forall (fun t => token_ok t = true) tokens →
  array_named_at tokens i name →
  string_forall (fun c => negb (Ascii.eqb c "[")) (py_str name) = true.
Proof.
  intros Hok [t t1 t2 _ _ _ _ Ht Hty Hv|t t1 _ _ Ht Hty Hv];
    pose proof (proj1 (Forall_lookup _ _) Hok _ _ Ht) as Htok;
    destruct (identifier_value tokens Hok _ _ Ht Hty) as [s Hs];
    rewrite <- Hv, Hs; by apply (identifier_no_bracket _ _ Htok Hty).
Qed.

Lemma array_decl_inj n1 s1 n2 s2 :
  string_forall (fun c => negb (Ascii.eqb c "[")) (py_str n1) = true →
  string_forall (fun c => negb (Ascii.eqb c "[")) (py_str n2) = true →
  array_decl (n1, s1) = array_decl (n2, s2) → py_str n1 = py_str n2.
Proof.
  intros H1 H2. unfold array_decl. intros H%append_inj_prefix.
  by apply bracket_split in H.
Qed.

Lemma NoDup_map_on {A B} (f : A → B) (l : list A) :
  (∀ x y, In x l → In y l → f x = f y → x = y) →
  List.NoDup l → List.NoDup (map f l).
Proof.
  intros Hinj Hnd. induction Hnd as [|x l Hx Hnd IH]; simpl; constructor.
  - intros (y & Hxy & Hy)%in_map_iff. apply Hx.
    rewrite (Hinj x y); [done|by left|by right|done].
  - apply IH. intros a b Ha Hb. apply Hinj; by right.
Qed.

Lemma NoDup_keys_entry {K V} (d : list (K * V)) x y :
  List.NoDup (map fst d) → In x d → In y d → fst x = fst y → x = y.
Proof.
  induction d as [|e d IH]; simpl; [done|].
  intros [He Hnd]%List.NoDup_cons_iff [->|Hx] [->|Hy] Hxy; try done.
  - exfalso. apply He. rewrite Hxy. by apply in_map.
  - exfalso. apply He. rewrite <- Hxy. by apply in_map.
  - by apply IH.
Qed.

(** X21: a program that compiles has the fixed layout: the headers, the
    headers of the platform, the globals, one buffer declaration for each
    array of the table, the helpers with the opening of main, the
    statements of the instructions in their order, and the closing return;
    no two of the buffer declarations are the same line. *)
Theorem compile_layout nt code c :
  compile_to_c nt code = Ok c →
  ∃ tokens ast tb,
    tokenize code = Ok tokens ∧ parse tokens = Ok (ast, tb) ∧
    List.NoDup (map array_decl (doctorstranges tb)) ∧
    c = join_lines
          ([c_headers; if nt then c_windows_headers else c_unix_headers; c_globals]
           ++ map array_decl (doctorstranges tb) ++ [c_helpers]
           ++ concat (map (generate_node (doctorstranges tb) 1) ast)
           ++ [c_epilogue]).
Proof.
  unfold compile_to_c.
  intros (tokens & Htok & ([ast tb] & Hparse & [= <-])%bind_Ok)%bind_Ok.
  exists tokens, ast, tb. split; [done|]. split; [done|].
  split; [|unfold generate; by rewrite generate_code_eq].
  assert (Forall (fun t => token_ok t = true) tokens) as Hok.
  { eapply Forall_impl; [exact (tokenize_tokens _ _ Htok)|]. by intros t [? _]. }
  unfold parse in Hparse. apply bind_Ok in Hparse as (tb0 & Hfp & Hparse).
  apply bind_Ok in Hparse as (pst & _ & [= _ <-]).
  unfold first_pass in Hfp. apply bind_Ok in Hfp as (st & Hw & [= <-]).
  assert (List.NoDup (map fst (doctorstranges (snd st)))) as Hnd.
  { apply (first_pass_NoDup tokens (length tokens) (0, init_tables) st);
      [apply List.NoDup_nil|done]. }
  assert (∀ name, In name (map fst (doctorstranges (snd st))) →
                  string_forall (fun c => negb (Ascii.eqb c "[")) (py_str name) = true)
    as Hkeys.
  { intros name Hin.
    destruct (first_pass_keys_declared tokens (length tokens) (0, init_tables) st
                ltac:(by intros ? []) Hw name Hin) as [i Hi].
    by eapply array_name_no_bracket. }
  apply NoDup_map_on; [|by eapply NoDup_map_inv].
  intros [n1 s1] [n2 s2] H1 H2 Hdecl.
  apply (NoDup_keys_entry _ _ _ Hnd H1 H2). simpl.
  pose proof (in_map fst _ _ H1) as K1. pose proof (in_map fst _ _ H2) as K2.
  pose proof (array_decl_inj _ _ _ _ (Hkeys _ K1) (Hkeys _ K2) Hdecl) as Hstr.
  destruct (first_pass_keys_declared tokens (length tokens) (0, init_tables) st
              ltac:(by intros ? []) Hw _ K1) as [i1 Hi1].
  destruct (first_pass_keys_declared tokens (length tokens) (0, init_tables) st
              ltac:(by intros ? []) Hw _ K2) as [i2 Hi2].
  simpl in Hi1, Hi2.
  assert (∀ i n, array_named_at tokens i n → ∃ s, n = PStr s) as Hform.
  { intros i n [t t1 t2 _ _ _ _ Ht Hty Hv|t t1 _ _ Ht Hty Hv];
      destruct (identifier_value tokens Hok _ _ Ht Hty) as [s Hs];
      exists s; congruence. }
  destruct (Hform _ _ Hi1) as [a ->], (Hform _ _ Hi2) as [b ->].
  simpl in Hstr. by rewrite Hstr.
Qed.

Lemma compile_layout_witness :
  ∃ tokens ast tb,
    tokenize ("doctorstrange 5 a" +:+ nls +:+ "doctorstrange a") = Ok tokens ∧
    parse tokens = Ok (ast, tb) ∧
    List.NoDup (map array_decl (doctorstranges tb)) ∧
    generate false [(PStr "a", PNone)]
      [Doctorstrange (PStr "a") (PInt 5); Doctorstrange (PStr "a") PNone] =
    join_lines
      ([c_headers; c_unix_headers; c_globals]
       ++ map array_decl (doctorstranges tb) ++ [c_helpers]
       ++ concat (map (generate_node (doctorstranges tb) 1) ast)
       ++ [c_epilogue]).
Proof. apply (compile_layout false). vm_compute; reflexivity. Defined.

End PipelineFacts.
